(** * ONNX to GWR timetable conversion: a shallow embedding and its properties

    The development follows [gwr-timetable/scripts/onnx-to-gwr-timetable-yaml.py].
    Python integers are unbounded, so sizes, addresses and element types are
    in [Z]; positions in a list ([enumerate], [range]) are in [nat]; a Python
    [dict] is an association list that keeps the order of first insertion,
    because [_layout_tensors] sorts [tensors.items()] with a stable sort.
    A second model, further down, follows the platform generator
    [gwr-platform/scripts/gen_fabric.py]. *)

From Stdlib Require Import ZArith List String Ascii Bool Arith Lia.
From Stdlib Require Import DecimalString DecimalNat Permutation Sorted.
From Stdlib Require DecimalFacts Finite HexadecimalString DecimalZ.
From Stdlib Require DecimalPos.
Import ListNotations.

Local Open Scope string_scope.
Local Open Scope list_scope.
Local Open Scope Z_scope.

Set Implicit Arguments.

(** ** Exceptions and the error monad *)

Inductive error : Type :=
| ValueError (msg : string)      (* [raise ValueError(msg)] written in the script *)
| InvalidLiteral (s : string)    (* the ValueError of the built-in [int] *)
| KeyError (key : string)        (* [d[key]] on a missing key *)
| IndexError                     (* [l[i]] out of range *)
| ZeroDivisionError.             (* [a // 0] *)

Inductive result (A : Type) : Type :=
| Ok (a : A)
| Err (e : error).

Arguments Ok {A} a.
Arguments Err {A} e.

Definition bind {A B : Type} (r : result A) (k : A -> result B) : result B :=
  match r with
  | Ok a => k a
  | Err e => Err e
  end.

Notation "x <- r ;; k" := (bind r (fun x => k))
  (at level 61, r at next level, right associativity).

(** A [for] loop whose body may raise: the state is threaded from left to
    right and the first exception leaves the loop. *)
Fixpoint foldM {S A : Type} (f : S -> A -> result S) (l : list A) (s : S)
  : result S :=
  match l with
  | [] => Ok s
  | a :: r => s' <- f s a ;; foldM f r s'
  end.

(** [enumerate(l)] *)
Definition enumerate {A : Type} (l : list A) : list (nat * A) :=
  combine (seq 0 (List.length l)) l.

(** [str(n)] and the [{n}] of an f-string, for a non-negative index. *)
Definition str (n : nat) : string := NilEmpty.string_of_uint (Nat.to_uint n).

(** [not s] for a string *)
Definition is_empty (s : string) : bool :=
  match s with
  | EmptyString => true
  | String _ _ => false
  end.

(** ** Python dictionaries, in insertion order *)

Section Dict.
Variable V : Type.

Definition dict : Type := list (string * V).

(** [d.get(k)] *)
Fixpoint dict_get (d : dict) (k : string) : option V :=
  match d with
  | [] => None
  | (k', v) :: r => if String.eqb k k' then Some v else dict_get r k
  end.

(** [k in d] *)
Definition dict_mem (d : dict) (k : string) : bool :=
  match dict_get d k with
  | Some _ => true
  | None => false
  end.

(** [d[k] = v]: an existing key keeps its position, a new one goes last. *)
Fixpoint dict_set (d : dict) (k : string) (v : V) : dict :=
  match d with
  | [] => [(k, v)]
  | (k', v') :: r =>
      if String.eqb k k' then (k', v) :: r else (k', v') :: dict_set r k v
  end.

(** [d[k]] *)
Definition dict_lookup (d : dict) (k : string) : result V :=
  match dict_get d k with
  | Some v => Ok v
  | None => Err (KeyError k)
  end.

Definition dict_keys (d : dict) : list string := map fst d.
End Dict.

(** ** The ONNX graph, as the script reads it *)

(** [TensorProto.DataType], from the ONNX protocol definition. *)
Module TensorProto.
Definition FLOAT : Z := 1.
Definition UINT8 : Z := 2.
Definition INT8 : Z := 3.
Definition UINT16 : Z := 4.
Definition INT16 : Z := 5.
Definition INT32 : Z := 6.
Definition INT64 : Z := 7.
Definition BOOL : Z := 9.
Definition FLOAT16 : Z := 10.
Definition DOUBLE : Z := 11.
Definition UINT32 : Z := 12.
Definition UINT64 : Z := 13.
Definition COMPLEX64 : Z := 14.
Definition COMPLEX128 : Z := 15.
Definition BFLOAT16 : Z := 16.
End TensorProto.

(** One entry of [tensor_type.shape.dim]. *)
Inductive Dimension : Type :=
| dim_value (v : Z)
| dim_param (p : string)
| dim_unset.

(** [tt_shape] and [tt_elem_type] are [None] when [HasField] is false. *)
Record TensorTypeProto : Type := {
  tt_shape : option (list Dimension);
  tt_elem_type : option Z
}.

Record TypeProto : Type := {
  tensor_type : option TensorTypeProto
}.

(** An entry of [graph.value_info], [graph.input] or [graph.output];
    [vi_type = None] is a falsy [vi.type]. *)
Record ValueInfoProto : Type := {
  vi_name : string;
  vi_type : option TypeProto
}.

(** An entry of [graph.initializer]; a field is [None] when [hasattr] is
    false for it. *)
Record InitializerProto : Type := {
  init_name : string;
  init_dims : option (list Z);
  init_data_type : option Z
}.

Record NodeProto : Type := {
  node_name : string;
  node_op_type : string;
  node_input : list string;
  node_output : list string
}.

Record GraphProto : Type := {
  graph_value_info : list ValueInfoProto;
  graph_input : list ValueInfoProto;
  graph_output : list ValueInfoProto;
  graph_initializer : list InitializerProto;
  graph_node : list NodeProto
}.

(** ** Tensor metadata *)

Definition Shape : Type := list (option Z).

(** The tuple [(shape, dtype, size_bytes)] stored in [tensors]. *)
Definition TensorInfo : Type := (option Shape * Z * Z)%type.

Definition info_shape (t : TensorInfo) : option Shape := fst (fst t).
Definition info_dtype (t : TensorInfo) : Z := snd (fst t).
Definition info_size_bytes (t : TensorInfo) : Z := snd t.

(** [_DTYPE_SIZES.get(dtype, 4)] *)
Definition _DTYPE_SIZES_get (dtype : Z) : Z :=
  if dtype =? TensorProto.FLOAT then 4
  else if dtype =? TensorProto.UINT8 then 1
  else if dtype =? TensorProto.INT8 then 1
  else if dtype =? TensorProto.UINT16 then 2
  else if dtype =? TensorProto.INT16 then 2
  else if dtype =? TensorProto.INT32 then 4
  else if dtype =? TensorProto.INT64 then 8
  else if dtype =? TensorProto.BOOL then 1
  else if dtype =? TensorProto.FLOAT16 then 2
  else if dtype =? TensorProto.DOUBLE then 8
  else if dtype =? TensorProto.UINT32 then 4
  else if dtype =? TensorProto.UINT64 then 8
  else if dtype =? TensorProto.COMPLEX64 then 8
  else if dtype =? TensorProto.COMPLEX128 then 16
  else if dtype =? TensorProto.BFLOAT16 then 2
  else 4.

Definition _get_tensor_num_elements (shape : Shape) : Z :=
  fold_left
    (fun num_elements dim =>
       match dim with
       | None => num_elements * 1
       | Some d => if d <=? 0 then num_elements * 1 else num_elements * d
       end)
    shape 1.

Definition _get_tensor_size_bytes (shape : Shape) (dtype : Z) : Z :=
  let num_elements := _get_tensor_num_elements shape in
  let elem_size_bytes := _DTYPE_SIZES_get dtype in
  num_elements * elem_size_bytes.

Definition _shape_from_type_proto (type_proto : option TypeProto)
  : option Shape :=
  match type_proto with
  | None => None
  | Some tp =>
      match tensor_type tp with
      | None => None
      | Some ttype =>
          match tt_shape ttype with
          | None => None
          | Some dims =>
              Some (map (fun dim =>
                           match dim with
                           | dim_value v => Some v
                           | dim_param _ => None
                           | dim_unset => None
                           end) dims)
          end
      end
  end.

Definition _dtype_from_type_proto (type_proto : option TypeProto)
  : option Z :=
  match type_proto with
  | None => None
  | Some tp =>
      match tensor_type tp with
      | None => None
      | Some ttype => tt_elem_type ttype
      end
  end.

(** [list(init.dims)] *)
Definition shape_of_dims (dims : list Z) : Shape := map (@Some Z) dims.

(** [{init.name: init for init in graph.initializer}] *)
Definition initializer_map_of (inits : list InitializerProto)
  : dict InitializerProto :=
  fold_left (fun m init => dict_set m (init_name init) init) inits [].

(** Body of the loop over [value_info + input + output]. *)
Definition collect_declared (initializer_map : dict InitializerProto)
  (tensors : dict TensorInfo) (vi : ValueInfoProto) : dict TensorInfo :=
  let shape := _shape_from_type_proto (vi_type vi) in
  let dtype := _dtype_from_type_proto (vi_type vi) in
  let init := dict_get initializer_map (vi_name vi) in
  let shape :=
    match shape, init with
    | None, Some i =>
        match init_dims i with
        | Some dims => Some (shape_of_dims dims)
        | None => shape
        end
    | _, _ => shape
    end in
  let dtype :=
    match dtype, init with
    | None, Some i =>
        match init_data_type i with
        | Some dt => Some dt
        | None => dtype
        end
    | _, _ => dtype
    end in
  let dtype := match dtype with None => TensorProto.FLOAT | Some dt => dt end in
  let shape := match shape with None => [Some 1] | Some s => s end in
  let size_bytes := _get_tensor_size_bytes shape dtype in
  dict_set tensors (vi_name vi) (Some shape, dtype, size_bytes).

(** Body of the loop over [graph.initializer]. *)
Definition collect_initializer (tensors : dict TensorInfo)
  (init : InitializerProto) : dict TensorInfo :=
  let shape :=
    match init_dims init with
    | Some dims => Some (shape_of_dims dims)
    | None => None
    end in
  let dtype :=
    match init_data_type init with
    | Some dt => dt
    | None => TensorProto.FLOAT
    end in
  let shape := match shape with None => [Some 1] | Some s => s end in
  let size_bytes := _get_tensor_size_bytes shape dtype in
  dict_set tensors (init_name init) (Some shape, dtype, size_bytes).

(** Body of the inner loop over [node.input + node.output]. *)
Definition collect_referenced (tensors : dict TensorInfo)
  (tensor_name : string) : dict TensorInfo :=
  if is_empty tensor_name then tensors
  else if dict_mem tensors tensor_name then tensors
  else
    let fallback_shape : Shape := [Some 1] in
    let fallback_dtype := TensorProto.FLOAT in
    dict_set tensors tensor_name
      (Some fallback_shape, fallback_dtype,
       _get_tensor_size_bytes fallback_shape fallback_dtype).

Definition _collect_tensors (graph : GraphProto) : dict TensorInfo :=
  let tensors : dict TensorInfo := [] in
  let initializer_map := initializer_map_of (graph_initializer graph) in
  let tensors :=
    fold_left (collect_declared initializer_map)
      (graph_value_info graph ++ graph_input graph ++ graph_output graph)
      tensors in
  let tensors :=
    fold_left collect_initializer (graph_initializer graph) tensors in
  fold_left
    (fun tensors node =>
       fold_left collect_referenced (node_input node ++ node_output node)
         tensors)
    (graph_node graph) tensors.

(** ** The platform configuration, as loaded from YAML *)

(** A YAML scalar that the script accepts as a number: an integer, or a
    string holding a literal. *)
Inductive YamlScalar : Type :=
| yaml_int (z : Z)
| yaml_str (s : string).

(** An entry of [memory_maps[0]["ranges"]]; a field is [None] when the key
    is missing. *)
Record RangeInfo : Type := {
  range_device : option string;
  range_base_address : option YamlScalar
}.

(** [mm_ranges] is [[]] when the key is missing or empty: both are falsy. *)
Record MemoryMap : Type := {
  mm_ranges : list RangeInfo
}.

Record PeConfig : Type := {
  sram_bytes : option YamlScalar
}.

Record ProcessingElement : Type := {
  pe_name : string;
  pe_config : option PeConfig
}.

(** A missing list is [[]]: the script tests both with [not]. *)
Record PlatformConfig : Type := {
  memory_maps : list MemoryMap;
  processing_elements : list ProcessingElement
}.

(** ** String methods used on literals *)

(** [c.upper()] on an ASCII character. *)
Definition upper_ascii (c : ascii) : ascii :=
  let n := nat_of_ascii c in
  if ((97 <=? n) && (n <=? 122))%nat then ascii_of_nat (n - 32) else c.

(** [s.upper()] *)
Fixpoint upper (s : string) : string :=
  match s with
  | EmptyString => EmptyString
  | String c r => String (upper_ascii c) (upper r)
  end.

(** [sub in s] *)
Fixpoint contains (sub s : string) : bool :=
  if String.prefix sub s then true
  else
    match s with
    | EmptyString => false
    | String _ r => contains sub r
    end.

(** [s.replace(old, "")] for a non-empty [old]: [skip] counts the characters
    of a match that are still to be dropped. *)
Fixpoint remove_from (old : string) (skip : nat) (s : string) : string :=
  match s with
  | EmptyString => EmptyString
  | String c r =>
      match skip with
      | S k => remove_from old k r
      | O =>
          if String.prefix old s
          then remove_from old (String.length old - 1) r
          else String c (remove_from old 0 r)
      end
  end.

Definition remove (old s : string) : string := remove_from old 0 s.

(** ** Timetable records *)

Inductive NodeConfig : Type :=
| MemoryConfig (addr num_bytes : Z)
| ComputeConfig (dtype : string) (num_ops : Z).

Record TimetableNode : Type := {
  id : string;
  kind : string;
  op : string;
  pe : string;
  config : NodeConfig
}.

Record TimetableEdge : Type := {
  edge_from : string;
  edge_to : string;
  edge_kind : string
}.

Record Timetable : Type := {
  nodes : list TimetableNode;
  edges : list TimetableEdge
}.

Definition DEFAULT_SRAM_BYTES : Z := 1024 * 1024.

Definition _dtype_to_string (dtype : Z) : string :=
  if dtype =? TensorProto.FLOAT then "fp32"
  else if dtype =? TensorProto.FLOAT16 then "fp16"
  else if dtype =? TensorProto.BFLOAT16 then "bf16"
  else if dtype =? TensorProto.DOUBLE then "fp64"
  else if dtype =? TensorProto.INT8 then "int8"
  else if dtype =? TensorProto.INT16 then "int16"
  else if dtype =? TensorProto.INT32 then "int32"
  else if dtype =? TensorProto.INT64 then "int64"
  else if dtype =? TensorProto.UINT8 then "uint8"
  else if dtype =? TensorProto.UINT16 then "uint16"
  else if dtype =? TensorProto.UINT32 then "uint32"
  else if dtype =? TensorProto.UINT64 then "uint64"
  else if dtype =? TensorProto.BOOL then "bool"
  else "fp32".

(** The [op_map] of [_map_onnx_op_to_gwr_op]. *)
Definition op_map : dict string :=
  [ ("Add", "add"); ("Sub", "add"); ("Mul", "add"); ("Div", "add");
    ("MatMul", "mul"); ("Conv", "mul"); ("Relu", "mul"); ("Sigmoid", "mul");
    ("Tanh", "mul"); ("BatchNormalization", "mul"); ("MaxPool", "mul");
    ("AveragePool", "mul"); ("Flatten", "mul"); ("Reshape", "mul");
    ("Transpose", "mul"); ("Concat", "mul"); ("Softmax", "mul");
    ("Gemm", "mul"); ("Cast", "mul"); ("Constant", "mul"); ("Gather", "mul");
    ("GroupQueryAttention", "mul"); ("MatMulNBits", "mul"); ("QMoE", "mul");
    ("ReduceSum", "mul"); ("Shape", "mul");
    ("SimplifiedLayerNormalization", "mul");
    ("SkipSimplifiedLayerNormalization", "mul") ].

Definition _map_onnx_op_to_gwr_op (op_type : string) : string :=
  match dict_get op_map op_type with
  | Some gwr_op => gwr_op
  | None => "add"
  end.

Definition _calculate_num_ops (tensors : dict TensorInfo)
  (output_name : string) : result Z :=
  match dict_get tensors output_name with
  | None =>
      Err (ValueError
             ("Output tensor '" ++ output_name ++ "' not found in tensors"))
  | Some (shape, _dtype, _size_bytes) =>
      match shape with
      | None =>
          Err (ValueError
                 ("Output tensor '" ++ output_name
                  ++ "' has unknown shape; cannot calculate num ops"))
      | Some shape =>
          let num_elements := _get_tensor_num_elements shape in
          Ok (Z.max 1 num_elements)
      end
  end.

(** The id of chunk [chunk_index] of a transfer split in [num_chunks]. *)
Definition chunk_id_of (base_id : string) (num_chunks : Z) (chunk_index : nat)
  : string :=
  if num_chunks =? 1 then base_id
  else (base_id ++ "_chunk_" ++ str chunk_index)%string.

Definition _split_memory_op (base_id op_type pe_name : string)
  (base_addr total_size_bytes sram_bytes : Z) : result (list TimetableNode) :=
  if sram_bytes =? 0 then Err ZeroDivisionError
  else
    let num_chunks := (total_size_bytes + sram_bytes - 1) / sram_bytes in
    Ok (map
          (fun chunk_index : nat =>
             let offset := Z.of_nat chunk_index * sram_bytes in
             let chunk_size_bytes :=
               Z.min sram_bytes (total_size_bytes - offset) in
             {| id := chunk_id_of base_id num_chunks chunk_index;
                kind := "memory";
                op := op_type;
                pe := pe_name;
                config := MemoryConfig (base_addr + offset) chunk_size_bytes |})
          (seq 0 (Z.to_nat num_chunks))).

(** [sorted(items, key=size_bytes, reverse=True)]: Python's sort is stable,
    also with [reverse=True], so an item stays before the later items of the
    same size. *)
Fixpoint insert_by_size (x : string * TensorInfo)
  (l : list (string * TensorInfo)) : list (string * TensorInfo) :=
  match l with
  | [] => [x]
  | y :: r =>
      if info_size_bytes (snd x) <? info_size_bytes (snd y)
      then y :: insert_by_size x r
      else x :: y :: r
  end.

Fixpoint sorted_by_size (items : list (string * TensorInfo))
  : list (string * TensorInfo) :=
  match items with
  | [] => []
  | x :: r => insert_by_size x (sorted_by_size r)
  end.

(** [((size_bytes + 63) // 64) * 64] *)
Definition aligned_size (size_bytes : Z) : Z := ((size_bytes + 63) / 64) * 64.

Section Conversion.

(** The built-in [int(x)] and [int(x, 0)] on a string: [None] when Python
    raises ValueError. *)
Variable py_int : string -> option Z.
Variable py_int_base0 : string -> option Z.

Definition int_of (parse : string -> option Z) (s : string) : result Z :=
  match parse s with
  | Some z => Ok z
  | None => Err (InvalidLiteral s)
  end.

(** The parsing of [base_str] in [_layout_tensors]. *)
Definition parse_base_address (base_str : YamlScalar) : result Z :=
  match base_str with
  | yaml_str s =>
      if contains "GB" (upper s) then
        v <- int_of py_int (remove "GB" (upper s)) ;;
        Ok (v * 1024 * 1024 * 1024)
      else if contains "MB" (upper s) then
        v <- int_of py_int (remove "MB" (upper s)) ;;
        Ok (v * 1024 * 1024)
      else if contains "KB" (upper s) then
        v <- int_of py_int (remove "KB" (upper s)) ;;
        Ok (v * 1024)
      else int_of py_int_base0 (remove "_" s)
  | yaml_int z => Ok z
  end.

(** Body of the loop that initialises [device_addresses]. *)
Definition init_device (device_addresses : dict Z) (range_info : RangeInfo)
  : result (dict Z) :=
  let device :=
    match range_device range_info with
    | Some d => d
    | None => "hbm0"
    end in
  let base_str :=
    match range_base_address range_info with
    | Some b => b
    | None => yaml_str "0x0"
    end in
  base <- parse_base_address base_str ;;
  if dict_mem device_addresses device then Ok device_addresses
  else Ok (dict_set device_addresses device base).

(** Body of the allocation loop; the state is
    [(tensor_addresses, current_device_index, device_addresses)]. *)
Definition place_tensor (device_list : list string)
  (st : dict Z * nat * dict Z) (item : string * TensorInfo)
  : result (dict Z * nat * dict Z) :=
  let '(tensor_addresses, current_device_index, device_addresses) := st in
  let '(tensor_name, (_shape, _dtype, size_bytes)) := item in
  match nth_error device_list current_device_index with
  | None => Err IndexError
  | Some device =>
      let current_device_index :=
        ((current_device_index + 1) mod List.length device_list)%nat in
      addr <- dict_lookup device_addresses device ;;
      let tensor_addresses := dict_set tensor_addresses tensor_name addr in
      let aligned_size_bytes := aligned_size size_bytes in
      let device_addresses :=
        dict_set device_addresses device (addr + aligned_size_bytes) in
      Ok (tensor_addresses, current_device_index, device_addresses)
  end.

Definition _layout_tensors (tensors : dict TensorInfo)
  (platform_config : PlatformConfig) : result (dict Z) :=
  match memory_maps platform_config with
  | [] => Err (ValueError "No memory maps found in platform configuration")
  | memory_map0 :: _ =>
      match mm_ranges memory_map0 with
      | [] =>
          Err (ValueError "No memory ranges found in platform configuration")
      | ranges =>
          device_addresses <- foldM init_device ranges [] ;;
          let device_list := dict_keys device_addresses in
          match device_list with
          | [] => Err (ValueError "No devices available for tensor allocation")
          | _ =>
              let sorted_tensors := sorted_by_size tensors in
              st <- foldM (place_tensor device_list) sorted_tensors
                      ([], 0%nat, device_addresses) ;;
              let '(tensor_addresses, _, _) := st in
              Ok tensor_addresses
          end
      end
  end.

Fixpoint _get_pe_sram_bytes_in (pes : list ProcessingElement)
  (name : string) : result Z :=
  match pes with
  | [] => Ok DEFAULT_SRAM_BYTES
  | p :: r =>
      if String.eqb (pe_name p) name then
        let sram :=
          match pe_config p with
          | Some c => sram_bytes c
          | None => None
          end in
        match sram with
        | Some (yaml_str s) => int_of py_int_base0 (remove "_" s)
        | Some (yaml_int z) => Ok z
        | None => _get_pe_sram_bytes_in r name
        end
      else _get_pe_sram_bytes_in r name
  end.

Definition _get_pe_sram_bytes (platform_config : PlatformConfig)
  (name : string) : result Z :=
  _get_pe_sram_bytes_in (processing_elements platform_config) name.

(** Body of the loop over [enumerate(onnx_node.input)]; the state is
    [(nodes, load_node_ids)]. *)
Definition emit_load (tensors : dict TensorInfo) (tensor_addresses : dict Z)
  (name pe_name : string) (sram : Z)
  (st : list TimetableNode * list string) (ix : nat * string)
  : result (list TimetableNode * list string) :=
  let '(nodes, load_node_ids) := st in
  let '(input_index, input_name) := ix in
  if is_empty input_name then Ok st
  else
    let load_id := (name ++ "_load_" ++ str input_index)%string in
    addr <- dict_lookup tensor_addresses input_name ;;
    info <- dict_lookup tensors input_name ;;
    let size_bytes := info_size_bytes info in
    load_ops <- _split_memory_op load_id "load" pe_name addr size_bytes sram ;;
    Ok (nodes ++ load_ops, load_node_ids ++ map id load_ops).

(** Body of the loop that computes [max_num_ops] and [dtype_str]. *)
Definition scan_output (tensors : dict TensorInfo) (st : Z * string)
  (output_name : string) : result (Z * string) :=
  let '(max_num_ops, dtype_str) := st in
  if is_empty output_name then Ok st
  else
    num_ops <- _calculate_num_ops tensors output_name ;;
    let max_num_ops := Z.max max_num_ops num_ops in
    match dict_get tensors output_name with
    | Some info => Ok (max_num_ops, _dtype_to_string (info_dtype info))
    | None => Ok (max_num_ops, dtype_str)
    end.

Definition data_edge (from to : string) : TimetableEdge :=
  {| edge_from := from; edge_to := to; edge_kind := "data" |}.

(** Body of the loop over [enumerate(onnx_node.output)]; the state is
    [(nodes, edges)]. *)
Definition emit_store (tensors : dict TensorInfo) (tensor_addresses : dict Z)
  (name pe_name : string) (sram : Z) (compute_id : string)
  (st : list TimetableNode * list TimetableEdge) (ix : nat * string)
  : result (list TimetableNode * list TimetableEdge) :=
  let '(nodes, edges) := st in
  let '(output_index, output_name) := ix in
  if is_empty output_name then Ok st
  else
    let store_id := (name ++ "_store_" ++ str output_index)%string in
    addr <- dict_lookup tensor_addresses output_name ;;
    info <- dict_lookup tensors output_name ;;
    let size_bytes := info_size_bytes info in
    store_ops <-
      _split_memory_op store_id "store" pe_name addr size_bytes sram ;;
    Ok (nodes ++ store_ops,
        fold_left
          (fun edges store_op => edges ++ [data_edge compute_id (id store_op)])
          store_ops edges).

(** Body of the loop over [enumerate(graph.node)]; the state is
    [(current_pe_index, nodes, edges)]. *)
Definition lower_node (platform_config : PlatformConfig)
  (tensors : dict TensorInfo) (tensor_addresses : dict Z)
  (pe_names : list string)
  (st : nat * list TimetableNode * list TimetableEdge)
  (ix : nat * NodeProto)
  : result (nat * list TimetableNode * list TimetableEdge) :=
  let '(current_pe_index, nodes, edges) := st in
  let '(onnx_node_index, onnx_node) := ix in
  if is_empty (node_name onnx_node) then
    Err (ValueError
           ("Node at index " ++ str onnx_node_index ++ " is missing a name"))
  else
    let name := node_name onnx_node in
    match nth_error pe_names current_pe_index with
    | None => Err IndexError
    | Some pe_name =>
        let current_pe_index :=
          ((current_pe_index + 1) mod List.length pe_names)%nat in
        sram <- _get_pe_sram_bytes platform_config pe_name ;;
        loaded <-
          foldM (emit_load tensors tensor_addresses name pe_name sram)
            (enumerate (node_input onnx_node)) (nodes, []) ;;
        let '(nodes, load_node_ids) := loaded in
        let compute_id := (name ++ "_compute")%string in
        let gwr_op := _map_onnx_op_to_gwr_op (node_op_type onnx_node) in
        scanned <-
          foldM (scan_output tensors) (node_output onnx_node) (1, "fp32") ;;
        let '(max_num_ops, dtype_str) := scanned in
        let nodes :=
          nodes ++ [ {| id := compute_id;
                        kind := "compute";
                        op := gwr_op;
                        pe := pe_name;
                        config := ComputeConfig dtype_str max_num_ops |} ] in
        let edges :=
          fold_left
            (fun edges load_id => edges ++ [data_edge load_id compute_id])
            load_node_ids edges in
        stored <-
          foldM
            (emit_store tensors tensor_addresses name pe_name sram compute_id)
            (enumerate (node_output onnx_node)) (nodes, edges) ;;
        let '(nodes, edges) := stored in
        Ok (current_pe_index, nodes, edges)
    end.

Definition onnx_to_gwr_timetable (graph : GraphProto)
  (platform_config : PlatformConfig) : result Timetable :=
  let tensors := _collect_tensors graph in
  tensor_addresses <- _layout_tensors tensors platform_config ;;
  let pes := processing_elements platform_config in
  match pes with
  | [] =>
      Err (ValueError
             "No processing elements found in platform configuration")
  | _ =>
      let pe_names := map pe_name pes in
      st <- foldM
              (lower_node platform_config tensors tensor_addresses pe_names)
              (enumerate (graph_node graph)) (0%nat, [], []) ;;
      let '(_, nodes, edges) := st in
      Ok {| nodes := nodes; edges := edges |}
  end.

End Conversion.

Unset Implicit Arguments.

(** * Specification vocabulary *)

(** A record as the resolver writes it: a known shape, and the byte size of
    that shape and element type. *)
Definition resolved (t : TensorInfo) : Prop :=
  exists shape,
    t = (Some shape, info_dtype t, _get_tensor_size_bytes shape (info_dtype t)).

(** What the three loops keep true of [tensors]. *)
Definition well_resolved (tensors : dict TensorInfo) : Prop :=
  NoDup (dict_keys tensors) /\ Forall resolved (map snd tensors).

(** The names a graph refers to: the declared lists, the initializers, and
    the inputs and outputs of its nodes. *)
Definition declared_names (g : GraphProto) : list string :=
  map vi_name (graph_value_info g ++ graph_input g ++ graph_output g).

Definition initializer_names (g : GraphProto) : list string :=
  map init_name (graph_initializer g).

Definition node_tensor_names (g : GraphProto) : list string :=
  flat_map (fun node => node_input node ++ node_output node) (graph_node g).

Definition referenced (g : GraphProto) (name : string) : Prop :=
  In name (declared_names g) \/ In name (initializer_names g)
  \/ In name (node_tensor_names g).

Definition chunk_bytes (o : TimetableNode) : Z :=
  match config o with
  | MemoryConfig _ num_bytes => num_bytes
  | ComputeConfig _ _ => 0
  end.

Definition sum_Z (l : list Z) : Z := fold_right Z.add 0 l.

(** [ops] is the split of a transfer of [total] bytes at [base_addr] for a
    capacity [capacity]: their number [n] is the ceiling of
    [total / capacity], the least [n] with [total <= n * capacity]; chunk [i]
    starts at [base_addr + i * capacity] and carries
    [min capacity (total - i * capacity)] bytes, at least one and at most
    [capacity]; the sizes add up to [total]; a lone chunk is named [base_id]
    and each of several has the suffix [_chunk_i]. *)
Definition chunking (ops : list TimetableNode) (base_id op_type pe_name : string)
  (base_addr total capacity : Z) : Prop :=
  let n := Z.of_nat (List.length ops) in
  ((n - 1) * capacity < total <= n * capacity)
  /\ (forall (i : nat) (o : TimetableNode),
         nth_error ops i = Some o ->
         o = {| id := if n =? 1 then base_id
                      else (base_id ++ "_chunk_" ++ str i)%string;
                kind := "memory";
                op := op_type;
                pe := pe_name;
                config :=
                  MemoryConfig (base_addr + Z.of_nat i * capacity)
                    (Z.min capacity (total - Z.of_nat i * capacity)) |}
         /\ 1 <= chunk_bytes o <= capacity)
  /\ sum_Z (map chunk_bytes ops) = total.

Definition size_of (x : string * TensorInfo) : Z := info_size_bytes (snd x).

(** [a] may stand before [b] in descending order of size. *)
Definition size_ge (a b : string * TensorInfo) : Prop := size_of b <= size_of a.

Definition has_size (s : Z) (x : string * TensorInfo) : bool := size_of x =? s.

Fixpoint set_nth {A : Type} (l : list A) (i : nat) (v : A) : list A :=
  match l, i with
  | [], _ => []
  | _ :: r, O => v :: r
  | x :: r, S j => x :: set_nth r j v
  end.

(** The allocation loop on the list of device cursors: the addresses handed
    out for tensors of the sizes [sizes], starting with device [i]. *)
Fixpoint round_robin (sizes : list Z) (cursors : list Z) (i : nat) : list Z :=
  match sizes with
  | [] => []
  | s :: r =>
      let addr := nth i cursors 0 in
      addr :: round_robin r (set_nth cursors i (addr + aligned_size s))
                ((i + 1) mod List.length cursors)%nat
  end.

(** [tensor_addresses] after assigning the addresses [addrs] to [names]. *)
Definition assign_all (names : list string) (addrs : list Z) (t : dict Z)
  : dict Z :=
  fold_left (fun t na => dict_set t (fst na) (snd na)) (combine names addrs) t.

(** The device a range names, [hbm0] by default. *)
Definition device_name (r : RangeInfo) : string :=
  match range_device r with
  | Some d => d
  | None => "hbm0"
  end.

(** The chunks [_split_memory_op] returns when the capacity is not zero. *)
Definition chunks (base_id op_type pe_name : string)
  (base_addr total capacity : Z) : list TimetableNode :=
  map
    (fun i : nat =>
       {| id := chunk_id_of base_id ((total + capacity - 1) / capacity) i;
          kind := "memory";
          op := op_type;
          pe := pe_name;
          config :=
            MemoryConfig (base_addr + Z.of_nat i * capacity)
              (Z.min capacity (total - Z.of_nat i * capacity)) |})
    (seq 0 (Z.to_nat ((total + capacity - 1) / capacity))).

Definition address_of (tensor_addresses : dict Z) (x : string) : Z :=
  match dict_get tensor_addresses x with
  | Some a => a
  | None => 0
  end.

Definition size_bytes_of (tensors : dict TensorInfo) (x : string) : Z :=
  match dict_get tensors x with
  | Some info => info_size_bytes info
  | None => 0
  end.

(** The resolved element count of a tensor. *)
Definition element_count (tensors : dict TensorInfo) (x : string) : Z :=
  match dict_get tensors x with
  | Some (Some shape, _, _) => _get_tensor_num_elements shape
  | _ => 0
  end.

(** The resolved dtype string of a tensor. *)
Definition dtype_string_of (tensors : dict TensorInfo) (x : string) : string :=
  match dict_get tensors x with
  | Some info => _dtype_to_string (info_dtype info)
  | None => "fp32"
  end.

Definition non_empty (x : string) : bool := negb (is_empty x).

(** The chunk of the slot [ix = (index, tensor_name)] of an operation:
    nothing for an empty slot; [mid] is [_load_] or [_store_]. *)
Definition slot_transfer (mid op_type : string) (tensors : dict TensorInfo)
  (tensor_addresses : dict Z) (name pe_name : string) (capacity : Z)
  (ix : nat * string) : list TimetableNode :=
  if is_empty (snd ix) then []
  else
    chunks (name ++ mid ++ str (fst ix)) op_type pe_name
      (address_of tensor_addresses (snd ix)) (size_bytes_of tensors (snd ix))
      capacity.

Definition transfers (mid op_type : string) (tensors : dict TensorInfo)
  (tensor_addresses : dict Z) (name pe_name : string) (capacity : Z)
  (slots : list (nat * string)) : list TimetableNode :=
  flat_map
    (slot_transfer mid op_type tensors tensor_addresses name pe_name capacity)
    slots.

(** The largest element count of the non-empty outputs, and 1 at least. *)
Definition num_ops_of (tensors : dict TensorInfo) (outputs : list string) : Z :=
  fold_right Z.max 1 (map (element_count tensors) (filter non_empty outputs)).

(** The dtype string of the last non-empty output, [fp32] without one. *)
Definition dtype_of (tensors : dict TensorInfo) (outputs : list string)
  : string :=
  last (map (dtype_string_of tensors) (filter non_empty outputs)) "fp32".

Definition compute_record (tensors : dict TensorInfo) (pe_name : string)
  (node : NodeProto) : TimetableNode :=
  {| id := node_name node ++ "_compute";
     kind := "compute";
     op := _map_onnx_op_to_gwr_op (node_op_type node);
     pe := pe_name;
     config :=
       ComputeConfig (dtype_of tensors (node_output node))
         (num_ops_of tensors (node_output node)) |}.

(** The records of one operation: its load chunks, its compute record and
    its store chunks. *)
Record Lowered : Type := {
  loads : list TimetableNode;
  compute : TimetableNode;
  stores : list TimetableNode
}.

Definition lowered_nodes (l : Lowered) : list TimetableNode :=
  loads l ++ [compute l] ++ stores l.

Definition lowered_edges (l : Lowered) : list TimetableEdge :=
  map (fun o => data_edge (id o) (id (compute l))) (loads l)
  ++ map (fun o => data_edge (id (compute l)) (id o)) (stores l).

Definition lowered (tensors : dict TensorInfo) (tensor_addresses : dict Z)
  (pe_name : string) (capacity : Z) (node : NodeProto) : Lowered :=
  {| loads :=
       transfers "_load_" "load" tensors tensor_addresses (node_name node)
         pe_name capacity (enumerate (node_input node));
     compute := compute_record tensors pe_name node;
     stores :=
       transfers "_store_" "store" tensors tensor_addresses (node_name node)
         pe_name capacity (enumerate (node_output node)) |}.

(** Every non-empty name of [names] has a resolved record and an address. *)
Definition covered (tensors : dict TensorInfo) (tensor_addresses : dict Z)
  (names : list string) : Prop :=
  forall x, In x names -> x <> "" ->
    (exists info, dict_get tensors x = Some info /\ resolved info)
    /\ (exists a, dict_get tensor_addresses x = Some a).

Definition enumerate_from {A : Type} (s : nat) (l : list A) : list (nat * A) :=
  combine (seq s (List.length l)) l.

(** The index of the first operation without a name, counting from [k]. *)
Fixpoint first_unnamed (k : nat) (nds : list NodeProto) : option nat :=
  match nds with
  | [] => None
  | nd :: r =>
      if is_empty (node_name nd) then Some k else first_unnamed (S k) r
  end.

Definition missing_name (index : nat) : error :=
  ValueError ("Node at index " ++ str index ++ " is missing a name").

(** The walk over the operations, for a platform, a tensor table, the
    addresses and the names of the processing elements. *)
Section BuilderTerms.
Variable py_int_base0 : string -> option Z.
Variable platform_config : PlatformConfig.
Variable tensors : dict TensorInfo.
Variable tensor_addresses : dict Z.
Variable pe_names : list string.

(** The element under the cursor [c], and its capacity. *)
Definition pe_at (c : nat) : string := nth c pe_names "".

Definition capacity_of (pe_name : string) : Z :=
match _get_pe_sram_bytes py_int_base0 platform_config pe_name with
| Ok capacity => capacity
| Err _ => 0
end.

Definition next_pe (c : nat) : nat := ((c + 1) mod List.length pe_names)%nat.

(** What the operations [nds] lower to when the cursor starts at [c]. *)
Fixpoint walk (c : nat) (nds : list NodeProto) : list Lowered :=
match nds with
| [] => []
| nd :: r =>
    lowered tensors tensor_addresses (pe_at c) (capacity_of (pe_at c)) nd
    :: walk (next_pe c) r
end.

Definition all_covered (nds : list NodeProto) : Prop :=
forall nd, In nd nds ->
  covered tensors tensor_addresses (node_input nd ++ node_output nd).

(** Every element has a capacity that is read without error and is not
  zero. *)
Definition capacities_usable : Prop :=
forall c, (c < List.length pe_names)%nat ->
  exists capacity,
    _get_pe_sram_bytes py_int_base0 platform_config (pe_at c) = Ok capacity
    /\ capacity <> 0.

End BuilderTerms.

(** The part a record plays in its operation, which its id spells out after
    the name of the operation. *)
Inductive Role : Type :=
| RCompute
| RLoad (index : nat) (chunk : option nat)
| RStore (index : nat) (chunk : option nat).

Definition role_suffix (r : Role) : string :=
  match r with
  | RCompute => "_compute"
  | RLoad i None => "_load_" ++ str i
  | RLoad i (Some j) => "_load_" ++ str i ++ "_chunk_" ++ str j
  | RStore i None => "_store_" ++ str i
  | RStore i (Some j) => "_store_" ++ str i ++ "_chunk_" ++ str j
  end.

Definition render (name : string) (r : Role) : string :=
  (name ++ role_suffix r)%string.

Definition chars (s : string) : list ascii := list_ascii_of_string s.

Definition is_digit (c : ascii) : bool :=
  match c with
  | "0" | "1" | "2" | "3" | "4" | "5" | "6" | "7" | "8" | "9" => true
  | _ => false
  end%char.

(** [l] without the prefix [p], when it starts with it. *)
Fixpoint strip (p l : list ascii) : option (list ascii) :=
  match p, l with
  | [], _ => Some l
  | c :: p', d :: l' => if Ascii.eqb c d then strip p' l' else None
  | _ :: _, [] => None
  end.

(** The longest prefix of digits, and what follows it. *)
Fixpoint span_digits (l : list ascii) : list ascii * list ascii :=
  match l with
  | c :: r =>
      if is_digit c
      then let (ds, rest) := span_digits r in (c :: ds, rest)
      else ([], l)
  | [] => ([], [])
  end.

(** A role with its numbers still written in reversed decimal digits. *)
Inductive RawRole : Type :=
| RawCompute
| RawLoad (index : list ascii) (chunk : option (list ascii))
| RawStore (index : list ascii) (chunk : option (list ascii)).

Definition rdigits (n : nat) : list ascii := rev (chars (str n)).

Definition raw (r : Role) : RawRole :=
  match r with
  | RCompute => RawCompute
  | RLoad i j => RawLoad (rdigits i) (option_map rdigits j)
  | RStore i j => RawStore (rdigits i) (option_map rdigits j)
  end.

Definition rsuffix (s : string) : list ascii := rev (chars s).

(** Reading an id from its end: the role, and the name that is left. *)
Definition decode (l : list ascii) : option (RawRole * list ascii) :=
  match strip (rsuffix "_compute") l with
  | Some rest => Some (RawCompute, rest)
  | None =>
      let (d1, r1) := span_digits l in
      match strip (rsuffix "_load_") r1 with
      | Some rest => Some (RawLoad d1 None, rest)
      | None =>
          match strip (rsuffix "_store_") r1 with
          | Some rest => Some (RawStore d1 None, rest)
          | None =>
              match strip (rsuffix "_chunk_") r1 with
              | Some r2 =>
                  let (d2, r3) := span_digits r2 in
                  match strip (rsuffix "_load_") r3 with
                  | Some rest => Some (RawLoad d2 (Some d1), rest)
                  | None =>
                      match strip (rsuffix "_store_") r3 with
                      | Some rest => Some (RawStore d2 (Some d1), rest)
                      | None => None
                      end
                  end
              | None => None
              end
          end
      end
  end.

Definition chunk_roles (mk : option nat -> Role) (total capacity : Z)
  : list Role :=
  map (fun j : nat =>
         mk (if (total + capacity - 1) / capacity =? 1 then None else Some j))
    (seq 0 (Z.to_nat ((total + capacity - 1) / capacity))).

Definition slot_roles (mk : nat -> option nat -> Role)
  (tensors : dict TensorInfo) (capacity : Z) (slots : list (nat * string))
  : list Role :=
  flat_map
    (fun ix =>
       if is_empty (snd ix) then []
       else chunk_roles (mk (fst ix)) (size_bytes_of tensors (snd ix)) capacity)
    slots.

Definition op_roles (tensors : dict TensorInfo) (capacity : Z)
  (node : NodeProto) : list Role :=
  slot_roles RLoad tensors capacity (enumerate (node_input node))
  ++ [RCompute]
  ++ slot_roles RStore tensors capacity (enumerate (node_output node)).

(** The names of the processing elements, in the order of the platform. *)
Definition pe_names_of (p : PlatformConfig) : list string :=
  map pe_name (processing_elements p).

(** What the operations of [g] lower to, given the addresses [addrs]. *)
Definition lowering (py_int_base0 : string -> option Z) (g : GraphProto)
  (p : PlatformConfig) (addrs : dict Z) : list Lowered :=
  walk py_int_base0 p (_collect_tensors g) addrs (pe_names_of p) 0
    (graph_node g).

Definition is_compute (o : TimetableNode) : bool := String.eqb (kind o) "compute".

(** The cursor after [k] operations: it starts at 0 and each operation
    moves it by [(c + 1) % K]. *)
Definition cursor_after (K k : nat) : nat :=
  Nat.iter k (fun c => ((c + 1) mod K)%nat) 0%nat.

(** [ops] are the transfers of the slots [slots] of an operation, each
    named after the position of its slot in the full list: every record
    comes from a non-empty slot [i] and carries [i] in its id; every chunk
    of a non-empty slot is there; and no record carries the position of an
    empty slot. *)
Definition positional (mid op_type : string) (tensors : dict TensorInfo)
  (addrs : dict Z) (name pe_name : string) (capacity : Z)
  (slots : list string) (ops : list TimetableNode) : Prop :=
  (forall o, In o ops ->
     exists i x,
       nth_error slots i = Some x /\ x <> ""
       /\ In o (chunks (name ++ mid ++ str i) op_type pe_name
                  (address_of addrs x) (size_bytes_of tensors x) capacity)
       /\ (id o = (name ++ mid ++ str i)%string
           \/ exists j,
               id o = (name ++ mid ++ str i ++ "_chunk_" ++ str j)%string))
  /\ (forall i x o,
        nth_error slots i = Some x -> x <> "" ->
        In o (chunks (name ++ mid ++ str i) op_type pe_name
                (address_of addrs x) (size_bytes_of tensors x) capacity) ->
        In o ops)
  /\ (forall i o,
        nth_error slots i = Some "" -> In o ops ->
        id o <> (name ++ mid ++ str i)%string
        /\ forall j,
            id o <> (name ++ mid ++ str i ++ "_chunk_" ++ str j)%string).

(** ** Vocabulary of the further properties *)

(** [l] without the later occurrences of a name: the order in which a
    dictionary meets its keys. *)
Definition first_occurrences (l : list string) : list string :=
  rev (nodup string_dec (rev l)).

(** The record the loop over the initializers stores for [init]. *)
Definition initializer_record (init : InitializerProto) : TensorInfo :=
  let shape :=
    match init_dims init with
    | Some dims => shape_of_dims dims
    | None => [Some 1]
    end in
  let dtype :=
    match init_data_type init with
    | Some dt => dt
    | None => TensorProto.FLOAT
    end in
  (Some shape, dtype, _get_tensor_size_bytes shape dtype).

(** The record the loop over the declared lists stores for [vi] when no
    initializer has its name. *)
Definition declared_record (vi : ValueInfoProto) : TensorInfo :=
  let shape :=
    match _shape_from_type_proto (vi_type vi) with
    | Some s => s
    | None => [Some 1]
    end in
  let dtype :=
    match _dtype_from_type_proto (vi_type vi) with
    | Some dt => dt
    | None => TensorProto.FLOAT
    end in
  (Some shape, dtype, _get_tensor_size_bytes shape dtype).

(** The record of a tensor that only the nodes mention. *)
Definition placeholder_record : TensorInfo :=
  (Some [Some 1], TensorProto.FLOAT, 4).

(** A key goes last when it is new. *)
Definition add_key (keys : list string) (k : string) : list string :=
  if in_dec string_dec k keys then keys else keys ++ [k].

(** The base address a range gives, ["0x0"] by default. *)
Definition range_base (r : RangeInfo) : YamlScalar :=
  match range_base_address r with
  | Some b => b
  | None => yaml_str "0x0"
  end.

(** The capacity an element declares: [pe.get("config", {}).get("sram_bytes")]. *)
Definition declared_sram (q : ProcessingElement) : option YamlScalar :=
  match pe_config q with
  | Some c => sram_bytes c
  | None => None
  end.

(** How [_get_pe_sram_bytes] reads a declared capacity. *)
Definition read_capacity (py_int_base0 : string -> option Z) (v : YamlScalar)
  : result Z :=
  match v with
  | yaml_str s => int_of py_int_base0 (remove "_" s)
  | yaml_int z => Ok z
  end.

(** The address and the end of a memory record. *)
Definition chunk_addr (o : TimetableNode) : Z :=
  match config o with
  | MemoryConfig addr _ => addr
  | ComputeConfig _ _ => 0
  end.

Definition chunk_end (o : TimetableNode) : Z := chunk_addr o + chunk_bytes o.

(** An operation that names a tensor: it has a non-empty input or output. *)
Definition moves_data (nd : NodeProto) : bool :=
  existsb non_empty (node_input nd ++ node_output nd).

(** * The fabric generator

    The definitions below follow [gwr-platform/scripts/gen_fabric.py].  The
    command-line arguments are integers of any sign ([type=int]), so they are
    in [Z]; [//] and [%] are the floor division and the modulo of [Z]. *)

(** The arguments read by the functions modelled here. *)
Record Args : Type := {
  num_columns : Z;
  num_rows : Z;
  num_hbms : Z;
  hbm_base : Z;
  hbm_size : Z;
  l1_kib : Z;
  l1_bytes_per_cycle : Z;
  l1_num_ways : Z;
  l1_latency : Z;
  l2_kib : Z;
  l2_bytes_per_cycle : Z;
  l2_num_ways : Z;
  l2_latency : Z
}.

(** [range(start, stop)] *)
Definition py_range (start stop : Z) : list Z :=
  map (fun k : nat => start + Z.of_nat k) (seq 0 (Z.to_nat (stop - start))).

(** [f"{z}"] and [f"{z:x}"] for an integer. *)
Definition py_str (z : Z) : string := NilZero.string_of_int (Z.to_int z).

Definition format_x (z : Z) : string :=
  HexadecimalString.NilZero.string_of_int (Z.to_hex_int z).

(** A loop over the values of a generator whose [__next__] may raise. *)
Fixpoint mapM {A B : Type} (f : A -> result B) (l : list A) : result (list B) :=
  match l with
  | [] => Ok []
  | a :: r => b <- f a ;; bs <- mapM f r ;; Ok (b :: bs)
  end.

(** [(id // num_rows, id % num_rows)] *)
Definition grid_cell (rows id : Z) : result (Z * Z) :=
  if rows =? 0 then Err ZeroDivisionError
  else Ok (id / rows, id mod rows).

(** The pairs the generator [PeIdGen] yields, in order. *)
Definition PeIdGen (args : Args) : result (list (Z * Z)) :=
  let max_pe_id := num_columns args * num_rows args - num_hbms args in
  mapM (grid_cell (num_rows args)) (py_range 0 max_pe_id).

(** The pairs the generator [HbmIdGen] yields, in order. *)
Definition HbmIdGen (args : Args) : result (list (Z * Z)) :=
  let max_mem_id := num_columns args * num_rows args in
  let mem_id := num_columns args * num_rows args - num_hbms args in
  mapM (grid_cell (num_rows args)) (py_range mem_id max_mem_id).

Definition create_name (prefix : string) (column row : Z) : string :=
  (prefix ++ "_" ++ py_str column ++ "_" ++ py_str row)%string.

Definition FABRIC_NAME : string := "fabric0".

Definition LINE_SIZE_BYTES : Z := 32.

Record Cache : Type := {
  cache_name : string;
  bw_bytes_per_cycle : Z;
  line_size_bytes : Z;
  num_ways : Z;
  num_sets : Z;
  cache_delay_ticks : Z
}.

Definition build_cache (name : string) (kib bytes_per_cycle ways latency : Z)
  : result Cache :=
  if ways =? 0 then Err ZeroDivisionError
  else
    let sets := (kib * 1024) / ways / LINE_SIZE_BYTES in
    Ok {| cache_name := name;
          bw_bytes_per_cycle := bytes_per_cycle;
          line_size_bytes := LINE_SIZE_BYTES;
          num_ways := ways;
          num_sets := sets;
          cache_delay_ticks := latency |}.

(** Body of the loop of [build_caches]. *)
Definition add_caches (args : Args) (caches : list Cache) (cell : Z * Z)
  : result (list Cache) :=
  let '(column, row) := cell in
  caches <-
    (if l1_kib args =? 0 then Ok caches
     else
       l1 <- build_cache (create_name "l1" column row) (l1_kib args)
               (l1_bytes_per_cycle args) (l1_num_ways args) (l1_latency args) ;;
       Ok (caches ++ [l1])) ;;
  if l2_kib args =? 0 then Ok caches
  else
    l2 <- build_cache (create_name "l2" column row) (l2_kib args)
            (l2_bytes_per_cycle args) (l2_num_ways args) (l2_latency args) ;;
    Ok (caches ++ [l2]).

(** [None] is the value of the bare [return]. *)
Definition build_caches (args : Args) : result (option (list Cache)) :=
  if (l1_kib args =? 0) && (l2_kib args =? 0) then Ok None
  else
    cells <- PeIdGen args ;;
    caches <- foldM (add_caches args) cells [] ;;
    Ok (Some caches).

Record Memory : Type := {
  mem_name : string;
  mem_kind : string;
  mem_base_address : string;
  mem_capacity_bytes : string;
  mem_delay_ticks : Z
}.

Definition build_memories (args : Args) : list Memory :=
  let size := hbm_size args in
  snd (fold_left
         (fun (st : Z * list Memory) (i : Z) =>
            let '(base, memories) := st in
            let mem :=
              {| mem_name := ("hbm" ++ py_str i)%string;
                 mem_kind := "hbm";
                 mem_base_address := ("0x" ++ format_x base)%string;
                 mem_capacity_bytes := ("0x" ++ format_x size)%string;
                 mem_delay_ticks := 10 |} in
            (base + size, memories ++ [mem]))
         (py_range 0 (num_hbms args)) (hbm_base args, [])).

Record MemoryRange : Type := {
  mr_base_address : string;
  mr_size_bytes : string;
  mr_device : string
}.

Definition build_memory_maps (args : Args) : list MemoryRange :=
  let size := hbm_size args in
  snd (fold_left
         (fun (st : Z * list MemoryRange) (mm : Z) =>
            let '(base, ranges) := st in
            let memory_map :=
              {| mr_base_address := ("0x" ++ format_x base)%string;
                 mr_size_bytes := ("0x" ++ format_x size)%string;
                 mr_device := ("hbm" ++ py_str mm)%string |} in
            (base + size, ranges ++ [memory_map]))
         (py_range 0 (num_hbms args)) (hbm_base args, [])).

(** The port of the fabric at a cell. *)
Definition fabric_port (column row : Z) : string :=
  ("fabric." ++ FABRIC_NAME ++ "@(" ++ py_str column ++ "," ++ py_str row
   ++ ")")%string.

(** [connect = [a, b]] *)
Definition Connection : Type := (string * string)%type.

(** The chain of entities from a processing element to the fabric. *)
Definition pe_chain (args : Args) (column row : Z) : list string :=
  let entities := [("pe." ++ create_name "pe" column row)%string] in
  let entities :=
    if l1_kib args =? 0 then entities
    else entities ++ [("cache." ++ create_name "l1" column row)%string] in
  let entities :=
    if l2_kib args =? 0 then entities
    else entities ++ [("cache." ++ create_name "l2" column row)%string] in
  entities ++ [fabric_port column row].

(** [[entities[i], entities[i+1]] for i in range(len(entities) - 1)] *)
Definition chain_links (entities : list string) : list Connection :=
  map (fun i : nat => (nth i entities "", nth (i + 1) entities ""))
    (seq 0 (List.length entities - 1)).

Definition build_connections (args : Args) : result (list Connection) :=
  pe_cells <- PeIdGen args ;;
  let connections :=
    fold_left
      (fun connections (cell : Z * Z) =>
         let '(column, row) := cell in
         connections ++ chain_links (pe_chain args column row))
      pe_cells [] in
  hbm_cells <- HbmIdGen args ;;
  Ok (fold_left
        (fun connections (ic : nat * (Z * Z)) =>
           let '(i, (column, row)) := ic in
           connections
           ++ [(("mem.hbm" ++ py_str (Z.of_nat i))%string, fabric_port column row)])
        (enumerate hbm_cells) connections).

Record FabricPe (R C : Type) : Type := {
  fpe_name : string;
  fpe_memory_map : R;
  fpe_config : C
}.

Definition build_processing_elements (R C : Type) (args : Args) (ranges : R)
  (pe_config : C) : result (list (FabricPe R C)) :=
  cells <- PeIdGen args ;;
  Ok (map
        (fun cell : Z * Z =>
           let '(column, row) := cell in
           {| fpe_name := create_name "pe" column row;
              fpe_memory_map := ranges;
              fpe_config := pe_config |})
        cells).

(** The cells of a grid, column by column. *)
Definition grid (columns rows : Z) : list (Z * Z) :=
  flat_map (fun column => map (fun row => (column, row)) (py_range 0 rows))
    (py_range 0 columns).

(** A connection that ends at a port of the fabric. *)
Definition to_fabric (c : Connection) : bool := String.prefix "fabric." (snd c).

(** The names of the caches of a cell, L1 before L2. *)
Definition cell_caches (args : Args) (column row : Z) : list string :=
  (if l1_kib args =? 0 then [] else [create_name "l1" column row])
  ++ (if l2_kib args =? 0 then [] else [create_name "l2" column row]).

(** * Examples *)

(** A stand-in for the built-in [int] on strings: the platforms of the
    examples give their addresses and capacities as YAML integers, so no
    literal is ever parsed. *)
Definition no_literal : string -> option Z := fun _ => None.

Definition tensor_of (shape : list Dimension) (elem_type : Z)
  : option TypeProto :=
  Some {| tensor_type :=
            Some {| tt_shape := Some shape; tt_elem_type := Some elem_type |} |}.

(** One device at [0x1000], one processing element of 64 bytes. *)
Definition platform_one_pe : PlatformConfig :=
  {| memory_maps :=
       [ {| mm_ranges :=
              [ {| range_device := Some "hbm0";
                   range_base_address := Some (yaml_int 4096) |} ] |} ];
     processing_elements :=
       [ {| pe_name := "pe0";
            pe_config := Some {| sram_bytes := Some (yaml_int 64) |} |} ] |}.

(** [y = Add(_, x)] on twelve fp32 elements of 48 bytes; the first input
    slot is unused. *)
Definition graph_add0 : GraphProto :=
  {| graph_value_info := [];
     graph_input :=
       [ {| vi_name := "x";
            vi_type := tensor_of [dim_value 12] TensorProto.FLOAT |} ];
     graph_output :=
       [ {| vi_name := "y";
            vi_type := tensor_of [dim_value 12] TensorProto.FLOAT |} ];
     graph_initializer := [];
     graph_node :=
       [ {| node_name := "add0"; node_op_type := "Add";
            node_input := [""; "x"]; node_output := ["y"] |} ] |}.

Definition timetable_add0 : Timetable :=
  Eval vm_compute in
    match onnx_to_gwr_timetable no_literal no_literal graph_add0
            platform_one_pe with
    | Ok t => t
    | Err _ => {| nodes := []; edges := [] |}
    end.

(** Two operations with the same name. *)
Definition graph_duplicate_names : GraphProto :=
  {| graph_value_info := [];
     graph_input := [];
     graph_output := [];
     graph_initializer := [];
     graph_node :=
       [ {| node_name := "a"; node_op_type := "Add";
            node_input := ["x"]; node_output := ["y"] |};
         {| node_name := "a"; node_op_type := "Relu";
            node_input := ["y"]; node_output := ["z"] |} ] |}.

(** A named operation followed by one without a name. *)
Definition graph_unnamed : GraphProto :=
  {| graph_value_info := [];
     graph_input := [];
     graph_output := [];
     graph_initializer := [];
     graph_node :=
       [ {| node_name := "add0"; node_op_type := "Add";
            node_input := ["x"]; node_output := ["y"] |};
         {| node_name := ""; node_op_type := "Relu";
            node_input := ["y"]; node_output := ["z"] |} ] |}.

(** A weight [W] declared as a graph input of type [float[N, 4]], [N]
    symbolic, and given as an initializer of dimensions [2, 4]. *)
Definition graph_declared_initializer : GraphProto :=
  {| graph_value_info := [];
     graph_input :=
       [ {| vi_name := "W";
            vi_type := tensor_of [dim_param "N"; dim_value 4]
                         TensorProto.FLOAT |} ];
     graph_output := [];
     graph_initializer :=
       [ {| init_name := "W"; init_dims := Some [2; 4];
            init_data_type := Some TensorProto.FLOAT |} ];
     graph_node := [] |}.

(** The platform of one device whose processing element has no room. *)
Definition platform_zero_capacity : PlatformConfig :=
  {| memory_maps := memory_maps platform_one_pe;
     processing_elements :=
       [ {| pe_name := "pe0";
            pe_config := Some {| sram_bytes := Some (yaml_int 0) |} |} ] |}.

(** The defaults of [parse_args]: a grid of 2 by 2 with two memories of one
    gibibyte and no cache. *)
Definition args_default : Args :=
  {| num_columns := 2;
     num_rows := 2;
     num_hbms := 2;
     hbm_base := 1024 * 1024 * 1024;
     hbm_size := 1024 * 1024 * 1024;
     l1_kib := 0;
     l1_bytes_per_cycle := 32;
     l1_num_ways := 4;
     l1_latency := 5;
     l2_kib := 0;
     l2_bytes_per_cycle := 32;
     l2_num_ways := 8;
     l2_latency := 20 |}.

(** The same grid with an L1 cache of 32 KiB at each processing element. *)
Definition args_l1 : Args :=
  {| num_columns := 2;
     num_rows := 2;
     num_hbms := 2;
     hbm_base := 1024 * 1024 * 1024;
     hbm_size := 1024 * 1024 * 1024;
     l1_kib := 32;
     l1_bytes_per_cycle := 32;
     l1_num_ways := 4;
     l1_latency := 5;
     l2_kib := 0;
     l2_bytes_per_cycle := 32;
     l2_num_ways := 8;
     l2_latency := 20 |}.

(** Two operations whose names overlap: the second is named like the first
    load of the first. *)
Definition graph_overlapping_names : GraphProto :=
  {| graph_value_info := [];
     graph_input := [];
     graph_output := [];
     graph_initializer := [];
     graph_node :=
       [ {| node_name := "a"; node_op_type := "Add";
            node_input := ["x"]; node_output := ["y"] |};
         {| node_name := "a_load_0"; node_op_type := "Relu";
            node_input := ["y"]; node_output := ["z"] |} ] |}.

Definition timetable_overlapping_names : Timetable :=
  Eval vm_compute in
    match onnx_to_gwr_timetable no_literal no_literal graph_overlapping_names
            platform_one_pe with
    | Ok t => t
    | Err _ => {| nodes := []; edges := [] |}
    end.

(** The platform of one device whose processing element declares a
    negative capacity. *)
Definition platform_negative_capacity : PlatformConfig :=
  {| memory_maps := memory_maps platform_one_pe;
     processing_elements :=
       [ {| pe_name := "pe0";
            pe_config := Some {| sram_bytes := Some (yaml_int (-4)) |} |} ] |}.

(** * Properties *)

(** ** Dictionaries *)

Section DictFacts.
Variable V : Type.
Implicit Types (d : dict V) (k : string) (v : V).

Lemma dict_get_set_same d k v : dict_get (dict_set d k v) k = Some v.
Proof.
  induction d as [|[k' v'] r IH]; simpl.
  - now rewrite String.eqb_refl.
  - destruct (String.eqb k k') eqn:E; simpl; rewrite E; auto.
Qed.

Lemma dict_get_set_other d k k' v :
  k' <> k -> dict_get (dict_set d k v) k' = dict_get d k'.
Proof.
  intros Hne. induction d as [|[k0 v0] r IH]; simpl.
  - apply String.eqb_neq in Hne. now rewrite Hne.
  - destruct (String.eqb k k0) eqn:E; simpl.
    + apply String.eqb_eq in E. subst k0.
      apply String.eqb_neq in Hne. now rewrite Hne.
    + now rewrite IH.
Qed.

Lemma dict_get_in_keys d k : dict_get d k <> None <-> In k (dict_keys d).
Proof.
  induction d as [|[k' v'] r IH]; simpl.
  - split; [congruence | tauto].
  - destruct (String.eqb k k') eqn:E.
    + apply String.eqb_eq in E. subst. split; [auto | congruence].
    + apply String.eqb_neq in E. rewrite IH. split; [auto | intros [H|H]; congruence].
Qed.

Lemma dict_mem_in_keys d k : dict_mem d k = true <-> In k (dict_keys d).
Proof.
  unfold dict_mem. rewrite <- dict_get_in_keys.
  destruct (dict_get d k); split; congruence.
Qed.

Lemma dict_get_some_in d k v : dict_get d k = Some v -> In (k, v) d.
Proof.
  induction d as [|[k' v'] r IH]; simpl; [congruence|].
  destruct (String.eqb k k') eqn:E.
  - apply String.eqb_eq in E. intros [= <-]. subst. now left.
  - auto.
Qed.

Lemma dict_get_nodup d k v :
  NoDup (dict_keys d) -> In (k, v) d -> dict_get d k = Some v.
Proof.
  induction d as [|[k' v'] r IH]; simpl; [tauto|].
  intros Hnd [H|H].
  - injection H as -> ->. now rewrite String.eqb_refl.
  - inversion Hnd as [|? ? Hnotin Hnd']; subst.
    destruct (String.eqb k k') eqn:E.
    + apply String.eqb_eq in E. subst. exfalso. apply Hnotin.
      change (In (fst (k', v)) (map fst r)). now apply in_map.
    + auto.
Qed.

(** The keys after an assignment: unchanged for a key already there, one
    more at the end otherwise. *)
Lemma dict_keys_set d k v :
  dict_keys (dict_set d k v)
  = if dict_mem d k then dict_keys d else dict_keys d ++ [k].
Proof.
  unfold dict_mem. induction d as [|[k' v'] r IH]; simpl; [reflexivity|].
  destruct (String.eqb k k') eqn:E; simpl; [reflexivity|].
  rewrite IH. now destruct (dict_get r k).
Qed.

Lemma dict_keys_set_in d k v k' :
  In k' (dict_keys (dict_set d k v)) <-> k' = k \/ In k' (dict_keys d).
Proof.
  rewrite dict_keys_set. destruct (dict_mem d k) eqn:E.
  - apply dict_mem_in_keys in E. split; [auto | intros [->|H]; auto].
  - rewrite in_app_iff. simpl. intuition congruence.
Qed.

Lemma dict_set_nodup d k v :
  NoDup (dict_keys d) -> NoDup (dict_keys (dict_set d k v)).
Proof.
  intros Hnd. rewrite dict_keys_set. destruct (dict_mem d k) eqn:E; [assumption|].
  apply NoDup_app; [assumption | repeat constructor; simpl; tauto |].
  intros x Hx [<-|[]]. apply dict_mem_in_keys in Hx. congruence.
Qed.

Lemma dict_set_forall (P : V -> Prop) d k v :
  P v -> Forall P (map snd d) -> Forall P (map snd (dict_set d k v)).
Proof.
  intros Hv. induction d as [|[k' v'] r IH]; simpl; intros H.
  - now repeat constructor.
  - inversion H; subst. destruct (String.eqb k k'); simpl; constructor; auto.
Qed.

Lemma dict_get_forall (P : V -> Prop) d k v :
  Forall P (map snd d) -> dict_get d k = Some v -> P v.
Proof.
  intros H Hg. apply dict_get_some_in in Hg.
  rewrite Forall_forall in H. apply H.
  change v with (snd (k, v)). now apply in_map.
Qed.
End DictFacts.

(** ** Loops *)

Lemma foldM_app (S A : Type) (f : S -> A -> result S) (l1 l2 : list A) (s : S) :
  foldM f (l1 ++ l2) s = (s' <- foldM f l1 s ;; foldM f l2 s').
Proof.
  revert s. induction l1 as [|a r IH]; intros s; simpl; [reflexivity|].
  destruct (f s a); simpl; auto.
Qed.

Lemma fold_left_snoc (A B : Type) (g : B -> A) (l : list B) (acc : list A) :
  fold_left (fun acc x => acc ++ [g x]) l acc = acc ++ map g l.
Proof.
  revert acc. induction l as [|x r IH]; intros acc; simpl.
  - now rewrite app_nil_r.
  - rewrite IH, <- app_assoc. reflexivity.
Qed.

(** ** The tensor metadata resolver *)

Lemma num_elements_from (shape : Shape) (acc : Z) :
  1 <= acc ->
  1 <= fold_left
         (fun num_elements dim =>
            match dim with
            | None => num_elements * 1
            | Some d => if d <=? 0 then num_elements * 1 else num_elements * d
            end)
         shape acc.
Proof.
  revert acc. induction shape as [|dim r IH]; intros acc Hacc; simpl; [assumption|].
  apply IH. destruct dim as [d|]; [|lia].
  destruct (Z.leb_spec d 0); nia.
Qed.

Lemma num_elements_pos (shape : Shape) : 1 <= _get_tensor_num_elements shape.
Proof. apply num_elements_from. lia. Qed.

Lemma dtype_size_pos (dtype : Z) : 1 <= _DTYPE_SIZES_get dtype.
Proof.
  unfold _DTYPE_SIZES_get.
  repeat match goal with |- context [if ?b then _ else _] => destruct b end; lia.
Qed.

Lemma size_bytes_pos (shape : Shape) (dtype : Z) :
  1 <= _get_tensor_size_bytes shape dtype.
Proof.
  unfold _get_tensor_size_bytes.
  pose proof (num_elements_pos shape). pose proof (dtype_size_pos dtype). nia.
Qed.

Lemma resolved_size (t : TensorInfo) : resolved t -> 1 <= info_size_bytes t.
Proof.
  intros [shape ->]. unfold info_size_bytes. simpl. apply size_bytes_pos.
Qed.

Lemma resolved_intro (shape : Shape) (dtype : Z) :
  resolved (Some shape, dtype, _get_tensor_size_bytes shape dtype).
Proof. now exists shape. Qed.

Lemma well_resolved_set tensors k shape dtype :
  well_resolved tensors ->
  well_resolved
    (dict_set tensors k (Some shape, dtype, _get_tensor_size_bytes shape dtype)).
Proof.
  intros [Hnd Hall]. split.
  - now apply dict_set_nodup.
  - apply dict_set_forall; [apply resolved_intro | assumption].
Qed.

Lemma collect_declared_spec m tensors vi :
  exists shape dtype,
    collect_declared m tensors vi
    = dict_set tensors (vi_name vi)
        (Some shape, dtype, _get_tensor_size_bytes shape dtype).
Proof. unfold collect_declared. eauto. Qed.

Lemma collect_initializer_spec tensors init :
  exists shape dtype,
    collect_initializer tensors init
    = dict_set tensors (init_name init)
        (Some shape, dtype, _get_tensor_size_bytes shape dtype).
Proof. unfold collect_initializer. eauto. Qed.

Lemma collect_referenced_spec tensors name :
  collect_referenced tensors name = tensors
  \/ exists shape dtype,
      collect_referenced tensors name
      = dict_set tensors name
          (Some shape, dtype, _get_tensor_size_bytes shape dtype).
Proof.
  unfold collect_referenced.
  destruct (is_empty name); [now left|].
  destruct (dict_mem tensors name); [now left|]. right. eauto.
Qed.

(** An invariant of a loop passes from its body to the whole loop. *)
Lemma fold_left_invariant (A B : Type) (P : B -> Prop) (f : B -> A -> B)
  (l : list A) (b : B) :
  (forall b a, P b -> P (f b a)) -> P b -> P (fold_left f l b).
Proof.
  intros Hstep. revert b. induction l as [|a r IH]; intros b Hb; simpl; auto.
Qed.

(** A loop whose body never drops a key and always leaves the key of the
    item it handles (when [Q] holds of the item) leaves the key of every
    such item. *)
Lemma fold_left_adds_keys (A V : Type) (Q : A -> Prop) (key : A -> string)
  (f : dict V -> A -> dict V) :
  (forall d a k, In k (dict_keys d) -> In k (dict_keys (f d a))) ->
  (forall d a, Q a -> In (key a) (dict_keys (f d a))) ->
  forall l d,
    (forall k, In k (dict_keys d) -> In k (dict_keys (fold_left f l d)))
    /\ (forall a, In a l -> Q a -> In (key a) (dict_keys (fold_left f l d))).
Proof.
  intros Hmono Hadd. induction l as [|x r IH]; intros d; simpl.
  - split; [auto | tauto].
  - destruct (IH (f d x)) as [IH1 IH2]. split.
    + intros k Hk. apply IH1, Hmono, Hk.
    + intros a [<-|Ha] Hq; [apply IH1, Hadd, Hq | now apply IH2].
Qed.

Lemma collect_declared_keys m d vi k :
  In k (dict_keys (collect_declared m d vi)) <-> k = vi_name vi \/ In k (dict_keys d).
Proof.
  destruct (collect_declared_spec m d vi) as (s & t & ->). apply dict_keys_set_in.
Qed.

Lemma collect_initializer_keys d init k :
  In k (dict_keys (collect_initializer d init))
  <-> k = init_name init \/ In k (dict_keys d).
Proof.
  destruct (collect_initializer_spec d init) as (s & t & ->). apply dict_keys_set_in.
Qed.

Lemma collect_referenced_mono d name k :
  In k (dict_keys d) -> In k (dict_keys (collect_referenced d name)).
Proof.
  destruct (collect_referenced_spec d name) as [->|(s & t & ->)]; [auto|].
  intros H. apply dict_keys_set_in. now right.
Qed.

Lemma collect_referenced_adds d name :
  name <> "" -> In name (dict_keys (collect_referenced d name)).
Proof.
  intros Hne. unfold collect_referenced.
  destruct name as [|c r]; [congruence|]. simpl.
  destruct (dict_mem d (String c r)) eqn:E.
  - now apply dict_mem_in_keys.
  - apply dict_keys_set_in. now left.
Qed.

Lemma collect_node_keys (names : list string) d :
  (forall k, In k (dict_keys d) ->
             In k (dict_keys (fold_left collect_referenced names d)))
  /\ (forall name, In name names -> name <> "" ->
                   In name (dict_keys (fold_left collect_referenced names d))).
Proof.
  apply (fold_left_adds_keys _ _ (fun name => name <> "") (fun name => name)).
  - intros. now apply collect_referenced_mono.
  - intros. now apply collect_referenced_adds.
Qed.

Lemma collect_tensors_well_resolved (g : GraphProto) :
  well_resolved (_collect_tensors g).
Proof.
  unfold _collect_tensors.
  apply fold_left_invariant.
  { intros d node Hd. apply fold_left_invariant; [|assumption].
    intros d' name Hd'.
    destruct (collect_referenced_spec d' name) as [->|(s & t & ->)];
      [assumption | now apply well_resolved_set]. }
  apply fold_left_invariant.
  { intros d init Hd.
    destruct (collect_initializer_spec d init) as (s & t & ->).
    now apply well_resolved_set. }
  apply fold_left_invariant.
  { intros d vi Hd.
    destruct (collect_declared_spec (initializer_map_of (graph_initializer g)) d vi)
      as (s & t & ->).
    now apply well_resolved_set. }
  split; simpl; constructor.
Qed.

Lemma collect_tensors_covers (g : GraphProto) (name : string) :
  name <> "" -> referenced g name -> In name (dict_keys (_collect_tensors g)).
Proof.
  intros Hne Href. unfold _collect_tensors.
  set (m := initializer_map_of (graph_initializer g)).
  set (d1 := fold_left (collect_declared m) _ []).
  set (d2 := fold_left collect_initializer _ d1).
  assert (Hnodes : forall d,
    (forall k, In k (dict_keys d) ->
       In k (dict_keys (fold_left (fun tensors node =>
          fold_left collect_referenced (node_input node ++ node_output node) tensors)
          (graph_node g) d)))
    /\ (forall node, In node (graph_node g) ->
          In name (node_input node ++ node_output node) ->
          In name (dict_keys (fold_left (fun tensors node =>
            fold_left collect_referenced (node_input node ++ node_output node) tensors)
            (graph_node g) d)))).
  { intros d.
    apply (fold_left_adds_keys _ _
             (fun node => In name (node_input node ++ node_output node))
             (fun _ => name)).
    - intros d' node k Hk.
      now apply (proj1 (collect_node_keys (node_input node ++ node_output node) d')).
    - intros d' node Hin.
      now apply (proj2 (collect_node_keys (node_input node ++ node_output node) d')). }
  destruct Href as [Hd | [Hi | Hn]].
  - apply Hnodes.
    apply (fold_left_adds_keys _ _ (fun _ => True) init_name collect_initializer);
      [intros; apply collect_initializer_keys; now right
      | intros; apply collect_initializer_keys; now left |].
    unfold declared_names in Hd. apply in_map_iff in Hd. destruct Hd as (vi & <- & Hvi).
    apply (fold_left_adds_keys _ _ (fun _ => True) vi_name (collect_declared m));
      [intros; apply collect_declared_keys; now right
      | intros; apply collect_declared_keys; now left | assumption | exact I].
  - apply Hnodes.
    unfold initializer_names in Hi. apply in_map_iff in Hi.
    destruct Hi as (init & <- & Hinit).
    apply (fold_left_adds_keys _ _ (fun _ => True) init_name collect_initializer);
      [intros; apply collect_initializer_keys; now right
      | intros; apply collect_initializer_keys; now left | assumption | exact I].
  - unfold node_tensor_names in Hn. apply in_flat_map in Hn.
    destruct Hn as (node & Hnode & Hin). now apply (Hnodes d2) with (node := node).
Qed.

(** Every referenced name has a record, and the record is resolved. *)
Lemma collect_tensors_lookup (g : GraphProto) (name : string) :
  name <> "" -> referenced g name ->
  exists info, dict_get (_collect_tensors g) name = Some info /\ resolved info.
Proof.
  intros Hne Href.
  pose proof (collect_tensors_covers g name Hne Href) as Hin.
  apply dict_get_in_keys in Hin.
  destruct (dict_get (_collect_tensors g) name) as [info|] eqn:E; [|congruence].
  exists info. split; [reflexivity|].
  destruct (collect_tensors_well_resolved g) as [_ Hall].
  exact (dict_get_forall _ _ _ _ _ Hall E).
Qed.

(** ** Chunking of a transfer *)

Lemma nth_error_map_seq (A : Type) (f : nat -> A) (n i : nat) (a : A) :
  nth_error (map f (seq 0 n)) i = Some a -> (i < n)%nat /\ a = f i.
Proof.
  intros H. rewrite nth_error_map in H.
  destruct (nth_error (seq 0 n) i) as [j|] eqn:E; [|discriminate].
  injection H as <-.
  assert (Hi : (i < n)%nat).
  { assert (Hlen : nth_error (seq 0 n) i <> None) by congruence.
    apply nth_error_Some in Hlen. now rewrite length_seq in Hlen. }
  split; [assumption|].
  rewrite nth_error_nth' with (d := 0%nat) in E by now rewrite length_seq.
  rewrite seq_nth in E by assumption. injection E as <-. reflexivity.
Qed.

Lemma sum_Z_app (l1 l2 : list Z) : sum_Z (l1 ++ l2) = sum_Z l1 + sum_Z l2.
Proof.
  unfold sum_Z. induction l1 as [|x r IH]; simpl; [reflexivity|].
  rewrite IH. lia.
Qed.

(** While whole chunks still fit, each carries the full capacity. *)
Lemma sum_full_chunks (total capacity : Z) (m : nat) :
  0 <= capacity -> Z.of_nat m * capacity <= total ->
  sum_Z (map (fun i : nat => Z.min capacity (total - Z.of_nat i * capacity))
           (seq 0 m))
  = Z.of_nat m * capacity.
Proof.
  intros Hc. induction m as [|m IH]; intros Hm; [reflexivity|].
  rewrite Nat2Z.inj_succ in *.
  assert (Hm' : Z.of_nat m * capacity <= total) by nia.
  rewrite seq_S, map_app, sum_Z_app. simpl.
  rewrite IH by assumption. unfold sum_Z. simpl. nia.
Qed.

Lemma ceil_div_bounds (total capacity : Z) :
  1 <= total -> 1 <= capacity ->
  let q := (total + capacity - 1) / capacity in
  1 <= q /\ (q - 1) * capacity < total <= q * capacity.
Proof.
  intros Ht Hc q.
  pose proof (Z.div_mod (total + capacity - 1) capacity ltac:(lia)) as Hdm.
  pose proof (Z.mod_pos_bound (total + capacity - 1) capacity ltac:(lia)) as Hr.
  fold q in Hdm. nia.
Qed.

Lemma split_memory_op_chunking (base_id op_type pe_name : string)
  (base_addr total capacity : Z) :
  1 <= total -> 1 <= capacity ->
  exists ops,
    _split_memory_op base_id op_type pe_name base_addr total capacity = Ok ops
    /\ chunking ops base_id op_type pe_name base_addr total capacity.
Proof.
  intros Ht Hc. unfold _split_memory_op.
  destruct (Z.eqb_spec capacity 0) as [->|_]; [lia|].
  destruct (ceil_div_bounds _ _ Ht Hc) as (Hq1 & Hlo & Hhi).
  set (q := (total + capacity - 1) / capacity) in *. clearbody q.
  eexists. split; [reflexivity|].
  unfold chunking. rewrite length_map, length_seq, Z2Nat.id by lia.
  split; [lia|]. split.
  - intros i o Hnth. apply nth_error_map_seq in Hnth. destruct Hnth as [Hi ->].
    unfold chunk_id_of, chunk_bytes. simpl. split; [reflexivity|].
    assert (Hle : Z.of_nat i <= q - 1) by lia.
    assert (Z.of_nat i * capacity <= (q - 1) * capacity)
      by (apply Z.mul_le_mono_nonneg_r; lia).
    lia.
  - rewrite map_map. unfold chunk_bytes. simpl.
    replace (Z.to_nat q) with (S (Z.to_nat (q - 1))) by lia.
    assert (Hm : Z.of_nat (Z.to_nat (q - 1)) = q - 1) by lia.
    rewrite seq_S, map_app, sum_Z_app. simpl.
    rewrite sum_full_chunks; rewrite ?Hm; unfold sum_Z; simpl; lia.
Qed.

Lemma is_empty_false (s : string) : is_empty s = false <-> s <> "".
Proof. destruct s; simpl; split; congruence. Qed.

Lemma is_empty_true (s : string) : is_empty s = true <-> s = "".
Proof. destruct s; simpl; split; congruence. Qed.

(** C3. A tensor of [S >= 1] bytes moved by an operation whose processing
    element has capacity [C >= 1] is loaded (and stored) in [ceil(S/C)]
    chunks; chunk [i] has [min(C, S - i*C)] bytes at [tensor_base + i*C];
    the sizes add up to [S] and none exceeds [C]; a single chunk keeps the id
    [<op>_load_<index>] (resp. [<op>_store_<index>]) and several chunks each
    get the suffix [_chunk_<i>]. *)
Theorem transfer_chunks (tensors : dict TensorInfo) (tensor_addresses : dict Z)
  (name pe_name compute_id tensor_name : string) (capacity : Z) (index : nat)
  (info : TensorInfo) (addr : Z) :
  tensor_name <> "" ->
  dict_get tensor_addresses tensor_name = Some addr ->
  dict_get tensors tensor_name = Some info ->
  1 <= info_size_bytes info ->
  1 <= capacity ->
  exists loads stores,
    (forall nodes ids,
        emit_load tensors tensor_addresses name pe_name capacity
          (nodes, ids) (index, tensor_name)
        = Ok (nodes ++ loads, ids ++ map id loads))
    /\ chunking loads (name ++ "_load_" ++ str index) "load" pe_name
         addr (info_size_bytes info) capacity
    /\ (forall nodes edges,
          emit_store tensors tensor_addresses name pe_name capacity compute_id
            (nodes, edges) (index, tensor_name)
          = Ok (nodes ++ stores,
                edges ++ map (fun o => data_edge compute_id (id o)) stores))
    /\ chunking stores (name ++ "_store_" ++ str index) "store" pe_name
         addr (info_size_bytes info) capacity.
Proof.
  intros Hne Haddr Hinfo Hsize Hcap.
  destruct (split_memory_op_chunking (name ++ "_load_" ++ str index) "load"
              pe_name addr _ _ Hsize Hcap) as (loads & Hl & Hlc).
  destruct (split_memory_op_chunking (name ++ "_store_" ++ str index) "store"
              pe_name addr _ _ Hsize Hcap) as (stores & Hs & Hsc).
  apply is_empty_false in Hne.
  exists loads, stores. split; [|split; [exact Hlc|split; [|exact Hsc]]].
  - intros nodes ids. unfold emit_load, dict_lookup.
    rewrite Hne, Haddr, Hinfo. cbn [bind]. rewrite Hl. reflexivity.
  - intros nodes edges. unfold emit_store, dict_lookup.
    rewrite Hne, Haddr, Hinfo. cbn [bind]. rewrite Hs. cbn [bind].
    now rewrite fold_left_snoc.
Qed.

(** ** Sorting by size *)

Lemma insert_by_size_perm x l : Permutation (x :: l) (insert_by_size x l).
Proof.
  induction l as [|y r IH]; simpl; [reflexivity|].
  destruct (info_size_bytes (snd x) <? info_size_bytes (snd y)); [|reflexivity].
  rewrite perm_swap. now constructor.
Qed.

Lemma sorted_by_size_perm l : Permutation l (sorted_by_size l).
Proof.
  induction l as [|x r IH]; simpl; [reflexivity|].
  rewrite <- insert_by_size_perm. now constructor.
Qed.

Lemma insert_by_size_sorted x l :
  StronglySorted size_ge l -> StronglySorted size_ge (insert_by_size x l).
Proof.
  induction l as [|y r IH]; intros Hs; simpl.
  - repeat constructor.
  - inversion Hs as [|? ? Hr Hy]; subst.
    destruct (Z.ltb_spec (info_size_bytes (snd x)) (info_size_bytes (snd y)))
      as [Hlt|Hge].
    + constructor; [auto|].
      rewrite <- insert_by_size_perm. constructor; [|assumption].
      unfold size_ge, size_of. lia.
    + constructor; [assumption|]. constructor.
      * unfold size_ge, size_of. lia.
      * rewrite Forall_forall in *. intros z Hz. specialize (Hy z Hz).
        unfold size_ge, size_of in *. lia.
Qed.

Lemma sorted_by_size_sorted l : StronglySorted size_ge (sorted_by_size l).
Proof.
  induction l as [|x r IH]; simpl; [constructor|]. now apply insert_by_size_sorted.
Qed.

(** Stability: the items of one size keep their order. *)
Lemma insert_by_size_stable s x l :
  filter (has_size s) (insert_by_size x l) = filter (has_size s) (x :: l).
Proof.
  induction l as [|y r IH]; [reflexivity|].
  cbn [insert_by_size].
  destruct (Z.ltb_spec (info_size_bytes (snd x)) (info_size_bytes (snd y))) as [Hlt|Hge];
    [|reflexivity].
  cbn [filter] in *. rewrite IH. unfold has_size, size_of.
  destruct (Z.eqb_spec (info_size_bytes (snd x)) s),
           (Z.eqb_spec (info_size_bytes (snd y)) s); try reflexivity; lia.
Qed.

Lemma sorted_by_size_stable s l :
  filter (has_size s) (sorted_by_size l) = filter (has_size s) l.
Proof.
  induction l as [|x r IH]; [reflexivity|].
  cbn [sorted_by_size]. rewrite insert_by_size_stable. cbn [filter]. now rewrite IH.
Qed.

(** ** Lists updated in place *)

Lemma length_set_nth (A : Type) (l : list A) i v :
  List.length (set_nth l i v) = List.length l.
Proof.
  revert i. induction l as [|x r IH]; intros [|j]; simpl; auto.
Qed.

Lemma nth_set_nth_same (A : Type) (l : list A) i v d :
  (i < List.length l)%nat -> nth i (set_nth l i v) d = v.
Proof.
  revert i. induction l as [|x r IH]; intros [|j] H; simpl in *; try lia; auto.
  apply IH. lia.
Qed.

Lemma nth_set_nth_other (A : Type) (l : list A) i j v d :
  i <> j -> nth j (set_nth l i v) d = nth j l d.
Proof.
  revert i j. induction l as [|x r IH]; intros [|i] [|j] H; simpl; auto; try congruence.
Qed.

(** A dictionary seen as the list of its values: reading and writing the
    key at position [i]. *)
Lemma dict_get_nth (V : Type) (d : dict V) (i : nat) (k : string) (dflt : V) :
  NoDup (dict_keys d) -> nth_error (dict_keys d) i = Some k ->
  dict_get d k = Some (nth i (map snd d) dflt).
Proof.
  revert i.
  induction d as [|[k' v'] r IH]; intros [|i] Hnd H; simpl in *;
    try discriminate.
  - injection H as ->. now rewrite String.eqb_refl.
  - inversion Hnd as [|? ? Hnotin Hnd']; subst.
    destruct (String.eqb_spec k k') as [->|Hne].
    + exfalso. apply Hnotin. eapply nth_error_In, H.
    + now apply IH.
Qed.

Lemma dict_set_nth (V : Type) (d : dict V) (i : nat) (k : string) (v : V) :
  NoDup (dict_keys d) -> nth_error (dict_keys d) i = Some k ->
  dict_keys (dict_set d k v) = dict_keys d
  /\ map snd (dict_set d k v) = set_nth (map snd d) i v.
Proof.
  revert i.
  induction d as [|[k' v'] r IH]; intros [|i] Hnd H; simpl in *;
    try discriminate.
  - injection H as ->. now rewrite String.eqb_refl.
  - inversion Hnd as [|? ? Hnotin Hnd']; subst.
    destruct (String.eqb_spec k k') as [->|Hne].
    + exfalso. apply Hnotin. eapply nth_error_In, H.
    + simpl. destruct (IH i Hnd' H) as [-> ->]. auto.
Qed.

(** ** The device memory allocator *)

Lemma length_round_robin sizes cursors i :
  List.length (round_robin sizes cursors i) = List.length sizes.
Proof.
  revert cursors i. induction sizes as [|s r IH]; intros; simpl; auto.
Qed.

Lemma place_loop (items : list (string * TensorInfo)) :
  forall (ta : dict Z) (i : nat) (da : dict Z),
    NoDup (dict_keys da) -> (i < List.length da)%nat ->
    exists i' da',
      foldM (place_tensor (dict_keys da)) items (ta, i, da)
      = Ok (assign_all (map fst items)
              (round_robin (map size_of items) (map snd da) i) ta, i', da').
Proof.
  induction items as [|[name [[sh dt] size]] r IH]; intros ta i da Hnd Hi.
  - exists i, da. reflexivity.
  - cbn [foldM place_tensor].
    assert (Hlen : List.length (dict_keys da) = List.length da)
      by apply length_map.
    destruct (nth_error (dict_keys da) i) as [device|] eqn:Hdev.
    2: { apply nth_error_None in Hdev. lia. }
    unfold dict_lookup.
    rewrite (dict_get_nth _ da i device 0 Hnd Hdev). cbn [bind].
    set (addr := nth i (map snd da) 0).
    destruct (dict_set_nth _ da i device (addr + aligned_size size) Hnd Hdev) as [Hk Hv].
    set (da1 := dict_set da device (addr + aligned_size size)) in *.
    assert (Hnd1 : NoDup (dict_keys da1)) by now rewrite Hk.
    assert (Hi1 : ((i + 1) mod List.length (dict_keys da) < List.length da1)%nat).
    { rewrite <- (length_map fst da1). fold (dict_keys da1). rewrite Hk.
      apply Nat.mod_upper_bound. lia. }
    destruct (IH (dict_set ta name addr) _ da1 Hnd1 Hi1) as (i' & da' & Hrun).
    rewrite Hk in Hrun. exists i', da'. rewrite Hrun. f_equal. f_equal. f_equal.
    cbn [map round_robin assign_all combine fold_left fst snd size_of info_size_bytes].
    unfold assign_all. rewrite Hv, length_map, Hlen. reflexivity.
Qed.

Lemma mod_succ_add (i k D : nat) :
  (((i + 1) mod D + k) mod D = (i + S k) mod D)%nat.
Proof.
  rewrite Nat.Div0.add_mod_idemp_l. f_equal. lia.
Qed.

Lemma mod_shift_neq (i k D : nat) :
  (i < D -> 0 < k -> k < D -> (i + k) mod D <> i)%nat.
Proof.
  intros Hi Hk HkD.
  destruct (Nat.lt_ge_cases (i + k) D) as [Hlt|Hge].
  - rewrite Nat.mod_small by assumption. lia.
  - replace (i + k)%nat with ((i + k - D) + 1 * D)%nat by lia.
    rewrite Nat.Div0.mod_add, Nat.mod_small by lia. lia.
Qed.

Lemma mod_full_turn (i D : nat) :
  (i < D -> ((i + 1) mod D + (D - 1)) mod D = i)%nat.
Proof.
  intros Hi. rewrite mod_succ_add.
  replace (i + S (D - 1))%nat with (i + 1 * D)%nat by lia.
  rewrite Nat.Div0.mod_add. now apply Nat.mod_small.
Qed.

(** In the first turn, tensor [k] gets the cursor of device [i + k] as it
    was at the start. *)
Lemma round_robin_first_turn (sizes : list Z) :
  forall (cursors : list Z) (i k : nat),
    (i < List.length cursors)%nat -> (k < List.length cursors)%nat ->
    (k < List.length sizes)%nat ->
    nth k (round_robin sizes cursors i) 0
    = nth ((i + k) mod List.length cursors) cursors 0.
Proof.
  induction sizes as [|s r IH]; intros cursors i k Hi Hk Hks; simpl in Hks; [lia|].
  cbn [round_robin]. destruct k as [|k].
  - simpl. rewrite Nat.add_0_r, Nat.mod_small by assumption. reflexivity.
  - cbn [nth]. set (D := List.length cursors) in *.
    rewrite IH; rewrite ?length_set_nth; fold D; try lia;
      [|apply Nat.mod_upper_bound; lia].
    rewrite mod_succ_add. apply nth_set_nth_other.
    intros Heq. symmetry in Heq. revert Heq. apply mod_shift_neq; lia.
Qed.

(** One turn later the same device is served again: its cursor moved by the
    aligned size of the tensor placed before. *)
Lemma round_robin_next_turn (sizes : list Z) :
  forall (cursors : list Z) (i k : nat),
    (i < List.length cursors)%nat ->
    (k + List.length cursors < List.length sizes)%nat ->
    nth (k + List.length cursors) (round_robin sizes cursors i) 0
    = nth k (round_robin sizes cursors i) 0 + aligned_size (nth k sizes 0).
Proof.
  induction sizes as [|s r IH]; intros cursors i k Hi Hk; simpl in Hk; [lia|].
  cbn [round_robin]. set (D := List.length cursors) in *.
  set (addr := nth i cursors 0).
  set (cursors1 := set_nth cursors i (addr + aligned_size s)).
  assert (HD1 : List.length cursors1 = D) by apply length_set_nth.
  assert (Hi1 : ((i + 1) mod D < List.length cursors1)%nat)
    by (rewrite HD1; apply Nat.mod_upper_bound; lia).
  destruct k as [|k].
  - replace (0 + D)%nat with (S (D - 1)) by lia. cbn [nth].
    rewrite round_robin_first_turn; rewrite ?HD1; try lia.
    rewrite mod_full_turn by assumption.
    unfold cursors1. now rewrite nth_set_nth_same.
  - replace (S k + D)%nat with (S (k + D)) by lia. cbn [nth].
    rewrite <- HD1. apply IH; rewrite ?HD1; [apply Nat.mod_upper_bound|]; lia.
Qed.

Lemma aligned_size_bounds (s : Z) :
  s <= aligned_size s < s + 64 /\ (64 | aligned_size s).
Proof.
  unfold aligned_size.
  pose proof (Z.div_mod (s + 63) 64 ltac:(lia)) as Hdm.
  pose proof (Z.mod_pos_bound (s + 63) 64 ltac:(lia)) as Hr.
  split; [lia|]. exists ((s + 63) / 64). reflexivity.
Qed.

Lemma same_residue_turns (j k D : nat) :
  (j < k -> j mod D = k mod D -> exists m, 1 <= m /\ k = j + m * D)%nat.
Proof.
  intros Hjk Hmod.
  pose proof (Nat.div_mod_eq j D) as Hj. pose proof (Nat.div_mod_eq k D) as Hk.
  exists (k / D - j / D)%nat.
  assert (j / D < k / D)%nat by nia. nia.
Qed.

(** Along the turns of one device the addresses grow by at least the size
    of the tensor placed before. *)
Lemma round_robin_no_overlap (sizes cursors : list Z) (i j m : nat) :
  Forall (fun s => 1 <= s) sizes ->
  (i < List.length cursors)%nat -> (1 <= m)%nat ->
  (j + m * List.length cursors < List.length sizes)%nat ->
  nth j (round_robin sizes cursors i) 0 + nth j sizes 0
  <= nth (j + m * List.length cursors) (round_robin sizes cursors i) 0.
Proof.
  intros Hpos Hi Hm. set (D := List.length cursors).
  assert (Hal : forall k, (k < List.length sizes)%nat ->
                          nth k sizes 0 <= aligned_size (nth k sizes 0)
                          /\ 0 <= aligned_size (nth k sizes 0)).
  { intros k Hk. rewrite Forall_forall in Hpos.
    pose proof (Hpos _ (nth_In sizes 0 Hk)).
    pose proof (aligned_size_bounds (nth k sizes 0)). lia. }
  induction m as [|m IH]; [lia|]. intros Hlen.
  destruct m as [|m].
  - replace (j + 1 * D)%nat with (j + D)%nat by lia.
    unfold D. rewrite round_robin_next_turn by (fold D; lia).
    specialize (Hal j ltac:(lia)). lia.
  - replace (j + S (S m) * D)%nat with ((j + S m * D) + D)%nat by lia.
    unfold D at 2. rewrite round_robin_next_turn by (fold D; lia). fold D.
    specialize (IH ltac:(lia) ltac:(lia)).
    specialize (Hal (j + S m * D)%nat ltac:(lia)). lia.
Qed.

Lemma assign_all_other (names : list string) :
  forall (addrs : list Z) (t : dict Z) (k : string),
    ~ In k names -> dict_get (assign_all names addrs t) k = dict_get t k.
Proof.
  unfold assign_all.
  induction names as [|name r IH]; intros [|a addrs] t k Hk; simpl; try reflexivity.
  rewrite IH by (simpl in Hk; tauto).
  apply dict_get_set_other. simpl in Hk. intuition congruence.
Qed.

Lemma assign_all_get (names : list string) :
  forall (addrs : list Z) (t : dict Z) (i : nat) (name : string),
    NoDup names -> List.length addrs = List.length names ->
    nth_error names i = Some name ->
    dict_get (assign_all names addrs t) name = Some (nth i addrs 0).
Proof.
  induction names as [|n r IH]; intros [|a addrs] t i name Hnd Hlen Hnth;
    destruct i as [|i]; simpl in *; try discriminate.
  - injection Hnth as ->. inversion Hnd; subst.
    change (dict_get (assign_all r addrs (dict_set t name a)) name = Some a).
    rewrite assign_all_other by assumption. apply dict_get_set_same.
  - inversion Hnd; subst.
    change (dict_get (assign_all r addrs (dict_set t n a)) name
            = Some (nth i addrs 0)).
    apply IH; auto.
Qed.

Section Allocator.
Variable py_int : string -> option Z.
Variable py_int_base0 : string -> option Z.

Lemma init_device_loop (ranges : list RangeInfo) :
  forall (d0 da : dict Z),
    foldM (init_device py_int py_int_base0) ranges d0 = Ok da ->
    NoDup (dict_keys d0) ->
    NoDup (dict_keys da)
    /\ (forall d, In d (dict_keys da)
                  <-> In d (dict_keys d0)
                      \/ exists r, In r ranges /\ device_name r = d).
Proof.
  induction ranges as [|r rs IH]; intros d0 da Hrun Hnd; simpl in Hrun.
  - injection Hrun as <-. split; [assumption|].
    intros d. split; [auto | intros [H|(r & [] & _)]; assumption].
  - unfold init_device at 1 in Hrun. fold (device_name r) in Hrun.
    destruct (parse_base_address py_int py_int_base0 _) as [base|e];
      [|discriminate].
    cbn [bind] in Hrun.
    destruct (dict_mem d0 (device_name r)) eqn:Hmem; cbn [bind] in Hrun.
    + destruct (IH _ _ Hrun Hnd) as [Hnd' Hkeys]. split; [assumption|].
      intros d. rewrite Hkeys. apply dict_mem_in_keys in Hmem.
      split.
      * intros [H|(r' & Hr' & Hd)]; [now left | right; exists r'; simpl; auto].
      * intros [H|(r' & [<-|Hr'] & Hd)];
          [now left | left; now subst | right; eauto].
    + destruct (IH _ _ Hrun (dict_set_nodup _ _ _ _ Hnd)) as [Hnd' Hkeys].
      split; [assumption|].
      intros d. rewrite Hkeys, dict_keys_set_in.
      split.
      * intros [[->|H]|(r' & Hr' & Hd)];
          [right; exists r; simpl; auto | now left
          | right; exists r'; simpl; auto].
      * intros [H|(r' & [<-|Hr'] & Hd)];
          [left; now right | left; left; now subst | right; eauto].
Qed.

Lemma parse_base_address_error (b : YamlScalar) (e : error) :
  parse_base_address py_int py_int_base0 b = Err e ->
  exists literal, e = InvalidLiteral literal.
Proof.
  unfold parse_base_address, int_of. destruct b as [z|s]; [discriminate|].
  repeat match goal with
         | |- context [if ?c then _ else _] => destruct c
         | |- context [match ?f ?x with Some _ => _ | None => _ end] =>
             destruct (f x)
         end; cbn [bind]; intros H; try discriminate; injection H as <-; eauto.
Qed.

Lemma init_device_error (ranges : list RangeInfo) :
  forall d0 e,
    foldM (init_device py_int py_int_base0) ranges d0 = Err e ->
    exists literal, e = InvalidLiteral literal.
Proof.
  induction ranges as [|r rs IH]; intros d0 e H; [discriminate|].
  cbn [foldM] in H. unfold init_device at 1 in H.
  destruct (parse_base_address py_int py_int_base0 _) as [base|e'] eqn:Hp.
  - cbn [bind] in H. destruct (dict_mem d0 _); cbn [bind] in H; eauto.
  - cbn [bind] in H. injection H as <-. eapply parse_base_address_error, Hp.
Qed.

Lemma layout_error (tensors : dict TensorInfo) (p : PlatformConfig)
  (e : error) :
  _layout_tensors py_int py_int_base0 tensors p = Err e ->
  e = ValueError "No memory maps found in platform configuration"
  \/ e = ValueError "No memory ranges found in platform configuration"
  \/ exists literal, e = InvalidLiteral literal.
Proof.
  unfold _layout_tensors. intros H.
  destruct (memory_maps p) as [|mm rest]; [left; congruence|].
  destruct (mm_ranges mm) as [|r0 rs]; [right; left; congruence|].
  right. right.
  destruct (foldM (init_device py_int py_int_base0) (r0 :: rs) [])
    as [da|e'] eqn:Hinit.
  2: { cbn [bind] in H. injection H as <-. eapply init_device_error, Hinit. }
  cbn [bind] in H. exfalso.
  assert (Hnd : NoDup (dict_keys da)).
  { apply (init_device_loop _ _ _ Hinit). constructor. }
  assert (Hin : In (device_name r0) (dict_keys da)).
  { apply (init_device_loop _ _ _ Hinit); [constructor|].
    right. exists r0. split; [now left | reflexivity]. }
  destruct (dict_keys da) as [|d0 ds] eqn:Hkeys; [destruct Hin|].
  rewrite <- Hkeys in H, Hnd.
  assert (Hlen : (0 < List.length da)%nat)
    by (destruct da; [discriminate | simpl; lia]).
  destruct (place_loop (sorted_by_size tensors) [] 0%nat da Hnd Hlen)
    as (i' & da' & Hrun).
  unfold dict in *. rewrite Hrun in H. discriminate.
Qed.

Lemma layout_inv (tensors : dict TensorInfo) (p : PlatformConfig)
  (tensor_addresses : dict Z) :
  _layout_tensors py_int py_int_base0 tensors p = Ok tensor_addresses ->
  exists mm rest device_addresses,
    memory_maps p = mm :: rest
    /\ foldM (init_device py_int py_int_base0) (mm_ranges mm) []
       = Ok device_addresses
    /\ (0 < List.length device_addresses)%nat
    /\ tensor_addresses
       = assign_all (map fst (sorted_by_size tensors))
           (round_robin (map size_of (sorted_by_size tensors))
              (map snd device_addresses) 0) [].
Proof.
  unfold _layout_tensors. intros H.
  destruct (memory_maps p) as [|mm rest]; [discriminate|].
  destruct (mm_ranges mm) as [|r0 rs] eqn:Hranges; [discriminate|].
  destruct (foldM (init_device py_int py_int_base0) (r0 :: rs) [])
    as [da|e] eqn:Hinit; [|discriminate].
  cbn [bind] in H.
  destruct (dict_keys da) as [|d0 ds] eqn:Hkeys; [discriminate|].
  assert (Hlen : (0 < List.length da)%nat).
  { destruct da; [discriminate | simpl; lia]. }
  assert (Hnd : NoDup (dict_keys da)).
  { apply (init_device_loop _ _ _ Hinit). constructor. }
  rewrite <- Hkeys in H.
  destruct (place_loop (sorted_by_size tensors) [] 0%nat da Hnd Hlen)
    as (i' & da' & Hrun).
  unfold dict in *. rewrite Hrun in H. cbn [bind] in H. injection H as <-.
  exists mm, rest, da. rewrite Hranges. auto.
Qed.

Lemma nth_error_size_of (order : list (string * TensorInfo)) k x :
  nth_error order k = Some x -> nth k (map size_of order) 0 = size_of x.
Proof.
  intros H. apply (map_nth_error size_of) in H.
  now apply nth_error_nth.
Qed.

(** C4. The allocator fails only for a platform without memory maps or
    ranges, or with a base address that [int] cannot read.  Otherwise it
    walks the tensors in descending order of size, the order of insertion
    deciding between equal sizes, and serves the distinct devices in turn:
    tensor [k] of that order, placed at [placed[k]], goes to device
    [k mod D], so tensors [k] and [k + D] follow each other on one device.
    On each device the addresses handed out start at its base and do not
    decrease, the gap between one tensor and the next is a multiple of 64
    bytes and at least the size of the first, so no two tensors of a
    device overlap. *)
Theorem layout_round_robin (tensors : dict TensorInfo) (p : PlatformConfig) :
  well_resolved tensors ->
  (forall e,
      _layout_tensors py_int py_int_base0 tensors p = Err e ->
      e = ValueError "No memory maps found in platform configuration"
      \/ e = ValueError "No memory ranges found in platform configuration"
      \/ exists literal, e = InvalidLiteral literal)
  /\ forall tensor_addresses,
      _layout_tensors py_int py_int_base0 tensors p = Ok tensor_addresses ->
  exists (ranges : list RangeInfo) (device_addresses : dict Z)
         (placed : list Z),
    let device_list := dict_keys device_addresses in
    let order := sorted_by_size tensors in
    let D := List.length device_list in
    (exists mm rest, memory_maps p = mm :: rest /\ ranges = mm_ranges mm)
    /\ foldM (init_device py_int py_int_base0) ranges []
       = Ok device_addresses
    /\ (0 < D)%nat
    /\ NoDup device_list
    /\ (forall d, In d device_list
                  <-> exists r, In r ranges /\ device_name r = d)
    /\ Permutation tensors order
    /\ StronglySorted size_ge order
    /\ (forall s, filter (has_size s) order = filter (has_size s) tensors)
    /\ List.length placed = List.length order
    /\ (forall k name info,
          nth_error order k = Some (name, info) ->
          dict_get tensor_addresses name = Some (nth k placed 0))
    /\ (forall k d b,
          (k < List.length order)%nat ->
          nth_error device_addresses k = Some (d, b) ->
          nth k placed 0 = b)
    /\ (forall k x,
          nth_error order k = Some x ->
          (k + D < List.length order)%nat ->
          let gap := nth (k + D) placed 0 - nth k placed 0 in
          gap = aligned_size (size_of x)
          /\ (64 | gap)
          /\ size_of x <= gap
          /\ nth k placed 0 <= nth (k + D) placed 0)
    /\ (forall j k x,
          nth_error order j = Some x ->
          (j < k < List.length order)%nat ->
          (j mod D = k mod D)%nat ->
          nth j placed 0 + size_of x <= nth k placed 0).
Proof.
  intros [Hnd Hres]. split; [intros e He; exact (layout_error _ _ _ He)|].
  intros tensor_addresses Hlayout.
  destruct (layout_inv _ _ _ Hlayout) as (mm & rest & da & Hmm & Hinit & Hlen & ->).
  destruct (init_device_loop _ _ _ Hinit (NoDup_nil _)) as [Hnd_da Hdev].
  set (order := sorted_by_size tensors).
  set (sizes := map size_of order).
  set (cursors := map snd da).
  assert (HD : List.length (dict_keys da) = List.length cursors)
    by (unfold dict_keys, cursors; now rewrite !length_map).
  assert (HD' : List.length cursors = List.length da)
    by (unfold cursors; now rewrite length_map).
  assert (Hsizes : List.length sizes = List.length order)
    by (unfold sizes; now rewrite length_map).
  assert (Hperm : Permutation tensors order) by apply sorted_by_size_perm.
  assert (Hpos : Forall (fun s => 1 <= s) sizes).
  { unfold sizes. rewrite Forall_map. rewrite Forall_forall. intros x Hx.
    apply resolved_size. rewrite Forall_forall in Hres. apply Hres.
    apply in_map. eapply Permutation_in; [symmetry; exact Hperm | exact Hx]. }
  assert (Hal : forall k x, nth_error order k = Some x ->
                            1 <= size_of x <= aligned_size (size_of x)).
  { intros k x Hx. pose proof (aligned_size_bounds (size_of x)).
    rewrite Forall_forall in Hpos.
    assert (In (size_of x) sizes)
      by (unfold sizes; apply in_map; eapply nth_error_In, Hx).
    specialize (Hpos _ H0). lia. }
  exists (mm_ranges mm), da, (round_robin sizes cursors 0).
  cbv zeta. rewrite HD.
  split; [eauto|]. split; [assumption|]. split; [lia|].
  split; [assumption|]. split.
  { intros d. rewrite Hdev. simpl. tauto. }
  split; [assumption|]. split; [apply sorted_by_size_sorted|].
  split; [intros s; apply sorted_by_size_stable|].
  split; [now rewrite length_round_robin|]. split.
  { intros k name info Hk. apply assign_all_get.
    - apply (Permutation_NoDup (l := dict_keys tensors)); [|assumption].
      unfold dict_keys. now apply Permutation_map.
    - now rewrite length_round_robin, length_map, Hsizes.
    - now apply (map_nth_error fst) in Hk. }
  split.
  { intros k d b Hk Hnth.
    assert (Hkd : (k < List.length da)%nat)
      by (apply nth_error_Some; congruence).
    rewrite round_robin_first_turn by lia.
    rewrite Nat.add_0_l, Nat.mod_small by lia.
    unfold cursors. apply nth_error_nth. now apply (map_nth_error snd) in Hnth. }
  split.
  { intros k x Hx Hk.
    cbv zeta. rewrite round_robin_next_turn by lia.
    rewrite (nth_error_size_of order k x Hx : nth k sizes 0 = size_of x).
    pose proof (aligned_size_bounds (size_of x)) as [Hb Hdiv].
    specialize (Hal _ _ Hx).
    set (a := nth k (round_robin sizes cursors 0) 0).
    replace (a + aligned_size (size_of x) - a)
      with (aligned_size (size_of x)) by lia.
    split; [reflexivity|]. split; [assumption|]. lia. }
  intros j k x Hx Hjk Hmod.
  destruct (same_residue_turns _ _ _ (proj1 Hjk) Hmod) as (m & Hm & ->).
  rewrite <- (nth_error_size_of order j x Hx : nth j sizes 0 = size_of x).
  apply round_robin_no_overlap; try assumption; lia.
Qed.

End Allocator.

(** ** What an operation lowers to *)

Lemma split_memory_op_chunks (base_id op_type pe_name : string)
  (base_addr total capacity : Z) :
  _split_memory_op base_id op_type pe_name base_addr total capacity
  = if capacity =? 0 then Err ZeroDivisionError
    else Ok (chunks base_id op_type pe_name base_addr total capacity).
Proof. reflexivity. Qed.

Lemma covered_cons tensors addrs x names :
  covered tensors addrs (x :: names) ->
  covered tensors addrs names
  /\ (x <> "" ->
      (exists info, dict_get tensors x = Some info /\ resolved info)
      /\ (exists a, dict_get addrs x = Some a)).
Proof.
  intros H. split.
  - intros y Hy. apply H. now right.
  - apply H. now left.
Qed.

Lemma transfers_cons mid op_type tensors addrs name pe_name capacity i x r :
  transfers mid op_type tensors addrs name pe_name capacity ((i, x) :: r)
  = (if is_empty x then []
     else chunks (name ++ mid ++ str i) op_type pe_name (address_of addrs x)
            (size_bytes_of tensors x) capacity)
    ++ transfers mid op_type tensors addrs name pe_name capacity r.
Proof. reflexivity. Qed.

Section Loops.
Variables (tensors : dict TensorInfo) (tensor_addresses : dict Z).
Variables (name pe_name : string) (capacity : Z).

(** What a slot does to the loop state, for a covered tensor name. *)
Lemma slot_lookup (x : string) :
  covered tensors tensor_addresses [x] -> is_empty x = false ->
  dict_lookup tensor_addresses x = Ok (address_of tensor_addresses x)
  /\ exists info,
      dict_lookup tensors x = Ok info
      /\ info_size_bytes info = size_bytes_of tensors x.
Proof.
  intros Hc Hx. apply is_empty_false in Hx.
  destruct (Hc x (or_introl eq_refl) Hx) as [(info & Hi & _) (a & Ha)].
  unfold dict_lookup, address_of, size_bytes_of. rewrite Ha, Hi. eauto.
Qed.

Lemma emit_load_loop (l : list (nat * string)) :
  forall nodes ids,
    covered tensors tensor_addresses (map snd l) ->
    foldM (emit_load tensors tensor_addresses name pe_name capacity) l
      (nodes, ids)
    = if (capacity =? 0) && existsb (fun ix => non_empty (snd ix)) l
      then Err ZeroDivisionError
      else
        Ok (nodes
            ++ transfers "_load_" "load" tensors tensor_addresses name
                 pe_name capacity l,
            ids
            ++ map id
                 (transfers "_load_" "load" tensors tensor_addresses name
                    pe_name capacity l)).
Proof.
  induction l as [|[i x] r IH]; intros nodes ids Hc.
  - cbn. rewrite andb_false_r, !app_nil_r. reflexivity.
  - cbn [map snd] in Hc. apply covered_cons in Hc. destruct Hc as [Hr Hx].
    cbn [foldM]. unfold emit_load at 1. rewrite transfers_cons.
    cbn [existsb snd]. unfold non_empty at 1.
    destruct (is_empty x) eqn:Ex.
    + cbn [bind negb orb app]. now apply IH.
    + assert (Hcx : covered tensors tensor_addresses [x]).
      { intros y [<-|[]] Hy. now apply Hx. }
      destruct (slot_lookup x Hcx Ex) as (Ha & info & Hi & Hs).
      rewrite Ha, Hi. cbn [bind]. rewrite Hs, split_memory_op_chunks.
      cbn [negb orb]. rewrite andb_true_r.
      destruct (capacity =? 0) eqn:Ecap; [reflexivity|].
      cbn [bind]. rewrite IH by assumption. cbn [andb].
      now rewrite map_app, !app_assoc.
Qed.

Lemma emit_store_loop (compute_id : string) (l : list (nat * string)) :
  forall nodes edges,
    covered tensors tensor_addresses (map snd l) ->
    foldM
      (emit_store tensors tensor_addresses name pe_name capacity compute_id)
      l (nodes, edges)
    = if (capacity =? 0) && existsb (fun ix => non_empty (snd ix)) l
      then Err ZeroDivisionError
      else
        Ok (nodes
            ++ transfers "_store_" "store" tensors tensor_addresses name
                 pe_name capacity l,
            edges
            ++ map (fun o => data_edge compute_id (id o))
                 (transfers "_store_" "store" tensors tensor_addresses name
                    pe_name capacity l)).
Proof.
  induction l as [|[i x] r IH]; intros nodes edges Hc.
  - cbn. rewrite andb_false_r, !app_nil_r. reflexivity.
  - cbn [map snd] in Hc. apply covered_cons in Hc. destruct Hc as [Hr Hx].
    cbn [foldM]. unfold emit_store at 1. rewrite transfers_cons.
    cbn [existsb snd]. unfold non_empty at 1.
    destruct (is_empty x) eqn:Ex.
    + cbn [bind negb orb app]. now apply IH.
    + assert (Hcx : covered tensors tensor_addresses [x]).
      { intros y [<-|[]] Hy. now apply Hx. }
      destruct (slot_lookup x Hcx Ex) as (Ha & info & Hi & Hs).
      rewrite Ha, Hi. cbn [bind]. rewrite Hs, split_memory_op_chunks.
      cbn [negb orb]. rewrite andb_true_r.
      destruct (capacity =? 0) eqn:Ecap; [reflexivity|].
      cbn [bind]. rewrite fold_left_snoc, IH by assumption. cbn [andb].
      now rewrite map_app, !app_assoc.
Qed.
End Loops.

Lemma last_cons (A : Type) (a d : A) (l : list A) : last (a :: l) d = last l a.
Proof.
  revert a d. induction l as [|b r IH]; intros a d; [reflexivity|].
  change (last (a :: b :: r) d) with (last (b :: r) d).
  now rewrite (IH b d), (IH b a).
Qed.

Lemma num_ops_of_pos tensors outputs : 1 <= num_ops_of tensors outputs.
Proof.
  unfold num_ops_of.
  induction (map (element_count tensors) (filter non_empty outputs)) as [|c r IH];
    simpl; lia.
Qed.

Lemma max_loop (cs : list Z) :
  forall m, 1 <= m ->
    fold_left (fun m c => Z.max m (Z.max 1 c)) cs m
    = Z.max m (fold_right Z.max 1 cs).
Proof.
  assert (Hpos : forall l, 1 <= fold_right Z.max 1 l)
    by (induction l; simpl; lia).
  induction cs as [|c r IH]; intros m Hm; simpl; [lia|].
  rewrite IH by lia. pose proof (Hpos r). lia.
Qed.

Lemma scan_output_loop tensors addrs (l : list string) :
  forall m d,
    covered tensors addrs l ->
    foldM (scan_output tensors) l (m, d)
    = Ok (fold_left (fun m c => Z.max m (Z.max 1 c))
            (map (element_count tensors) (filter non_empty l)) m,
          last (map (dtype_string_of tensors) (filter non_empty l)) d).
Proof.
  induction l as [|x r IH]; intros m d Hc; [reflexivity|].
  apply covered_cons in Hc. destruct Hc as [Hr Hx].
  cbn [foldM filter]. unfold scan_output at 1.
  replace (non_empty x) with (negb (is_empty x)) by reflexivity.
  destruct (is_empty x) eqn:Ex; cbn [bind negb].
  - now apply IH.
  - apply is_empty_false in Ex.
    destruct (Hx Ex) as [(info & Hi & shape & Hshape) _].
    cbn [map fold_left]. rewrite last_cons.
    assert (Hn : _calculate_num_ops tensors x
                 = Ok (Z.max 1 (element_count tensors x))).
    { unfold _calculate_num_ops, element_count. rewrite Hi, Hshape. reflexivity. }
    assert (Hd : dtype_string_of tensors x = _dtype_to_string (info_dtype info)).
    { unfold dtype_string_of. now rewrite Hi. }
    rewrite Hn, Hi, Hd. cbn [bind].
    now rewrite IH.
Qed.

Lemma scan_output_from_start tensors addrs (outputs : list string) :
  covered tensors addrs outputs ->
  foldM (scan_output tensors) outputs (1, "fp32")
  = Ok (num_ops_of tensors outputs, dtype_of tensors outputs).
Proof.
  intros Hc. rewrite (scan_output_loop tensors addrs) by assumption.
  rewrite max_loop by lia. unfold num_ops_of, dtype_of.
  pose proof (num_ops_of_pos tensors outputs) as Hpos. unfold num_ops_of in Hpos.
  f_equal. f_equal. lia.
Qed.

(** ** The walk over the operations *)

Lemma enumerate_from_cons (A : Type) (s : nat) (a : A) (l : list A) :
  enumerate_from s (a :: l) = (s, a) :: enumerate_from (S s) l.
Proof. reflexivity. Qed.

Lemma map_snd_enumerate_from (A : Type) (l : list A) :
  forall s, map snd (enumerate_from s l) = l.
Proof.
  induction l as [|a r IH]; intros s; [reflexivity|].
  rewrite enumerate_from_cons. cbn [map snd]. now rewrite IH.
Qed.

Lemma existsb_enumerate_from (l : list string) :
  forall s, existsb (fun ix => non_empty (snd ix)) (enumerate_from s l)
            = existsb non_empty l.
Proof.
  induction l as [|a r IH]; intros s; [reflexivity|].
  rewrite enumerate_from_cons. cbn [existsb snd]. now rewrite IH.
Qed.

Section Builder.
Variable py_int_base0 : string -> option Z.
Variable platform_config : PlatformConfig.
Variable tensors : dict TensorInfo.
Variable tensor_addresses : dict Z.
Variable pe_names : list string.

Lemma lower_node_covered (c k : nat) (nd : NodeProto)
  (nodes : list TimetableNode) (edges : list TimetableEdge) :
  (c < List.length pe_names)%nat ->
  covered tensors tensor_addresses (node_input nd ++ node_output nd) ->
  lower_node py_int_base0 platform_config tensors tensor_addresses
    pe_names (c, nodes, edges) (k, nd)
  = if is_empty (node_name nd) then Err (missing_name k)
    else
      capacity <-
        _get_pe_sram_bytes py_int_base0 platform_config (pe_at pe_names c) ;;
      if (capacity =? 0)
         && existsb non_empty (node_input nd ++ node_output nd)
      then Err ZeroDivisionError
      else
        Ok (next_pe pe_names c,
            nodes
            ++ lowered_nodes
                 (lowered tensors tensor_addresses (pe_at pe_names c) capacity nd),
            edges
            ++ lowered_edges
                 (lowered tensors tensor_addresses (pe_at pe_names c) capacity nd)).
Proof.
  intros Hc Hcov. unfold lower_node.
  destruct (is_empty (node_name nd)); [reflexivity|].
  rewrite (nth_error_nth' pe_names "" Hc). fold (pe_at pe_names c).
  destruct (_get_pe_sram_bytes py_int_base0 platform_config (pe_at pe_names c))
    as [capacity|e]; [|reflexivity].
  cbn [bind]. unfold enumerate. fold (enumerate_from 0 (node_input nd)).
  fold (enumerate_from 0 (node_output nd)).
  assert (Hin : covered tensors tensor_addresses (node_input nd)).
  { intros x Hx. apply Hcov, in_or_app. now left. }
  assert (Hout : covered tensors tensor_addresses (node_output nd)).
  { intros x Hx. apply Hcov, in_or_app. now right. }
  rewrite emit_load_loop by now rewrite map_snd_enumerate_from.
  rewrite existsb_app, existsb_enumerate_from.
  destruct (capacity =? 0) eqn:Ecap; cbn [andb].
  - destruct (existsb non_empty (node_input nd)); [reflexivity|].
    cbn [bind orb].
    rewrite (scan_output_from_start tensors tensor_addresses) by assumption.
    cbn [bind]. rewrite emit_store_loop by now rewrite map_snd_enumerate_from.
    rewrite Ecap, existsb_enumerate_from. cbn [andb].
    destruct (existsb non_empty (node_output nd)); [reflexivity|].
    cbn [bind]. unfold lowered_nodes, lowered_edges, lowered, compute_record.
    cbn [loads compute stores id]. rewrite fold_left_snoc.
    change (enumerate_from 0 (node_input nd)) with (enumerate (node_input nd)).
    change (enumerate_from 0 (node_output nd)) with (enumerate (node_output nd)).
    rewrite app_nil_l, map_map, <- !app_assoc. reflexivity.
  - cbn [bind].
    rewrite (scan_output_from_start tensors tensor_addresses) by assumption.
    cbn [bind]. rewrite emit_store_loop by now rewrite map_snd_enumerate_from.
    rewrite Ecap. cbn [andb bind].
    unfold lowered_nodes, lowered_edges, lowered, compute_record.
    cbn [loads compute stores id]. rewrite fold_left_snoc.
    change (enumerate_from 0 (node_input nd)) with (enumerate (node_input nd)).
    change (enumerate_from 0 (node_output nd)) with (enumerate (node_output nd)).
    rewrite app_nil_l, map_map, <- !app_assoc. reflexivity.
Qed.

Lemma next_pe_bound (c : nat) :
  (c < List.length pe_names)%nat -> (next_pe pe_names c < List.length pe_names)%nat.
Proof. intros Hc. apply Nat.mod_upper_bound. lia. Qed.

Lemma get_pe_sram_bytes_error (element : string) (e : error) :
  _get_pe_sram_bytes py_int_base0 platform_config element = Err e ->
  exists literal, e = InvalidLiteral literal.
Proof.
  unfold _get_pe_sram_bytes.
  induction (processing_elements platform_config) as [|q r IH]; simpl;
    [discriminate|].
  destruct (String.eqb (pe_name q) element); [|assumption].
  destruct (pe_config q) as [cfg|]; [|assumption].
  destruct (sram_bytes cfg) as [[z|lit]|]; [discriminate | | assumption].
  unfold int_of. destruct (py_int_base0 _); [discriminate|].
  intros [= <-]. eauto.
Qed.

Lemma walk_ok (nds : list NodeProto) :
  forall s c nodes edges c' nodes' edges',
    (c < List.length pe_names)%nat ->
    all_covered tensors tensor_addresses nds ->
    foldM
      (lower_node py_int_base0 platform_config tensors tensor_addresses
         pe_names)
      (enumerate_from s nds) (c, nodes, edges)
    = Ok (c', nodes', edges') ->
    nodes' = nodes ++ flat_map lowered_nodes
        (walk py_int_base0 platform_config tensors tensor_addresses
           pe_names c nds)
    /\ edges' = edges ++ flat_map lowered_edges
        (walk py_int_base0 platform_config tensors tensor_addresses
           pe_names c nds)
    /\ first_unnamed s nds = None.
Proof.
  induction nds as [|nd r IH]; intros s c nodes edges c' nodes' edges' Hc Hcov H.
  - cbn in H. injection H as <- <- <-. cbn. now rewrite !app_nil_r.
  - rewrite enumerate_from_cons in H. cbn [foldM] in H.
    rewrite lower_node_covered in H by (try assumption; apply Hcov; now left).
    cbn [first_unnamed walk flat_map].
    destruct (is_empty (node_name nd)); [discriminate|].
    unfold capacity_of.
    destruct (_get_pe_sram_bytes py_int_base0 platform_config (pe_at pe_names c))
      as [capacity|e]; [|discriminate].
    cbn [bind] in H.
    destruct ((capacity =? 0)
              && existsb non_empty (node_input nd ++ node_output nd));
      [discriminate|].
    cbn [bind] in H.
    apply IH in H; [| now apply next_pe_bound
                    | intros nd' Hnd'; apply Hcov; now right].
    destruct H as (-> & -> & Hnone). now rewrite <- !app_assoc.
Qed.

Lemma walk_progress (nds : list NodeProto) :
  forall s c nodes edges,
    (c < List.length pe_names)%nat ->
    all_covered tensors tensor_addresses nds ->
    capacities_usable py_int_base0 platform_config pe_names ->
    match first_unnamed s nds with
    | Some index =>
        foldM
          (lower_node py_int_base0 platform_config tensors tensor_addresses
             pe_names)
          (enumerate_from s nds) (c, nodes, edges)
        = Err (missing_name index)
    | None =>
        exists c',
          foldM
            (lower_node py_int_base0 platform_config tensors
               tensor_addresses pe_names)
            (enumerate_from s nds) (c, nodes, edges)
          = Ok (c', nodes ++ flat_map lowered_nodes
              (walk py_int_base0 platform_config tensors tensor_addresses
                 pe_names c nds),
                edges ++ flat_map lowered_edges
                    (walk py_int_base0 platform_config tensors tensor_addresses
                       pe_names c nds))
    end.
Proof.
  induction nds as [|nd r IH]; intros s c nodes edges Hc Hcov Hcap.
  - cbn. exists c. now rewrite !app_nil_r.
  - rewrite enumerate_from_cons. cbn [foldM first_unnamed walk flat_map].
    rewrite lower_node_covered by (try assumption; apply Hcov; now left).
    destruct (is_empty (node_name nd)); [reflexivity|].
    destruct (Hcap c Hc) as (capacity & Hget & Hnz).
    unfold capacity_of. rewrite Hget. cbn [bind].
    apply Z.eqb_neq in Hnz. rewrite Hnz. cbn [andb bind].
    specialize (IH (S s) (next_pe pe_names c)
                  (nodes ++ lowered_nodes
                     (lowered tensors tensor_addresses (pe_at pe_names c) capacity nd))
                  (edges ++ lowered_edges
                     (lowered tensors tensor_addresses (pe_at pe_names c) capacity nd))
                  (next_pe_bound c Hc)
                  (fun nd' Hnd' => Hcov nd' (or_intror Hnd')) Hcap).
    destruct (first_unnamed (S s) r); [assumption|].
    destruct IH as (c' & IH). exists c'. now rewrite IH, <- !app_assoc.
Qed.

Lemma walk_error (nds : list NodeProto) :
  forall s c nodes edges e,
    (c < List.length pe_names)%nat ->
    all_covered tensors tensor_addresses nds ->
    foldM
      (lower_node py_int_base0 platform_config tensors tensor_addresses
         pe_names)
      (enumerate_from s nds) (c, nodes, edges)
    = Err e ->
    (exists index, first_unnamed s nds = Some index /\ e = missing_name index)
    \/ e = ZeroDivisionError
    \/ (exists literal, e = InvalidLiteral literal).
Proof.
  induction nds as [|nd r IH]; intros s c nodes edges e Hc Hcov H.
  - discriminate.
  - rewrite enumerate_from_cons in H. cbn [foldM] in H.
    rewrite lower_node_covered in H by (try assumption; apply Hcov; now left).
    cbn [first_unnamed].
    destruct (is_empty (node_name nd)).
    { injection H as <-. left. eauto. }
    destruct (_get_pe_sram_bytes py_int_base0 platform_config (pe_at pe_names c))
      as [capacity|e'] eqn:Hget.
    2: { injection H as <-. right. right.
         eapply get_pe_sram_bytes_error, Hget. }
    cbn [bind] in H.
    destruct ((capacity =? 0)
              && existsb non_empty (node_input nd ++ node_output nd)).
    { injection H as <-. right. now left. }
    cbn [bind] in H.
    apply IH in H; [assumption | now apply next_pe_bound
                    | intros nd' Hnd'; apply Hcov; now right].
Qed.

Lemma walk_nth (nds : list NodeProto) :
  forall c k nd,
    (c < List.length pe_names)%nat ->
    nth_error nds k = Some nd ->
    nth_error
        (walk py_int_base0 platform_config tensors tensor_addresses
           pe_names c nds) k
    = Some (lowered tensors tensor_addresses
              (pe_at pe_names ((c + k) mod List.length pe_names))
              (capacity_of py_int_base0 platform_config
                 (pe_at pe_names ((c + k) mod List.length pe_names)))
              nd).
Proof.
  induction nds as [|nd0 r IH]; intros c k nd Hc Hk; destruct k as [|k];
    try discriminate.
  - injection Hk as ->. cbn [walk nth_error].
    now rewrite Nat.add_0_r, Nat.mod_small.
  - cbn [walk nth_error] in *.
    rewrite (IH (next_pe pe_names c) k nd (next_pe_bound c Hc) Hk).
    unfold next_pe. now rewrite mod_succ_add.
Qed.

Lemma length_walk (nds : list NodeProto) :
  forall c, List.length
      (walk py_int_base0 platform_config tensors tensor_addresses
         pe_names c nds) = List.length nds.
Proof. induction nds as [|nd r IH]; intros c; simpl; auto. Qed.

End Builder.

(** ** Identifiers *)

Lemma chars_app (a b : string) : chars (a ++ b) = chars a ++ chars b.
Proof. induction a as [|c a IH]; simpl; [reflexivity | now rewrite IH]. Qed.

Lemma chars_inj (a b : string) : chars a = chars b -> a = b.
Proof.
  intros H. rewrite <- (string_of_list_ascii_of_string a),
    <- (string_of_list_ascii_of_string b). unfold chars in H. now rewrite H.
Qed.

Lemma string_app_assoc (a b c : string) :
  ((a ++ b) ++ c = a ++ (b ++ c))%string.
Proof. induction a as [|x a IH]; simpl; [reflexivity | now rewrite IH]. Qed.

Lemma strip_app (p l : list ascii) : strip p (p ++ l) = Some l.
Proof.
  induction p as [|c p IH]; simpl; [reflexivity|]. now rewrite Ascii.eqb_refl.
Qed.

Lemma span_digits_app (ds : list ascii) (c : ascii) (rest : list ascii) :
  Forall (fun d => is_digit d = true) ds -> is_digit c = false ->
  span_digits (ds ++ c :: rest) = (ds, c :: rest).
Proof.
  intros Hds Hc. induction Hds as [|d ds Hd _ IH]; simpl.
  - now rewrite Hc.
  - now rewrite Hd, IH.
Qed.

Lemma uint_digits (d : Decimal.uint) :
  Forall (fun c => is_digit c = true) (chars (NilEmpty.string_of_uint d)).
Proof. induction d; simpl; constructor; auto. Qed.

Lemma str_digits (n : nat) : Forall (fun c => is_digit c = true) (chars (str n)).
Proof. apply uint_digits. Qed.

Lemma rdigits_digits (n : nat) : Forall (fun c => is_digit c = true) (rdigits n).
Proof. apply Forall_rev, str_digits. Qed.

Lemma str_inj (i j : nat) : str i = str j -> i = j.
Proof.
  intros H. apply Unsigned.to_uint_inj.
  assert (Hs : Some (Nat.to_uint i) = Some (Nat.to_uint j)).
  { rewrite <- !NilEmpty.usu. unfold str in H. now rewrite H. }
  now injection Hs.
Qed.

Lemma rdigits_inj (i j : nat) : rdigits i = rdigits j -> i = j.
Proof.
  unfold rdigits. intros H. apply str_inj, chars_inj.
  rewrite <- (rev_involutive (chars (str i))), H. apply rev_involutive.
Qed.

Lemma rdigits_nonempty (n : nat) :
  exists d ds, rdigits n = d :: ds /\ is_digit d = true.
Proof.
  pose proof (rdigits_digits n) as Hd.
  destruct (rdigits n) as [|d ds] eqn:E.
  - exfalso. unfold rdigits in E.
    apply (f_equal (@rev ascii)) in E. rewrite rev_involutive in E. simpl in E.
    unfold str in E.
    assert (Hnil : Nat.to_uint n = Decimal.Nil).
    { destruct (Nat.to_uint n); simpl in E; try discriminate. reflexivity. }
    pose proof (Unsigned.to_of (Nat.to_uint n)) as Hto.
    rewrite Unsigned.of_to in Hto. rewrite Hnil in Hto at 1.
    symmetry in Hto. exact (DecimalFacts.unorm_nonnil _ Hto).
  - inversion Hd; subst. eauto.
Qed.

Lemma strip_compute_digit (d : ascii) (l : list ascii) :
  is_digit d = true -> strip (rsuffix "_compute") (d :: l) = None.
Proof.
  intros Hd. destruct d as [[] [] [] [] [] [] [] []]; try discriminate Hd; reflexivity.
Qed.

Lemma strip_compute_rdigits (n : nat) (l : list ascii) :
  strip (rsuffix "_compute") (rdigits n ++ l) = None.
Proof.
  destruct (rdigits_nonempty n) as (d & ds & -> & Hd).
  now apply strip_compute_digit.
Qed.

Lemma span_rdigits (n : nat) (l : list ascii) :
  span_digits (rdigits n ++ "_"%char :: l) = (rdigits n, "_"%char :: l).
Proof. apply span_digits_app; [apply rdigits_digits | reflexivity]. Qed.

Lemma decode_plain (n : nat) (l : list ascii) :
  decode (rdigits n ++ "_"%char :: l)
  = match strip (rev (chars "_load")) l with
    | Some rest => Some (RawLoad (rdigits n) None, rest)
    | None =>
        match strip (rev (chars "_store")) l with
        | Some rest => Some (RawStore (rdigits n) None, rest)
        | None =>
            match strip (rev (chars "_chunk")) l with
            | Some r2 =>
                let (d2, r3) := span_digits r2 in
                match strip (rsuffix "_load_") r3 with
                | Some rest => Some (RawLoad d2 (Some (rdigits n)), rest)
                | None =>
                    match strip (rsuffix "_store_") r3 with
                    | Some rest => Some (RawStore d2 (Some (rdigits n)), rest)
                    | None => None
                    end
                end
            | None => None
            end
        end
    end.
Proof.
  unfold decode. rewrite strip_compute_rdigits, span_rdigits. reflexivity.
Qed.

Lemma strip_tail (p : string) (l : list ascii) :
  strip (rev (chars p)) (rev (chars p) ++ l) = Some l.
Proof. apply strip_app. Qed.

Lemma strip_load_chunk l :
  strip (rev (chars "_load")) (rev (chars "_chunk") ++ l) = None.
Proof. reflexivity. Qed.

Lemma strip_store_chunk l :
  strip (rev (chars "_store")) (rev (chars "_chunk") ++ l) = None.
Proof. reflexivity. Qed.

Lemma strip_load_store l :
  strip (rev (chars "_load")) (rev (chars "_store") ++ l) = None.
Proof. reflexivity. Qed.

Lemma strip_rsuffix_load l :
  strip (rsuffix "_load_") ("_"%char :: rev (chars "_load") ++ l) = Some l.
Proof. apply (strip_app (rsuffix "_load_")). Qed.

Lemma strip_rsuffix_store l :
  strip (rsuffix "_store_") ("_"%char :: rev (chars "_store") ++ l) = Some l.
Proof. apply (strip_app (rsuffix "_store_")). Qed.

Lemma strip_rsuffix_load_store l :
  strip (rsuffix "_load_") ("_"%char :: rev (chars "_store") ++ l) = None.
Proof. reflexivity. Qed.

(** Reading back what [render] wrote. *)
Lemma decode_render (name : string) (r : Role) :
  decode (rev (chars (render name r))) = Some (raw r, rev (chars name)).
Proof.
  unfold render. rewrite chars_app, rev_app_distr.
  destruct r as [|i [j|]|i [j|]]; cbn [role_suffix raw option_map].
  - unfold decode. change (rev (chars "_compute")) with (rsuffix "_compute").
    now rewrite strip_app.
  - rewrite !chars_app, !rev_app_distr, <- !app_assoc.
    fold (rdigits i) (rdigits j).
    change (rev (chars "_chunk_")) with ("_"%char :: rev (chars "_chunk")).
    change (rev (chars "_load_")) with ("_"%char :: rev (chars "_load")).
    cbn [app]. rewrite decode_plain.
    rewrite strip_load_chunk, strip_store_chunk, strip_tail, span_rdigits.
    now rewrite strip_rsuffix_load.
  - rewrite !chars_app, !rev_app_distr, <- !app_assoc.
    fold (rdigits i).
    change (rev (chars "_load_")) with ("_"%char :: rev (chars "_load")).
    cbn [app]. rewrite decode_plain. now rewrite strip_tail.
  - rewrite !chars_app, !rev_app_distr, <- !app_assoc.
    fold (rdigits i) (rdigits j).
    change (rev (chars "_chunk_")) with ("_"%char :: rev (chars "_chunk")).
    change (rev (chars "_store_")) with ("_"%char :: rev (chars "_store")).
    cbn [app]. rewrite decode_plain.
    rewrite strip_load_chunk, strip_store_chunk, strip_tail, span_rdigits.
    now rewrite strip_rsuffix_load_store, strip_rsuffix_store.
  - rewrite !chars_app, !rev_app_distr, <- !app_assoc.
    fold (rdigits i).
    change (rev (chars "_store_")) with ("_"%char :: rev (chars "_store")).
    cbn [app]. rewrite decode_plain.
    now rewrite strip_load_store, strip_tail.
Qed.

Lemma raw_inj (r r' : Role) : raw r = raw r' -> r = r'.
Proof.
  destruct r as [|i [j|]|i [j|]], r' as [|i' [j'|]|i' [j'|]]; simpl;
    intros H; try discriminate; try reflexivity; injection H; intros;
    repeat match goal with
           | E : rdigits _ = rdigits _ |- _ => apply rdigits_inj in E; subst
           end; reflexivity.
Qed.

Lemma render_inj (name name' : string) (r r' : Role) :
  render name r = render name' r' -> name = name' /\ r = r'.
Proof.
  intros H.
  assert (Hd : decode (rev (chars (render name r)))
               = decode (rev (chars (render name' r')))) by now rewrite H.
  rewrite !decode_render in Hd. injection Hd as Hr Hn. split.
  - apply chars_inj. rewrite <- (rev_involutive (chars name)), Hn.
    apply rev_involutive.
  - now apply raw_inj.
Qed.

(** ** The roles of the records of an operation *)

Section SlotRoles.
Variable mid : string.
Variable mk : nat -> option nat -> Role.
Hypothesis mk_plain : forall i, role_suffix (mk i None) = (mid ++ str i)%string.
Hypothesis mk_chunk :
  forall i j,
    role_suffix (mk i (Some j)) = (mid ++ str i ++ "_chunk_" ++ str j)%string.
Hypothesis mk_inj :
  forall i c i' c', mk i c = mk i' c' -> i = i' /\ c = c'.

Variables (tensors : dict TensorInfo) (tensor_addresses : dict Z).
Variables (op_type name pe_name : string) (capacity : Z).

Lemma chunks_ids (i : nat) (base_addr total : Z) :
  map id (chunks (name ++ mid ++ str i) op_type pe_name base_addr total
            capacity)
  = map (render name) (chunk_roles (mk i) total capacity).
Proof.
  unfold chunks, chunk_roles. rewrite !map_map. apply map_ext. intros j.
  cbn [id]. unfold chunk_id_of, render.
  destruct ((total + capacity - 1) / capacity =? 1).
  - now rewrite mk_plain.
  - now rewrite mk_chunk, !string_app_assoc.
Qed.

Lemma transfers_ids (l : list (nat * string)) :
  map id (transfers mid op_type tensors tensor_addresses name pe_name
            capacity l)
  = map (render name) (slot_roles mk tensors capacity l).
Proof.
  induction l as [|[i x] r IH]; [reflexivity|].
  rewrite transfers_cons. unfold slot_roles. cbn [flat_map fst snd].
  rewrite !map_app. fold (slot_roles mk tensors capacity r). rewrite <- IH.
  destruct (is_empty x); [reflexivity|]. now rewrite chunks_ids.
Qed.

Lemma chunk_roles_in (i : nat) (total : Z) (r : Role) :
  In r (chunk_roles (mk i) total capacity) -> exists c, r = mk i c.
Proof.
  unfold chunk_roles. rewrite in_map_iff. intros (j & <- & _). eauto.
Qed.

Lemma slot_roles_in (l : list (nat * string)) (r : Role) :
  In r (slot_roles mk tensors capacity l) ->
  exists i x c, In (i, x) l /\ is_empty x = false /\ r = mk i c.
Proof.
  unfold slot_roles. rewrite in_flat_map. intros ([i x] & Hin & Hr).
  cbn [fst snd] in Hr. destruct (is_empty x) eqn:Ex; [destruct Hr|].
  apply chunk_roles_in in Hr. destruct Hr as (c & ->). eauto 6.
Qed.

Lemma chunk_roles_nodup (i : nat) (total : Z) :
  NoDup (chunk_roles (mk i) total capacity).
Proof.
  unfold chunk_roles.
  destruct (Z.eqb_spec ((total + capacity - 1) / capacity) 1) as [->|_].
  - cbn. repeat constructor. simpl. tauto.
  - apply Finite.Injective_map_NoDup; [|apply seq_NoDup].
    intros j j' H. apply mk_inj in H. destruct H as [_ H]. congruence.
Qed.

Lemma slot_roles_nodup (l : list (nat * string)) :
  NoDup (map fst l) -> NoDup (slot_roles mk tensors capacity l).
Proof.
  induction l as [|[i x] r IH]; intros Hnd; [constructor|].
  cbn [map fst] in Hnd. inversion Hnd as [|? ? Hnotin Hnd']; subst.
  unfold slot_roles. cbn [flat_map fst snd].
  fold (slot_roles mk tensors capacity r).
  destruct (is_empty x); [now apply IH|].
  apply NoDup_app; [apply chunk_roles_nodup | now apply IH |].
  intros role Hc Hr. apply chunk_roles_in in Hc. destruct Hc as (c & ->).
  apply slot_roles_in in Hr. destruct Hr as (i' & x' & c' & Hin & _ & Heq).
  apply mk_inj in Heq. destruct Heq as [-> _].
  apply Hnotin. change i' with (fst (i', x')). now apply in_map.
Qed.
End SlotRoles.

Lemma RLoad_inj i c i' c' : RLoad i c = RLoad i' c' -> i = i' /\ c = c'.
Proof. intros [= -> ->]. auto. Qed.

Lemma RStore_inj i c i' c' : RStore i c = RStore i' c' -> i = i' /\ c = c'.
Proof. intros [= -> ->]. auto. Qed.

Lemma map_fst_enumerate_from (A : Type) (l : list A) :
  forall s, map fst (enumerate_from s l) = seq s (List.length l).
Proof.
  induction l as [|a r IH]; intros s; [reflexivity|].
  rewrite enumerate_from_cons. cbn [map fst List.length seq]. now rewrite IH.
Qed.

Lemma enumerate_nodup (A : Type) (l : list A) : NoDup (map fst (enumerate l)).
Proof.
  change (enumerate l) with (enumerate_from 0 l).
  rewrite map_fst_enumerate_from. apply seq_NoDup.
Qed.

Lemma in_enumerate_from (A : Type) (l : list A) :
  forall s i x, In (i, x) (enumerate_from s l) ->
                (s <= i)%nat /\ nth_error l (i - s) = Some x.
Proof.
  induction l as [|a r IH]; intros s i x H; [destruct H|].
  rewrite enumerate_from_cons in H. destruct H as [[= <- <-]|H].
  - rewrite Nat.sub_diag. auto.
  - apply IH in H. destruct H as [Hle Hnth]. split; [lia|].
    replace (i - s)%nat with (S (i - S s)) by lia. exact Hnth.
Qed.

Lemma in_enumerate (A : Type) (l : list A) i x :
  In (i, x) (enumerate l) -> nth_error l i = Some x.
Proof.
  intros H. apply (in_enumerate_from A l 0) in H.
  now rewrite Nat.sub_0_r in H.
Qed.

Lemma lowered_ids tensors addrs pe_name capacity (nd : NodeProto) :
  map id (lowered_nodes (lowered tensors addrs pe_name capacity nd))
  = map (render (node_name nd)) (op_roles tensors capacity nd).
Proof.
  unfold lowered_nodes, lowered, op_roles. cbn [loads compute stores].
  rewrite !map_app.
  rewrite (transfers_ids "_load_" RLoad) by reflexivity.
  rewrite (transfers_ids "_store_" RStore) by reflexivity.
  reflexivity.
Qed.

Lemma op_roles_nodup tensors capacity (nd : NodeProto) :
  NoDup (op_roles tensors capacity nd).
Proof.
  unfold op_roles.
  apply NoDup_app.
  - apply (slot_roles_nodup RLoad RLoad_inj), enumerate_nodup.
  - apply NoDup_app.
    + repeat constructor. simpl. tauto.
    + apply (slot_roles_nodup RStore RStore_inj), enumerate_nodup.
    + intros r [<-|[]] Hr. apply slot_roles_in in Hr.
      destruct Hr as (i & x & c & _ & _ & Heq). discriminate.
  - intros r Hl Hr. apply slot_roles_in in Hl.
    destruct Hl as (i & x & c & _ & _ & ->).
    apply in_app_or in Hr. destruct Hr as [[Heq|[]]|Hr]; [discriminate|].
    apply slot_roles_in in Hr. destruct Hr as (i' & x' & c' & _ & _ & Heq).
    discriminate.
Qed.

Lemma render_nodup (name : string) (roles : list Role) :
  NoDup roles -> NoDup (map (render name) roles).
Proof.
  apply Finite.Injective_map_NoDup. intros r r' H. now apply render_inj in H.
Qed.

Section WalkIds.
Variable py_int_base0 : string -> option Z.
Variable platform_config : PlatformConfig.
Variable tensors : dict TensorInfo.
Variable tensor_addresses : dict Z.
Variable pe_names : list string.

Lemma walk_ids_in (nds : list NodeProto) :
  forall c s,
    In s (map id
            (flat_map lowered_nodes
               (walk py_int_base0 platform_config tensors tensor_addresses
                  pe_names c nds))) ->
    exists nd r, In nd nds /\ s = render (node_name nd) r.
Proof.
  induction nds as [|nd rest IH]; intros c s H; [destruct H|].
  cbn [walk flat_map] in H. rewrite map_app, in_app_iff in H.
  destruct H as [H|H].
  - rewrite lowered_ids in H. apply in_map_iff in H.
    destruct H as (r & <- & _). exists nd, r. split; [now left | reflexivity].
  - apply IH in H. destruct H as (nd' & r & Hin & ->).
    exists nd', r. split; [now right | reflexivity].
Qed.

Lemma walk_ids_nodup (nds : list NodeProto) :
  forall c,
    NoDup (map node_name nds) ->
    NoDup (map id
             (flat_map lowered_nodes
                (walk py_int_base0 platform_config tensors tensor_addresses
                   pe_names c nds))).
Proof.
  induction nds as [|nd rest IH]; intros c Hnd; [constructor|].
  cbn [map] in Hnd. inversion Hnd as [|? ? Hnotin Hnd']; subst.
  cbn [walk flat_map]. rewrite map_app. apply NoDup_app.
  - rewrite lowered_ids. apply render_nodup, op_roles_nodup.
  - now apply IH.
  - intros s Hs Hrest. rewrite lowered_ids in Hs. apply in_map_iff in Hs.
    destruct Hs as (r & <- & _). apply walk_ids_in in Hrest.
    destruct Hrest as (nd' & r' & Hin & Heq). apply render_inj in Heq.
    destruct Heq as [Heq _]. apply Hnotin. rewrite Heq. now apply in_map.
Qed.
End WalkIds.

(** ** The whole conversion *)

Section Whole.
Variable py_int : string -> option Z.
Variable py_int_base0 : string -> option Z.

Lemma layout_covers (tensors : dict TensorInfo) (p : PlatformConfig)
  (addrs : dict Z) :
  NoDup (dict_keys tensors) ->
  _layout_tensors py_int py_int_base0 tensors p = Ok addrs ->
  forall name, In name (dict_keys tensors) ->
               exists a, dict_get addrs name = Some a.
Proof.
  intros Hnd Hlayout name Hin.
  destruct (layout_inv _ _ _ _ _ Hlayout) as (mm & rest & da & _ & _ & _ & ->).
  assert (Hperm : Permutation (dict_keys tensors)
                    (map fst (sorted_by_size tensors))).
  { unfold dict_keys. apply Permutation_map, sorted_by_size_perm. }
  apply (Permutation_in _ Hperm) in Hin.
  apply In_nth_error in Hin. destruct Hin as (k & Hk).
  eexists. apply (assign_all_get _ _ _ k); [| | exact Hk].
  - now apply (Permutation_NoDup Hperm).
  - now rewrite length_round_robin, !length_map.
Qed.

Lemma graph_covered (g : GraphProto) (p : PlatformConfig) (addrs : dict Z) :
  _layout_tensors py_int py_int_base0 (_collect_tensors g) p = Ok addrs ->
  all_covered (_collect_tensors g) addrs (graph_node g).
Proof.
  intros Hlayout nd Hnd x Hx Hne.
  assert (Href : referenced g x).
  { right. right. unfold node_tensor_names. apply in_flat_map. eauto. }
  split; [now apply collect_tensors_lookup|].
  apply (layout_covers (_collect_tensors g) p addrs);
    [apply collect_tensors_well_resolved | assumption
    | now apply collect_tensors_covers].
Qed.

Lemma pe_names_length (p : PlatformConfig) :
  processing_elements p <> [] -> (0 < List.length (pe_names_of p))%nat.
Proof.
  unfold pe_names_of. destruct (processing_elements p); [congruence|].
  simpl. lia.
Qed.

Lemma convert_inv (g : GraphProto) (p : PlatformConfig) (t : Timetable) :
  onnx_to_gwr_timetable py_int py_int_base0 g p = Ok t ->
  exists addrs,
    _layout_tensors py_int py_int_base0 (_collect_tensors g) p = Ok addrs
    /\ processing_elements p <> []
    /\ nodes t = flat_map lowered_nodes (lowering py_int_base0 g p addrs)
    /\ edges t = flat_map lowered_edges (lowering py_int_base0 g p addrs)
    /\ first_unnamed 0 (graph_node g) = None.
Proof.
  unfold onnx_to_gwr_timetable. intros H.
  destruct (_layout_tensors py_int py_int_base0 (_collect_tensors g) p)
    as [addrs|e] eqn:Hlayout; [|discriminate].
  cbn [bind] in H. exists addrs. split; [reflexivity|].
  destruct (processing_elements p) as [|pe0 pes] eqn:Hpes; [discriminate|].
  split; [discriminate|].
  destruct (foldM _ _ _) as [[[c' nodes'] edges']|e] eqn:Hwalk; [|discriminate].
  cbn [bind] in H. injection H as <-. cbn [nodes edges].
  change (enumerate (graph_node g)) with (enumerate_from 0 (graph_node g)) in Hwalk.
  apply walk_ok in Hwalk.
  - unfold lowering, pe_names_of. rewrite Hpes. exact Hwalk.
  - simpl. lia.
  - now apply (graph_covered g p).
Qed.

Lemma convert_progress (g : GraphProto) (p : PlatformConfig) (addrs : dict Z) :
  _layout_tensors py_int py_int_base0 (_collect_tensors g) p = Ok addrs ->
  processing_elements p <> [] ->
  capacities_usable py_int_base0 p (pe_names_of p) ->
  onnx_to_gwr_timetable py_int py_int_base0 g p
  = match first_unnamed 0 (graph_node g) with
    | Some index => Err (missing_name index)
    | None =>
        Ok {| nodes := flat_map lowered_nodes (lowering py_int_base0 g p addrs);
              edges := flat_map lowered_edges (lowering py_int_base0 g p addrs) |}
    end.
Proof.
  intros Hlayout Hpes Hcap. unfold onnx_to_gwr_timetable.
  rewrite Hlayout. cbn [bind].
  pose proof (pe_names_length p Hpes) as Hlen.
  pose proof (walk_progress py_int_base0 p (_collect_tensors g) addrs
                (pe_names_of p) (graph_node g) 0 0 [] [] Hlen
                (graph_covered g p addrs Hlayout) Hcap) as Hwalk.
  unfold pe_names_of in *.
  destruct (processing_elements p) as [|pe0 pes] eqn:E; [congruence|].
  change (enumerate (graph_node g)) with (enumerate_from 0 (graph_node g)).
  destruct (first_unnamed 0 (graph_node g)) as [index|].
  - now rewrite Hwalk.
  - destruct Hwalk as (c' & ->). cbn [bind app].
    unfold lowering, pe_names_of. now rewrite E.
Qed.

Lemma convert_error (g : GraphProto) (p : PlatformConfig) (e : error) :
  onnx_to_gwr_timetable py_int py_int_base0 g p = Err e ->
  _layout_tensors py_int py_int_base0 (_collect_tensors g) p = Err e
  \/ (processing_elements p = []
      /\ e = ValueError
               "No processing elements found in platform configuration")
  \/ (exists index,
        first_unnamed 0 (graph_node g) = Some index /\ e = missing_name index)
  \/ e = ZeroDivisionError
  \/ (exists literal, e = InvalidLiteral literal).
Proof.
  unfold onnx_to_gwr_timetable. intros H.
  destruct (_layout_tensors py_int py_int_base0 (_collect_tensors g) p)
    as [addrs|e'] eqn:Hlayout; [|left; cbn [bind] in H; congruence].
  cbn [bind] in H. right.
  destruct (processing_elements p) as [|pe0 pes] eqn:Hpes.
  { injection H as <-. left. now split. }
  right.
  destruct (foldM _ _ _) as [[[c' nodes'] edges']|e'] eqn:Hwalk; [discriminate|].
  cbn [bind] in H. injection H as ->.
  change (enumerate (graph_node g)) with (enumerate_from 0 (graph_node g)) in Hwalk.
  apply walk_error in Hwalk; [exact Hwalk | simpl; lia |].
  now apply (graph_covered g p).
Qed.
End Whole.

(** ** Compute records and processing elements *)

Lemma cursor_after_mod (K k : nat) : cursor_after K k = (k mod K)%nat.
Proof.
  unfold cursor_after. induction k as [|k IH]; simpl.
  - symmetry. apply Nat.Div0.mod_0_l.
  - rewrite IH, Nat.Div0.add_mod_idemp_l. f_equal. lia.
Qed.

Lemma transfers_fields mid op_type tensors addrs name pe_name capacity l o :
  In o (transfers mid op_type tensors addrs name pe_name capacity l) ->
  kind o = "memory" /\ op o = op_type /\ pe o = pe_name.
Proof.
  unfold transfers, slot_transfer. rewrite in_flat_map. intros (ix & _ & H).
  destruct (is_empty (snd ix)); [destruct H|].
  unfold chunks in H. apply in_map_iff in H. destruct H as (j & <- & _). auto.
Qed.

Lemma filter_compute_transfers mid op_type tensors addrs name pe_name capacity l :
  filter is_compute
    (transfers mid op_type tensors addrs name pe_name capacity l) = [].
Proof.
  set (ops := transfers _ _ _ _ _ _ _ _).
  assert (H : forall o, In o ops -> is_compute o = false).
  { intros o Ho. apply transfers_fields in Ho. destruct Ho as (Hk & _).
    unfold is_compute. now rewrite Hk. }
  induction ops as [|o r IH]; [reflexivity|]. simpl.
  rewrite (H o (or_introl eq_refl)). apply IH. intros o' Ho'. apply H. now right.
Qed.

Lemma filter_compute_lowered tensors addrs pe_name capacity nd :
  filter is_compute (lowered_nodes (lowered tensors addrs pe_name capacity nd))
  = [compute_record tensors pe_name nd].
Proof.
  unfold lowered_nodes, lowered. cbn [loads compute stores].
  rewrite !filter_app, !filter_compute_transfers. reflexivity.
Qed.

Lemma lowered_pe tensors addrs pe_name capacity nd o :
  In o (lowered_nodes (lowered tensors addrs pe_name capacity nd)) ->
  pe o = pe_name.
Proof.
  unfold lowered_nodes, lowered. cbn [loads compute stores].
  rewrite !in_app_iff. intros [H|[[<-|[]]|H]]; [|reflexivity|];
    now apply transfers_fields in H.
Qed.

Section WalkRecords.
Variable py_int_base0 : string -> option Z.
Variable platform_config : PlatformConfig.
Variable tensors : dict TensorInfo.
Variable tensor_addresses : dict Z.
Variable pe_names : list string.

Lemma filter_compute_walk (nds : list NodeProto) :
  forall c,
    filter is_compute
      (flat_map lowered_nodes
         (walk py_int_base0 platform_config tensors tensor_addresses
            pe_names c nds))
    = map compute
        (walk py_int_base0 platform_config tensors tensor_addresses
           pe_names c nds).
Proof.
  induction nds as [|nd r IH]; intros c; [reflexivity|].
  cbn [walk flat_map map]. rewrite filter_app, filter_compute_lowered, IH.
  reflexivity.
Qed.
End WalkRecords.

(** The operations that the cursor gives to one element, counted: [n] of
    the first [G] operations go to element [i] of [K], and [n] is the
    ceiling of [(G - i) / K]. *)
Lemma count_round_robin (K G i : nat) :
  (i < K)%nat ->
  let n := Z.of_nat
             (count_occ Nat.eq_dec (map (fun k => (k mod K)%nat) (seq 0 G)) i) in
  (n - 1) * Z.of_nat K < Z.of_nat G - Z.of_nat i <= n * Z.of_nat K.
Proof.
  intros Hi. induction G as [|G IH]; cbv zeta in *.
  - cbn [seq map count_occ]. lia.
  - rewrite seq_S, map_app, count_occ_app. cbn [map count_occ Nat.add].
    set (n := count_occ Nat.eq_dec (map (fun k => (k mod K)%nat) (seq 0 G)) i) in *.
    pose proof (Nat.div_mod_eq G K) as Hdm.
    pose proof (Nat.mod_upper_bound G K ltac:(lia)) as Hlt.
    destruct (Nat.eq_dec (G mod K) i) as [Heq|Hneq].
    + assert (Z.of_nat G - Z.of_nat i = Z.of_nat K * Z.of_nat (G / K)) by lia.
      assert (Z.of_nat (G / K) = Z.of_nat n) by nia.
      nia.
    + assert (Z.of_nat G - Z.of_nat i <> Z.of_nat n * Z.of_nat K).
      { intros Hc. apply Hneq.
        assert (HG : G = (i + n * K)%nat) by nia.
        rewrite HG, Nat.Div0.mod_add. now apply Nat.mod_small. }
      nia.
Qed.

Lemma max_list_spec (l : list Z) :
  let m := fold_right Z.max 1 l in
  1 <= m /\ (forall c, In c l -> c <= m) /\ (m = 1 \/ In m l).
Proof.
  induction l as [|c r IH]; cbv zeta in *; simpl.
  - repeat split; [lia | tauto | now left].
  - destruct IH as (H1 & Hall & Hwit). repeat split.
    + lia.
    + intros c' [<-|Hc']; [lia|]. specialize (Hall c' Hc'). lia.
    + destruct (Z.max_spec c (fold_right Z.max 1 r)) as [[_ ->]|[_ ->]].
      * destruct Hwit as [->|Hin]; [now left | right; now right].
      * right. now left.
Qed.

(** ** Ids and the operations they belong to *)

Lemma nodup_app_disjoint (A : Type) (l l' : list A) (x : A) :
  NoDup (l ++ l') -> In x l -> In x l' -> False.
Proof.
  induction l as [|a l IH]; intros Hnd Hl Hl'; [destruct Hl|].
  cbn [app] in Hnd. inversion Hnd as [|? ? Hnotin Hnd']; subst.
  destruct Hl as [->|Hl].
  - apply Hnotin, in_or_app. now right.
  - now apply IH.
Qed.

(** With distinct ids, a record's id tells the operation it belongs to. *)
Lemma group_of_id (ws : list Lowered) :
  NoDup (map id (flat_map lowered_nodes ws)) ->
  forall k1 w1 n1 k2 w2 n2,
    nth_error ws k1 = Some w1 -> In n1 (lowered_nodes w1) ->
    nth_error ws k2 = Some w2 -> In n2 (lowered_nodes w2) ->
    id n1 = id n2 -> k1 = k2.
Proof.
  induction ws as [|w ws IH]; intros Hnd k1 w1 n1 k2 w2 n2 H1 Hn1 H2 Hn2 Hid.
  - destruct k1; discriminate.
  - cbn [flat_map] in Hnd. rewrite map_app in Hnd.
    assert (Hrest : forall k w' n,
              nth_error ws k = Some w' -> In n (lowered_nodes w') ->
              In (id n) (map id (flat_map lowered_nodes ws))).
    { intros k w' n Hk Hn. apply in_map, in_flat_map. exists w'.
      split; [eapply nth_error_In, Hk | exact Hn]. }
    destruct k1 as [|k1], k2 as [|k2]; cbn [nth_error] in H1, H2.
    + reflexivity.
    + injection H1 as <-. exfalso.
      apply (nodup_app_disjoint _ _ _ (id n1) Hnd); [now apply in_map|].
      rewrite Hid. eapply Hrest; eassumption.
    + injection H2 as <-. exfalso.
      apply (nodup_app_disjoint _ _ _ (id n2) Hnd); [now apply in_map|].
      rewrite <- Hid. eapply Hrest; eassumption.
    + f_equal. apply (IH (NoDup_app_remove_l _ _ Hnd) k1 w1 n1 k2 w2 n2);
        assumption.
Qed.

Section WalkNames.
Variable py_int_base0 : string -> option Z.
Variable platform_config : PlatformConfig.
Variable tensors : dict TensorInfo.
Variable tensor_addresses : dict Z.
Variable pe_names : list string.

Lemma walk_compute_id (nds : list NodeProto) :
  forall c nd,
    In nd nds ->
    In (node_name nd ++ "_compute")%string
      (map id
         (flat_map lowered_nodes
            (walk py_int_base0 platform_config tensors tensor_addresses
               pe_names c nds))).
Proof.
  induction nds as [|nd0 rest IH]; intros c nd Hin; [destruct Hin|].
  cbn [walk flat_map]. rewrite map_app. apply in_or_app.
  destruct Hin as [->|Hin]; [left | right; now apply IH].
  unfold lowered_nodes, lowered. cbn [loads compute stores].
  rewrite !map_app. apply in_or_app. right. now left.
Qed.

(** Distinct ids need distinct names: every operation emits the id of its
    compute record. *)
Lemma walk_ids_names (nds : list NodeProto) :
  forall c,
    NoDup (map id
             (flat_map lowered_nodes
                (walk py_int_base0 platform_config tensors tensor_addresses
                   pe_names c nds))) ->
    NoDup (map node_name nds).
Proof.
  induction nds as [|nd rest IH]; intros c Hnd; [constructor|].
  cbn [walk flat_map] in Hnd. rewrite map_app in Hnd. cbn [map].
  constructor.
  - intros Hin. apply in_map_iff in Hin. destruct Hin as (nd' & Hname & Hin).
    apply (nodup_app_disjoint _ _ _ (node_name nd ++ "_compute")%string Hnd).
    + unfold lowered_nodes, lowered. cbn [loads compute stores].
      rewrite !map_app. apply in_or_app. right. now left.
    + rewrite <- Hname. now apply walk_compute_id.
  - apply (IH (next_pe pe_names c)). exact (NoDup_app_remove_l _ _ Hnd).
Qed.

(** A walk that succeeds has read the capacity of every element it gave an
    operation to, and found it non-zero where that operation names a
    tensor. *)
Lemma walk_ok_capacity (nds : list NodeProto) :
  forall s c nodes edges st,
    (c < List.length pe_names)%nat ->
    all_covered tensors tensor_addresses nds ->
    foldM
      (lower_node py_int_base0 platform_config tensors tensor_addresses
         pe_names)
      (enumerate_from s nds) (c, nodes, edges)
    = Ok st ->
    forall k nd,
      nth_error nds k = Some nd ->
      exists capacity,
        _get_pe_sram_bytes py_int_base0 platform_config
          (pe_at pe_names ((c + k) mod List.length pe_names))
        = Ok capacity
        /\ (existsb non_empty (node_input nd ++ node_output nd) = true ->
            capacity <> 0).
Proof.
  induction nds as [|nd0 rest IH]; intros s c nodes edges st Hc Hcov H k nd Hk.
  - destruct k; discriminate.
  - rewrite enumerate_from_cons in H. cbn [foldM] in H.
    rewrite lower_node_covered in H by (try assumption; apply Hcov; now left).
    destruct (is_empty (node_name nd0)); [discriminate|].
    destruct (_get_pe_sram_bytes py_int_base0 platform_config
                (pe_at pe_names c)) as [capacity|e] eqn:Hget; [|discriminate].
    cbn [bind] in H.
    destruct ((capacity =? 0)
              && existsb non_empty (node_input nd0 ++ node_output nd0))
      eqn:Ez; [discriminate|].
    cbn [bind] in H. destruct k as [|k]; cbn [nth_error] in Hk.
    + injection Hk as <-. rewrite Nat.add_0_r, Nat.mod_small by assumption.
      exists capacity. split; [exact Hget|].
      intros Hm. rewrite Hm, andb_true_r in Ez. now apply Z.eqb_neq.
    + rewrite <- mod_succ_add.
      apply (IH _ _ _ _ _ (next_pe_bound pe_names c Hc)
               (fun nd' Hnd' => Hcov nd' (or_intror Hnd')) H k nd Hk).
Qed.

End WalkNames.

(** Among the ids of one operation, [<name>_compute] occurs once when the
    operation is named [name] and not at all otherwise. *)
Lemma lowered_compute_count tensors addrs pe_name capacity (nd : NodeProto)
  (name : string) :
  count_occ string_dec
    (map id (lowered_nodes (lowered tensors addrs pe_name capacity nd)))
    (name ++ "_compute")%string
  = if string_dec (node_name nd) name then 1%nat else 0%nat.
Proof.
  rewrite lowered_ids. unfold op_roles. rewrite !map_app, !count_occ_app.
  assert (Hslots : forall mk l,
            (forall i c, mk i c <> RCompute) ->
            count_occ string_dec
              (map (render (node_name nd)) (slot_roles mk tensors capacity l))
              (name ++ "_compute")%string = 0%nat).
  { intros mk l Hmk. apply count_occ_not_In. intros Hin.
    apply in_map_iff in Hin. destruct Hin as (r & Heq & Hr).
    apply slot_roles_in in Hr. destruct Hr as (i & x & c & _ & _ & ->).
    change (name ++ "_compute")%string with (render name RCompute) in Heq.
    apply render_inj in Heq. destruct Heq as [_ Heq]. now apply Hmk in Heq. }
  rewrite (Hslots RLoad) by discriminate.
  rewrite (Hslots RStore) by discriminate.
  cbn [map count_occ]. rewrite Nat.add_0_r, Nat.add_0_l.
  change (name ++ "_compute")%string with (render name RCompute).
  destruct (string_dec (render (node_name nd) RCompute) (render name RCompute))
    as [E|E]; destruct (string_dec (node_name nd) name) as [E'|E'];
    try reflexivity.
  - apply render_inj in E. destruct E as [E _]. contradiction.
  - subst. contradiction.
Qed.

Section WalkCount.
Variable py_int_base0 : string -> option Z.
Variable platform_config : PlatformConfig.
Variable tensors : dict TensorInfo.
Variable tensor_addresses : dict Z.
Variable pe_names : list string.

Lemma walk_compute_count (nds : list NodeProto) (name : string) :
  forall c,
    count_occ string_dec
      (map id
         (flat_map lowered_nodes
            (walk py_int_base0 platform_config tensors tensor_addresses
               pe_names c nds)))
      (name ++ "_compute")%string
    = count_occ string_dec (map node_name nds) name.
Proof.
  induction nds as [|nd rest IH]; intros c; [reflexivity|].
  cbn [walk flat_map map]. rewrite map_app, count_occ_app.
  rewrite lowered_compute_count, IH. cbn [count_occ].
  destruct (string_dec (node_name nd) name); reflexivity.
Qed.

End WalkCount.

Section Claims.
Variable py_int : string -> option Z.
Variable py_int_base0 : string -> option Z.

Lemma lowering_nth (g : GraphProto) (p : PlatformConfig) (addrs : dict Z)
  (k : nat) (nd : NodeProto) :
  processing_elements p <> [] ->
  nth_error (graph_node g) k = Some nd ->
  let K := List.length (processing_elements p) in
  exists pe_name,
    nth_error (pe_names_of p) (cursor_after K k) = Some pe_name
    /\ nth_error (lowering py_int_base0 g p addrs) k
       = Some (lowered (_collect_tensors g) addrs pe_name
                 (capacity_of py_int_base0 p pe_name) nd).
Proof.
  intros Hpes Hk K.
  pose proof (pe_names_length p Hpes) as Hlen.
  assert (HK : List.length (pe_names_of p) = K)
    by (unfold pe_names_of; apply length_map).
  exists (pe_at (pe_names_of p) (k mod K)). split.
  - rewrite cursor_after_mod. unfold pe_at. apply nth_error_nth'.
    rewrite HK. apply Nat.mod_upper_bound. lia.
  - unfold lowering.
    rewrite (walk_nth py_int_base0 p (_collect_tensors g) addrs
               (pe_names_of p) (graph_node g) 0 k nd Hlen Hk).
    now rewrite Nat.add_0_l, HK.
Qed.

(** C5. The compute record of an operation: [num_ops] is the largest
    resolved element count of its non-empty outputs and 1 at least (1
    without a non-empty output); [dtype] is the resolved dtype string of
    the last non-empty output ([fp32] without one); [op] is read from the
    table of kinds, [add] for a kind that is not in it. *)
Theorem compute_record_of_operation (g : GraphProto) (p : PlatformConfig)
  (t : Timetable) (k : nat) (nd : NodeProto) :
  onnx_to_gwr_timetable py_int py_int_base0 g p = Ok t ->
  nth_error (graph_node g) k = Some nd ->
  let tensors := _collect_tensors g in
  let outputs := filter non_empty (node_output nd) in
  exists pe_name dtype_str num_ops,
    nth_error (filter is_compute (nodes t)) k
    = Some {| id := node_name nd ++ "_compute";
              kind := "compute";
              op := match dict_get op_map (node_op_type nd) with
                    | Some category => category
                    | None => "add"
                    end;
              pe := pe_name;
              config := ComputeConfig dtype_str num_ops |}
    /\ 1 <= num_ops
    /\ (forall x, In x outputs -> element_count tensors x <= num_ops)
    /\ (num_ops = 1 \/ exists x, In x outputs /\ num_ops = element_count tensors x)
    /\ (forall x, In x outputs ->
          exists shape dtype size,
            dict_get tensors x = Some (Some shape, dtype, size)
            /\ element_count tensors x = _get_tensor_num_elements shape
            /\ dtype_string_of tensors x = _dtype_to_string dtype)
    /\ dtype_str = last (map (dtype_string_of tensors) outputs) "fp32".
Proof.
  intros Hconv Hk tensors outputs.
  destruct (convert_inv py_int py_int_base0 g p t Hconv)
    as (addrs & Hlayout & Hpes & Hnodes & _ & _).
  destruct (lowering_nth g p addrs k nd Hpes Hk) as (pe_name & _ & Hnth).
  exists pe_name, (dtype_of tensors (node_output nd)),
    (num_ops_of tensors (node_output nd)).
  destruct (max_list_spec (map (element_count tensors) outputs))
    as (H1 & Hall & Hwit).
  split; [|split; [exact H1|split; [|split; [|split; [|reflexivity]]]]].
  - rewrite Hnodes. unfold lowering. rewrite filter_compute_walk.
    fold (lowering py_int_base0 g p addrs).
    rewrite nth_error_map, Hnth. reflexivity.
  - intros x Hx. apply Hall. now apply in_map.
  - destruct Hwit as [Hone|Hin]; [now left|]. right.
    apply in_map_iff in Hin. destruct Hin as (x & Hx & Hin). eauto.
  - intros x Hx. apply filter_In in Hx. destruct Hx as [Hin Hne].
    unfold non_empty in Hne. apply negb_true_iff, is_empty_false in Hne.
    destruct (graph_covered py_int py_int_base0 g p addrs Hlayout nd
                (nth_error_In _ _ Hk) x
                (in_or_app _ _ _ (or_intror Hin)) Hne)
      as [(info & Hinfo & shape & Hshape) _].
    destruct info as [[sh dt] sz]. cbn in Hshape. injection Hshape as -> _.
    exists shape, dt, sz.
    unfold element_count, dtype_string_of. fold tensors in Hinfo.
    rewrite Hinfo. repeat split; reflexivity.
Qed.

(** C7. The cursor over the processing elements starts at element 0 and
    moves on by one after every operation; the records of operation [k]
    all run on the element under the cursor.  Element [i] of [K] so gets
    [n] of the [G] operations, [n] the ceiling of [(G - i) / K]. *)
Theorem round_robin_assignment (g : GraphProto) (p : PlatformConfig)
  (t : Timetable) :
  onnx_to_gwr_timetable py_int py_int_base0 g p = Ok t ->
  let K := List.length (processing_elements p) in
  let G := List.length (graph_node g) in
  (0 < K)%nat
  /\ (exists ws : list Lowered,
        nodes t = flat_map lowered_nodes ws
        /\ List.length ws = G
        /\ forall k w o,
             nth_error ws k = Some w -> In o (lowered_nodes w) ->
             nth_error (pe_names_of p) (cursor_after K k) = Some (pe o))
  /\ (forall i, (i < K)%nat ->
        let n := Z.of_nat
                   (count_occ Nat.eq_dec
                      (map (cursor_after K) (seq 0 G)) i) in
        (n - 1) * Z.of_nat K < Z.of_nat G - Z.of_nat i <= n * Z.of_nat K).
Proof.
  intros Hconv K G.
  destruct (convert_inv py_int py_int_base0 g p t Hconv)
    as (addrs & Hlayout & Hpes & Hnodes & _ & _).
  assert (HK : (0 < K)%nat).
  { unfold K. destruct (processing_elements p); [congruence | simpl; lia]. }
  split; [exact HK|]. split.
  - exists (lowering py_int_base0 g p addrs).
    split; [exact Hnodes|]. split; [apply length_walk|].
    intros k w o Hw Ho.
    assert (Hk : (k < List.length (graph_node g))%nat).
    { rewrite <- (length_walk py_int_base0 p (_collect_tensors g) addrs
                    (pe_names_of p) (graph_node g) 0).
      apply nth_error_Some. unfold lowering in Hw. congruence. }
    destruct (nth_error (graph_node g) k) as [nd|] eqn:Hnd;
      [|apply nth_error_None in Hnd; lia].
    destruct (lowering_nth g p addrs k nd Hpes Hnd) as (pe_name & Hpe & Hnth).
    rewrite Hnth in Hw. injection Hw as <-.
    apply lowered_pe in Ho. now rewrite Ho.
  - intros i Hi.
    rewrite (map_ext (cursor_after K) (fun k => (k mod K)%nat))
      by (intros; apply cursor_after_mod).
    now apply count_round_robin.
Qed.

(** C6, amended. Every edge has kind [data] and belongs to one operation:
    it runs from a load chunk of that operation to its compute record, or
    from its compute record to one of its store chunks.  When the
    operations have pairwise distinct names the ids of an edge are ids of
    records of that operation only: two records that carry the two ids of
    an edge are records of the same operation. *)
Theorem edges_within_operation (g : GraphProto) (p : PlatformConfig)
  (t : Timetable) :
  onnx_to_gwr_timetable py_int py_int_base0 g p = Ok t ->
  exists (addrs : dict Z) (ws : list Lowered),
    _layout_tensors py_int py_int_base0 (_collect_tensors g) p = Ok addrs
    /\ ws = lowering py_int_base0 g p addrs
    /\ nodes t = flat_map lowered_nodes ws
    /\ edges t = flat_map lowered_edges ws
    /\ List.length ws = List.length (graph_node g)
    /\ (forall k w nd,
          nth_error ws k = Some w -> nth_error (graph_node g) k = Some nd ->
          compute w
          = compute_record (_collect_tensors g) (pe (compute w)) nd
          /\ (forall o, In o (loads w) -> kind o = "memory" /\ op o = "load")
          /\ (forall o, In o (stores w) -> kind o = "memory" /\ op o = "store"))
    /\ (forall e, In e (edges t) ->
          edge_kind e = "data"
          /\ exists k w,
              nth_error ws k = Some w
              /\ In e (lowered_edges w)
              /\ ((exists o, In o (loads w)
                             /\ edge_from e = id o
                             /\ edge_to e = id (compute w))
                  \/ (exists o, In o (stores w)
                                /\ edge_from e = id (compute w)
                                /\ edge_to e = id o)))
    /\ (NoDup (map node_name (graph_node g)) ->
        forall e k1 w1 n1 k2 w2 n2,
          In e (edges t) ->
          nth_error ws k1 = Some w1 -> In n1 (lowered_nodes w1) ->
          id n1 = edge_from e ->
          nth_error ws k2 = Some w2 -> In n2 (lowered_nodes w2) ->
          id n2 = edge_to e ->
          k1 = k2).
Proof.
  intros Hconv.
  destruct (convert_inv py_int py_int_base0 g p t Hconv)
    as (addrs & Hlayout & Hpes & Hnodes & Hedges & _).
  exists addrs, (lowering py_int_base0 g p addrs).
  split; [exact Hlayout|]. split; [reflexivity|].
  split; [exact Hnodes|]. split; [exact Hedges|].
  split; [apply length_walk|].
  assert (Hends : forall e, In e (edges t) ->
            edge_kind e = "data"
            /\ exists k w,
                nth_error (lowering py_int_base0 g p addrs) k = Some w
                /\ In e (lowered_edges w)
                /\ ((exists o, In o (loads w)
                               /\ edge_from e = id o
                               /\ edge_to e = id (compute w))
                    \/ (exists o, In o (stores w)
                                  /\ edge_from e = id (compute w)
                                  /\ edge_to e = id o))).
  { intros e He. rewrite Hedges in He. apply in_flat_map in He.
    destruct He as (w & Hw & He).
    apply In_nth_error in Hw. destruct Hw as (k & Hk).
    assert (Hshape :
      (exists o, In o (loads w) /\ e = data_edge (id o) (id (compute w)))
      \/ (exists o, In o (stores w) /\ e = data_edge (id (compute w)) (id o))).
    { unfold lowered_edges in He. apply in_app_or in He.
      destruct He as [He|He]; apply in_map_iff in He;
        destruct He as (o & <- & Ho); eauto. }
    split.
    + destruct Hshape as [(o & _ & ->)|(o & _ & ->)]; reflexivity.
    + exists k, w. split; [exact Hk|]. split; [exact He|].
      destruct Hshape as [(o & Ho & ->)|(o & Ho & ->)];
        [left | right]; exists o; auto. }
  split; [|split; [exact Hends|]].
  - intros k w nd Hw Hnd.
    destruct (lowering_nth g p addrs k nd Hpes Hnd) as (pe_name & _ & Hnth).
    rewrite Hnth in Hw. injection Hw as <-. cbn [lowered loads compute stores].
    split; [reflexivity|].
    split; intros o Ho; apply transfers_fields in Ho; tauto.
  - intros Hnames e k1 w1 n1 k2 w2 n2 He H1 Hn1 Hfrom H2 Hn2 Hto.
    assert (Hnd : NoDup (map id (flat_map lowered_nodes
                                   (lowering py_int_base0 g p addrs))))
      by (unfold lowering; now apply walk_ids_nodup).
    destruct (Hends e He) as (_ & k & w & Hk & _ & Hshape).
    assert (Hin : forall o, In o (loads w) \/ o = compute w \/ In o (stores w) ->
                            In o (lowered_nodes w)).
    { intros o Ho. unfold lowered_nodes. rewrite !in_app_iff. cbn [In].
      intuition. }
    destruct Hshape as [(o & Ho & Hf & Ht)|(o & Ho & Hf & Ht)].
    + rewrite (group_of_id _ Hnd k1 w1 n1 k w o H1 Hn1 Hk
                 (Hin o (or_introl Ho)) ltac:(congruence)).
      symmetry.
      apply (group_of_id _ Hnd k2 w2 n2 k w (compute w) H2 Hn2 Hk);
        [apply Hin; auto | congruence].
    + rewrite (group_of_id _ Hnd k1 w1 n1 k w (compute w) H1 Hn1 Hk
                 (Hin _ (or_intror (or_introl eq_refl))) ltac:(congruence)).
      symmetry.
      apply (group_of_id _ Hnd k2 w2 n2 k w o H2 Hn2 Hk);
        [apply Hin; auto | congruence].
Qed.
End Claims.

(** ** Indices in the ids of loads and stores *)

Lemma nth_error_in_enumerate_from (A : Type) (l : list A) :
  forall s i x, nth_error l i = Some x -> In ((s + i)%nat, x) (enumerate_from s l).
Proof.
  induction l as [|a r IH]; intros s i x H; destruct i as [|i]; try discriminate.
  - injection H as ->. rewrite Nat.add_0_r, enumerate_from_cons. now left.
  - rewrite enumerate_from_cons. right.
    replace (s + S i)%nat with (S s + i)%nat by lia. now apply IH.
Qed.

Lemma nth_error_in_enumerate (A : Type) (l : list A) i x :
  nth_error l i = Some x -> In (i, x) (enumerate l).
Proof. apply (nth_error_in_enumerate_from A l 0). Qed.

Section Positional.
Variable mid : string.
Variable mk : nat -> option nat -> Role.
Hypothesis mk_plain : forall i, role_suffix (mk i None) = (mid ++ str i)%string.
Hypothesis mk_chunk :
  forall i j,
    role_suffix (mk i (Some j)) = (mid ++ str i ++ "_chunk_" ++ str j)%string.
Hypothesis mk_inj :
  forall i c i' c', mk i c = mk i' c' -> i = i' /\ c = c'.

Lemma transfers_positional (op_type : string) (tensors : dict TensorInfo)
  (addrs : dict Z) (name pe_name : string) (capacity : Z)
  (slots : list string) :
  positional mid op_type tensors addrs name pe_name capacity slots
    (transfers mid op_type tensors addrs name pe_name capacity
       (enumerate slots)).
Proof.
  split; [|split].
  - intros o Ho. unfold transfers, slot_transfer in Ho.
    apply in_flat_map in Ho. destruct Ho as ([i x] & Hin & Ho).
    cbn [fst snd] in Ho. destruct (is_empty x) eqn:Ex; [destruct Ho|].
    exists i, x. split; [now apply in_enumerate|].
    split; [now apply is_empty_false|]. split; [exact Ho|].
    unfold chunks in Ho. apply in_map_iff in Ho. destruct Ho as (j & <- & _).
    cbn [id]. unfold chunk_id_of.
    destruct (_ =? 1); [now left|]. right. exists j.
    now rewrite !string_app_assoc.
  - intros i x o Hnth Hne Ho. unfold transfers. apply in_flat_map.
    exists (i, x). split; [now apply nth_error_in_enumerate|].
    unfold slot_transfer. cbn [fst snd].
    apply is_empty_false in Hne. now rewrite Hne.
  - intros i o Hnth Ho.
    assert (Hid : In (id o)
                    (map (render name)
                       (slot_roles mk tensors capacity (enumerate slots)))).
    { rewrite <- (transfers_ids mid mk mk_plain mk_chunk tensors addrs
                    op_type name pe_name capacity).
      now apply in_map. }
    apply in_map_iff in Hid. destruct Hid as (r & Hr & Hin).
    apply slot_roles_in in Hin. destruct Hin as (i' & x' & c' & Hin & Hx' & ->).
    apply in_enumerate in Hin.
    assert (Hno : forall c, render name (mk i' c') <> render name (mk i c)).
    { intros c Heq. apply render_inj in Heq. destruct Heq as [_ Heq].
      apply mk_inj in Heq. destruct Heq as [-> _].
      rewrite Hnth in Hin. injection Hin as <-. discriminate. }
    rewrite <- Hr. split.
    + intros Heq. apply (Hno None). unfold render at 2. now rewrite mk_plain.
    + intros j Heq. apply (Hno (Some j)). unfold render at 2.
      now rewrite mk_chunk.
Qed.
End Positional.

(** The first chunk of a slot, when the capacity is positive. *)
Lemma chunk_roles_first (mk : option nat -> Role) (total capacity : Z) :
  1 <= total -> 1 <= capacity ->
  In (mk None) (chunk_roles mk total capacity)
  \/ In (mk (Some 0%nat)) (chunk_roles mk total capacity).
Proof.
  intros Ht Hc. unfold chunk_roles.
  destruct (ceil_div_bounds total capacity Ht Hc) as (Hq & _).
  set (q := (total + capacity - 1) / capacity) in *. clearbody q.
  destruct (Z.to_nat q) as [|n] eqn:E; [lia|].
  cbn [seq map]. destruct (q =? 1); [left | right]; now left.
Qed.

Lemma slot_roles_first (mk : nat -> option nat -> Role)
  (tensors : dict TensorInfo) (capacity : Z) (slots : list string)
  (i : nat) (x : string) :
  1 <= capacity -> 1 <= size_bytes_of tensors x ->
  nth_error slots i = Some x -> x <> "" ->
  In (mk i None) (slot_roles mk tensors capacity (enumerate slots))
  \/ In (mk i (Some 0%nat)) (slot_roles mk tensors capacity (enumerate slots)).
Proof.
  intros Hc Hs Hnth Hne.
  assert (Hin : forall r,
            In r (chunk_roles (mk i) (size_bytes_of tensors x) capacity) ->
            In r (slot_roles mk tensors capacity (enumerate slots))).
  { intros r Hr. unfold slot_roles. apply in_flat_map. exists (i, x).
    split; [now apply nth_error_in_enumerate|]. cbn [fst snd].
    apply is_empty_false in Hne. now rewrite Hne. }
  destruct (chunk_roles_first (mk i) _ _ Hs Hc) as [H|H];
    [left | right]; now apply Hin.
Qed.

Section IndexClaim.
Variable py_int : string -> option Z.
Variable py_int_base0 : string -> option Z.

(** C10, amended. The records of operation [k] are those of the element
    under the cursor and of the capacity read for it.  The id of a load
    (resp. store) is the name of the operation followed by [_load_<i>]
    (resp. [_store_<i>]), with [_chunk_<j>] after it when the transfer is
    split, where [i] is the position of a non-empty slot in the full input
    (resp. output) list, empty slots counted; nothing is named after an
    empty slot.  When the capacity is at least 1, every non-empty slot
    [i] has a record named [<op>_load_<i>] or [<op>_load_<i>_chunk_0]
    (resp. [_store_]). *)
Theorem transfer_index_is_position (g : GraphProto) (p : PlatformConfig)
  (t : Timetable) (k : nat) (nd : NodeProto) :
  onnx_to_gwr_timetable py_int py_int_base0 g p = Ok t ->
  nth_error (graph_node g) k = Some nd ->
  exists (addrs : dict Z) (pe_name : string) (capacity : Z) (w : Lowered),
    _layout_tensors py_int py_int_base0 (_collect_tensors g) p = Ok addrs
    /\ nth_error (pe_names_of p)
         (cursor_after (List.length (processing_elements p)) k)
       = Some pe_name
    /\ _get_pe_sram_bytes py_int_base0 p pe_name = Ok capacity
    /\ (existsb non_empty (node_input nd ++ node_output nd) = true ->
        capacity <> 0)
    /\ w = lowered (_collect_tensors g) addrs pe_name capacity nd
    /\ nodes t = flat_map lowered_nodes (lowering py_int_base0 g p addrs)
    /\ nth_error (lowering py_int_base0 g p addrs) k = Some w
    /\ map id (lowered_nodes w)
       = map (render (node_name nd))
           (slot_roles RLoad (_collect_tensors g) capacity
              (enumerate (node_input nd))
            ++ [RCompute]
            ++ slot_roles RStore (_collect_tensors g) capacity
                 (enumerate (node_output nd)))
    /\ positional "_load_" "load" (_collect_tensors g) addrs (node_name nd)
         pe_name capacity (node_input nd) (loads w)
    /\ positional "_store_" "store" (_collect_tensors g) addrs (node_name nd)
         pe_name capacity (node_output nd) (stores w)
    /\ (1 <= capacity ->
        (forall i x,
            nth_error (node_input nd) i = Some x -> x <> "" ->
            In (node_name nd ++ "_load_" ++ str i)%string (map id (loads w))
            \/ In (node_name nd ++ "_load_" ++ str i ++ "_chunk_" ++ str 0)%string
                 (map id (loads w)))
        /\ (forall i x,
              nth_error (node_output nd) i = Some x -> x <> "" ->
              In (node_name nd ++ "_store_" ++ str i)%string
                (map id (stores w))
              \/ In (node_name nd ++ "_store_" ++ str i ++ "_chunk_"
                     ++ str 0)%string
                   (map id (stores w)))).
Proof.
  intros Hconv Hk.
  destruct (convert_inv py_int py_int_base0 g p t Hconv)
    as (addrs & Hlayout & Hpes & Hnodes & _ & _).
  destruct (lowering_nth py_int_base0 g p addrs k nd Hpes Hk)
    as (pe_name & Hpe & Hnth).
  pose proof (pe_names_length p Hpes) as Hlen.
  assert (HK : List.length (pe_names_of p)
               = List.length (processing_elements p))
    by (unfold pe_names_of; apply length_map).
  assert (Hcap : exists capacity,
            _get_pe_sram_bytes py_int_base0 p pe_name = Ok capacity
            /\ (existsb non_empty (node_input nd ++ node_output nd) = true ->
                capacity <> 0)).
  { assert (Hrun : exists st,
              foldM
                (lower_node py_int_base0 p (_collect_tensors g) addrs
                   (pe_names_of p))
                (enumerate_from 0 (graph_node g)) (0%nat, [], []) = Ok st).
    { revert Hconv. unfold onnx_to_gwr_timetable. rewrite Hlayout.
      cbn [bind]. unfold pe_names_of.
      destruct (processing_elements p); [congruence|].
      change (enumerate (graph_node g))
        with (enumerate_from 0 (graph_node g)).
      destruct (foldM _ _ _) as [st|e]; [eauto | discriminate]. }
    destruct Hrun as (st & Hrun).
    destruct (walk_ok_capacity py_int_base0 p (_collect_tensors g) addrs
                (pe_names_of p) (graph_node g) 0 0 [] [] st Hlen
                (graph_covered py_int py_int_base0 g p addrs Hlayout) Hrun
                k nd Hk) as (capacity & Hget & Hnz).
    exists capacity. split; [|exact Hnz].
    rewrite cursor_after_mod in Hpe. rewrite Nat.add_0_l, HK in Hget.
    unfold pe_at in Hget. now rewrite (nth_error_nth _ _ _ Hpe) in Hget. }
  destruct Hcap as (capacity & Hget & Hnz).
  assert (Hcapof : capacity_of py_int_base0 p pe_name = capacity)
    by (unfold capacity_of; now rewrite Hget).
  rewrite Hcapof in Hnth.
  exists addrs, pe_name, capacity,
    (lowered (_collect_tensors g) addrs pe_name capacity nd).
  split; [exact Hlayout|]. split; [exact Hpe|]. split; [exact Hget|].
  split; [exact Hnz|]. split; [reflexivity|]. split; [exact Hnodes|].
  split; [exact Hnth|]. split; [apply lowered_ids|].
  cbn [lowered loads stores].
  split; [apply (transfers_positional "_load_" RLoad); auto using RLoad_inj|].
  split; [apply (transfers_positional "_store_" RStore);
          auto using RStore_inj|].
  assert (Hsize : forall x, In x (node_input nd ++ node_output nd) ->
                            x <> "" ->
                            1 <= size_bytes_of (_collect_tensors g) x).
  { intros x Hx Hne.
    destruct (collect_tensors_lookup g x Hne) as (info & Hinfo & Hres).
    - right. right. unfold node_tensor_names. apply in_flat_map.
      exists nd. split; [eapply nth_error_In, Hk | exact Hx].
    - unfold size_bytes_of. rewrite Hinfo. now apply resolved_size. }
  intros Hc. split; intros i x Hnth' Hne.
  - rewrite (transfers_ids "_load_" RLoad) by reflexivity.
    destruct (slot_roles_first RLoad (_collect_tensors g) capacity
                (node_input nd) i x Hc) as [H|H]; auto.
    + apply Hsize; [|exact Hne]. apply in_or_app. left.
      eapply nth_error_In, Hnth'.
    + left. apply (in_map (render (node_name nd))) in H. exact H.
    + right. apply (in_map (render (node_name nd))) in H. exact H.
  - rewrite (transfers_ids "_store_" RStore) by reflexivity.
    destruct (slot_roles_first RStore (_collect_tensors g) capacity
                (node_output nd) i x Hc) as [H|H]; auto.
    + apply Hsize; [|exact Hne]. apply in_or_app. right.
      eapply nth_error_In, Hnth'.
    + left. apply (in_map (render (node_name nd))) in H. exact H.
    + right. apply (in_map (render (node_name nd))) in H. exact H.
Qed.
End IndexClaim.

(** ** Errors *)

Lemma first_unnamed_some (nds : list NodeProto) :
  forall s i,
    first_unnamed s nds = Some i ->
    (s <= i)%nat
    /\ exists nd,
        nth_error nds (i - s) = Some nd /\ node_name nd = ""
        /\ forall j nd', (j < i - s)%nat -> nth_error nds j = Some nd' ->
                         node_name nd' <> "".
Proof.
  induction nds as [|nd r IH]; intros s i H; [discriminate|].
  cbn [first_unnamed] in H. destruct (is_empty (node_name nd)) eqn:E.
  - injection H as <-. split; [lia|]. exists nd. rewrite Nat.sub_diag.
    split; [reflexivity|]. split; [now apply is_empty_true | intros; lia].
  - apply IH in H. destruct H as (Hle & nd0 & Hnth & Hname & Hbefore).
    split; [lia|]. exists nd0.
    replace (i - s)%nat with (S (i - S s)) by lia.
    split; [exact Hnth|]. split; [exact Hname|].
    intros [|j] nd' Hj Hnd'.
    + injection Hnd' as <-. now apply is_empty_false.
    + apply (Hbefore j); [lia | exact Hnd'].
Qed.

Lemma first_unnamed_at (nds : list NodeProto) :
  forall s k nd,
    nth_error nds k = Some nd -> node_name nd = "" ->
    (forall j nd', (j < k)%nat -> nth_error nds j = Some nd' ->
                   node_name nd' <> "") ->
    first_unnamed s nds = Some (s + k)%nat.
Proof.
  induction nds as [|nd0 r IH]; intros s k nd Hk Hname Hbefore;
    destruct k as [|k]; try discriminate.
  - injection Hk as ->. cbn [first_unnamed].
    apply is_empty_true in Hname. rewrite Hname. f_equal. lia.
  - cbn [first_unnamed].
    assert (Hne : node_name nd0 <> "") by (apply (Hbefore 0%nat); [lia | reflexivity]).
    apply is_empty_false in Hne. rewrite Hne.
    replace (s + S k)%nat with (S s + k)%nat by lia.
    apply (IH (S s) k nd); [exact Hk | exact Hname |].
    intros j nd' Hj Hnd'. apply (Hbefore (S j)); [lia | exact Hnd'].
Qed.

Lemma first_unnamed_none (nds : list NodeProto) :
  forall s,
    first_unnamed s nds = None <-> (forall nd, In nd nds -> node_name nd <> "").
Proof.
  induction nds as [|nd r IH]; intros s; cbn [first_unnamed].
  - split; [intros _ nd [] | reflexivity].
  - destruct (is_empty (node_name nd)) eqn:E.
    + split; [discriminate|]. intros H. exfalso.
      apply (H nd (or_introl eq_refl)). now apply is_empty_true.
    + rewrite IH. apply is_empty_false in E. split.
      * intros H nd' [<-|Hin]; auto.
      * intros H nd' Hin. apply H. now right.
Qed.

Section ErrorClaims.
Variable py_int : string -> option Z.
Variable py_int_base0 : string -> option Z.

(** C9. Every non-empty name that the graph refers to has exactly one
    record, of at least one byte, so the lookups of the builder succeed:
    the address, the size, and the record read for [num_ops]; a
    conversion never ends in a missing key, nor in the error of an
    output tensor that is not found. *)
Theorem resolver_total (g : GraphProto) (name : string) :
  name <> "" ->
  referenced g name ->
  let tensors := _collect_tensors g in
  NoDup (dict_keys tensors)
  /\ In name (dict_keys tensors)
  /\ (exists shape dtype size,
        dict_get tensors name = Some (Some shape, dtype, size)
        /\ size = _get_tensor_size_bytes shape dtype
        /\ 1 <= size)
  /\ (exists info, dict_lookup tensors name = Ok info)
  /\ (exists num_ops, _calculate_num_ops tensors name = Ok num_ops)
  /\ (forall p addrs,
        _layout_tensors py_int py_int_base0 tensors p = Ok addrs ->
        exists a, dict_lookup addrs name = Ok a)
  /\ (forall p e,
        onnx_to_gwr_timetable py_int py_int_base0 g p = Err e ->
        (forall key, e <> KeyError key)
        /\ e <> IndexError
        /\ (forall x,
              e <> ValueError
                     ("Output tensor '" ++ x ++ "' not found in tensors"))).
Proof.
  intros Hne Href tensors.
  destruct (collect_tensors_well_resolved g) as [Hnd Hall].
  pose proof (collect_tensors_covers g name Hne Href) as Hin.
  destruct (collect_tensors_lookup g name Hne Href) as (info & Hinfo & Hres).
  pose proof (resolved_size info Hres) as Hsize.
  destruct Hres as (shape & Hshape).
  destruct info as [[sh dt] sz]. cbn in Hshape, Hsize.
  injection Hshape as -> Hsz.
  split; [exact Hnd|]. split; [exact Hin|]. split.
  { exists shape, dt, sz. auto. }
  split.
  { unfold dict_lookup. fold tensors in Hinfo. rewrite Hinfo. eauto. }
  split.
  { unfold _calculate_num_ops. fold tensors in Hinfo. rewrite Hinfo. eauto. }
  split.
  { intros p addrs Hlayout.
    destruct (layout_covers py_int py_int_base0 tensors p addrs Hnd Hlayout
                name Hin) as (a & Ha).
    exists a. unfold dict_lookup. now rewrite Ha. }
  intros p e Herr.
  apply convert_error in Herr.
  destruct Herr as [Hl|[[_ ->]|[(index & _ & ->)|[->|(literal & ->)]]]];
    [apply layout_error in Hl;
     destruct Hl as [->|[->|(literal & ->)]]| | | |];
    (split; [|split]); try discriminate; intros; discriminate.
Qed.

(** C8, amended. A graph with an operation that has no name gives no
    timetable, on any platform.  When the memory layout succeeds, the list
    of processing elements is not empty and every capacity is read as a
    number other than zero, the error is the one that names the index of
    the first such operation, and a graph whose operations all have a name
    is converted.  Without these assumptions another error can come first;
    every error of a conversion is one of: the two errors of a platform
    without memory maps or ranges, the error of a platform without
    processing elements, the error that names the first operation without
    a name, a division by zero, or the [ValueError] that the built-in
    [int] raises on a literal ([InvalidLiteral]). *)
Theorem unnamed_operation_aborts (g : GraphProto) (p : PlatformConfig) :
  ((exists nd, In nd (graph_node g) /\ node_name nd = "") ->
   exists e, onnx_to_gwr_timetable py_int py_int_base0 g p = Err e)
  /\ (forall addrs,
        _layout_tensors py_int py_int_base0 (_collect_tensors g) p = Ok addrs ->
        processing_elements p <> [] ->
        capacities_usable py_int_base0 p (pe_names_of p) ->
        (forall index nd,
            nth_error (graph_node g) index = Some nd ->
            node_name nd = "" ->
            (forall j nd', (j < index)%nat ->
                           nth_error (graph_node g) j = Some nd' ->
                           node_name nd' <> "") ->
            onnx_to_gwr_timetable py_int py_int_base0 g p
            = Err (ValueError
                     ("Node at index " ++ str index
                      ++ " is missing a name")))
        /\ ((forall nd, In nd (graph_node g) -> node_name nd <> "") ->
            exists t,
              onnx_to_gwr_timetable py_int py_int_base0 g p = Ok t))
  /\ (forall e,
        onnx_to_gwr_timetable py_int py_int_base0 g p = Err e ->
        (_layout_tensors py_int py_int_base0 (_collect_tensors g) p = Err e
         /\ (e = ValueError "No memory maps found in platform configuration"
             \/ e = ValueError
                      "No memory ranges found in platform configuration"
             \/ exists literal, e = InvalidLiteral literal))
        \/ (exists addrs,
              _layout_tensors py_int py_int_base0 (_collect_tensors g) p
              = Ok addrs
              /\ ((processing_elements p = []
                   /\ e = ValueError
                            "No processing elements found in platform configuration")
                  \/ (processing_elements p <> []
                      /\ ((exists index nd,
                              nth_error (graph_node g) index = Some nd
                              /\ node_name nd = ""
                              /\ (forall j nd',
                                     (j < index)%nat ->
                                     nth_error (graph_node g) j = Some nd' ->
                                     node_name nd' <> "")
                              /\ e = ValueError
                                       ("Node at index " ++ str index
                                        ++ " is missing a name"))
                          \/ e = ZeroDivisionError
                          \/ exists literal, e = InvalidLiteral literal))))).
Proof.
  split; [|split].
  - intros (nd & Hin & Hname).
    destruct (onnx_to_gwr_timetable py_int py_int_base0 g p) as [t|e] eqn:H;
      [|eauto].
    exfalso. apply convert_inv in H.
    destruct H as (addrs & _ & _ & _ & _ & Hnone).
    rewrite first_unnamed_none in Hnone. now apply (Hnone nd Hin).
  - intros addrs Hlayout Hpes Hcap.
    pose proof (convert_progress py_int py_int_base0 g p addrs Hlayout Hpes
                  Hcap) as Hconv.
    split.
    + intros index nd Hnth Hname Hbefore.
      rewrite (first_unnamed_at (graph_node g) 0 index nd Hnth Hname Hbefore)
        in Hconv.
      exact Hconv.
    + intros Hall. rewrite <- (first_unnamed_none (graph_node g) 0) in Hall.
      rewrite Hall in Hconv. eauto.
  - intros e Herr.
    destruct (_layout_tensors py_int py_int_base0 (_collect_tensors g) p)
      as [addrs|e'] eqn:Hlayout.
    + right. exists addrs. split; [reflexivity|].
      destruct (processing_elements p) as [|pe0 pes] eqn:Hp.
      * left. split; [reflexivity|].
        revert Herr. unfold onnx_to_gwr_timetable.
        rewrite Hlayout, Hp. cbn [bind]. congruence.
      * right. split; [discriminate|].
        apply convert_error in Herr. rewrite Hlayout, Hp in Herr.
        destruct Herr
          as [Hl|[[Hnil _]|[(index & Hfirst & ->)|[->|(literal & ->)]]]];
          [discriminate | discriminate | | auto | eauto].
        apply first_unnamed_some in Hfirst.
        destruct Hfirst as (_ & nd & Hnth & Hname & Hbefore).
        rewrite Nat.sub_0_r in *. left. exists index, nd. auto.
    + left. assert (e = e') as ->.
      { revert Herr. unfold onnx_to_gwr_timetable. rewrite Hlayout.
        cbn [bind]. congruence. }
      split; [reflexivity|]. now apply layout_error in Hlayout.
Qed.
End ErrorClaims.

(** ** Uniqueness of ids *)

Section IdClaims.
Variable py_int : string -> option Z.
Variable py_int_base0 : string -> option Z.

(** C2, amended. The ids of the nodes of a timetable are pairwise distinct
    exactly when the operations of the graph have pairwise distinct names:
    names that only overlap do not collide, and the id [<name>_compute]
    occurs as many times as there are operations named [<name>], so two
    operations of one name emit it twice. *)
Theorem unique_ids_for_distinct_names (g : GraphProto) (p : PlatformConfig)
  (t : Timetable) :
  onnx_to_gwr_timetable py_int py_int_base0 g p = Ok t ->
  (NoDup (map node_name (graph_node g)) -> NoDup (map id (nodes t)))
  /\ (NoDup (map id (nodes t)) -> NoDup (map node_name (graph_node g)))
  /\ (forall name,
        count_occ string_dec (map id (nodes t)) (name ++ "_compute")%string
        = count_occ string_dec (map node_name (graph_node g)) name).
Proof.
  intros Hconv.
  destruct (convert_inv py_int py_int_base0 g p t Hconv)
    as (addrs & _ & _ & -> & _ & _).
  unfold lowering. split; [|split].
  - apply walk_ids_nodup.
  - apply walk_ids_names.
  - intros name. apply walk_compute_count.
Qed.
End IdClaims.

(** C1. At [graph_declared_initializer] the declared type of [W] gives the
    shape [[None, 4]] and the dtype FLOAT, which the loop over the declared
    lists records as 16 bytes; the loop over the initializers then writes
    the record of [W] again, from the initializer alone: shape [[2, 4]],
    32 bytes. *)
Theorem initializer_overrides_declared :
  let declared :=
    tensor_of [dim_param "N"; dim_value 4] TensorProto.FLOAT in
  _shape_from_type_proto declared = Some [None; Some 4]
  /\ _dtype_from_type_proto declared = Some TensorProto.FLOAT
  /\ fold_left
       (collect_declared
          (initializer_map_of (graph_initializer graph_declared_initializer)))
       (graph_input graph_declared_initializer) []
     = [("W", (Some [None; Some 4], TensorProto.FLOAT, 16))]
  /\ _collect_tensors graph_declared_initializer
     = [("W", (Some [Some 2; Some 4], TensorProto.FLOAT, 32))].
Proof. repeat split. Qed.

(** C2, as stated, fails: two operations named [a] both emit [a_load_0],
    [a_compute] and [a_store_0]. *)
Lemma duplicate_names_share_ids :
  exists t,
    onnx_to_gwr_timetable no_literal no_literal graph_duplicate_names
      platform_one_pe = Ok t
    /\ map id (nodes t)
       = ["a_load_0"; "a_compute"; "a_store_0";
          "a_load_0"; "a_compute"; "a_store_0"]
    /\ ~ NoDup (map id (nodes t)).
Proof.
  eexists. split; [vm_compute; reflexivity|]. split; [reflexivity|].
  intros H. inversion H as [|? ? Hnotin _]. apply Hnotin. simpl. tauto.
Qed.

(** C6, as stated, fails: with two operations named [a] the first edge of
    the timetable runs from [a_load_0] to [a_compute], and these are the
    ids of the load of the first operation and of the compute record of
    the second. *)
Lemma duplicate_names_cross_edge :
  exists t addrs ws w1 w2 e n1 n2,
    onnx_to_gwr_timetable no_literal no_literal graph_duplicate_names
      platform_one_pe = Ok t
    /\ _layout_tensors no_literal no_literal
         (_collect_tensors graph_duplicate_names) platform_one_pe = Ok addrs
    /\ ws = lowering no_literal graph_duplicate_names platform_one_pe addrs
    /\ nodes t = flat_map lowered_nodes ws
    /\ edges t = flat_map lowered_edges ws
    /\ In e (edges t)
    /\ nth_error ws 0 = Some w1
    /\ In n1 (loads w1)
    /\ In n1 (lowered_nodes w1)
    /\ id n1 = edge_from e
    /\ nth_error ws 1 = Some w2
    /\ n2 = compute w2
    /\ In n2 (lowered_nodes w2)
    /\ id n2 = edge_to e.
Proof.
  eexists. exists [("x", 4096); ("y", 4160); ("z", 4224)].
  eexists. do 2 eexists.
  exists (data_edge "a_load_0" "a_compute").
  do 2 eexists.
  split; [vm_compute; reflexivity|].
  split; [reflexivity|].
  split; [reflexivity|].
  split; [vm_compute; reflexivity|].
  split; [vm_compute; reflexivity|].
  split; [vm_compute; tauto|].
  split; [vm_compute; reflexivity|].
  split; [vm_compute; left; reflexivity|].
  split; [vm_compute; left; reflexivity|].
  split; [reflexivity|].
  split; [vm_compute; reflexivity|].
  split; [reflexivity|].
  split; [vm_compute; tauto | reflexivity].
Qed.

(** C8, as stated, fails: on a processing element of capacity 0 the first
    operation of [graph_unnamed], which has a name, divides by zero before
    the walk reaches the operation without a name. *)
Lemma unnamed_operation_divides_by_zero :
  onnx_to_gwr_timetable no_literal no_literal graph_unnamed
    platform_zero_capacity
  = Err ZeroDivisionError.
Proof. reflexivity. Qed.

(** C10, as stated, fails: on a processing element of capacity -4 the
    operation of [graph_add0], whose input slot 1 holds the tensor [x] of
    48 bytes, emits no load at all. *)
Lemma negative_capacity_emits_no_load :
  exists t,
    onnx_to_gwr_timetable no_literal no_literal graph_add0
      platform_negative_capacity = Ok t
    /\ nth_error (node_input
                    {| node_name := "add0"; node_op_type := "Add";
                       node_input := [""; "x"]; node_output := ["y"] |}) 1
       = Some "x"
    /\ map id (nodes t) = ["add0_compute"].
Proof.
  eexists. split; [vm_compute; reflexivity|]. split; reflexivity.
Qed.

(** ** The tensor table, name by name *)

Lemma add_key_first_occurrences (l : list string) :
  fold_left add_key l [] = first_occurrences l.
Proof.
  unfold first_occurrences.
  induction l as [|x l IH] using rev_ind; [reflexivity|].
  rewrite fold_left_app, rev_app_distr. cbn [fold_left rev app nodup].
  rewrite IH. unfold add_key.
  destruct (in_dec string_dec x (rev (nodup string_dec (rev l)))) as [Hin|Hnin];
    destruct (in_dec string_dec x (rev l)) as [Hin'|Hnin']; try reflexivity.
  - exfalso. apply Hnin'. apply in_rev in Hin. now apply nodup_In in Hin.
  - exfalso. apply Hnin. apply in_rev. rewrite rev_involutive.
    now apply nodup_In.
Qed.

Lemma dict_keys_set_add_key (V : Type) (d : dict V) k v :
  dict_keys (dict_set d k v) = add_key (dict_keys d) k.
Proof.
  rewrite dict_keys_set. unfold add_key.
  destruct (dict_mem d k) eqn:E; destruct (in_dec string_dec k (dict_keys d));
    try reflexivity.
  - apply dict_mem_in_keys in E. contradiction.
  - apply dict_mem_in_keys in i. congruence.
Qed.

Lemma fold_keys (A V : Type) (key : A -> string) (f : dict V -> A -> dict V) :
  (forall d a, dict_keys (f d a) = add_key (dict_keys d) (key a)) ->
  forall l d,
    dict_keys (fold_left f l d) = fold_left add_key (map key l) (dict_keys d).
Proof.
  intros Hf. induction l as [|a r IH]; intros d; [reflexivity|].
  cbn [fold_left map]. now rewrite IH, Hf.
Qed.

Lemma collect_referenced_keys (names : list string) :
  forall d,
    dict_keys (fold_left collect_referenced names d)
    = fold_left add_key (filter non_empty names) (dict_keys d).
Proof.
  induction names as [|x r IH]; intros d; [reflexivity|].
  cbn [fold_left filter]. rewrite IH. unfold collect_referenced.
  replace (non_empty x) with (negb (is_empty x)) by reflexivity.
  destruct (is_empty x) eqn:Ex; cbn [negb]; [reflexivity|].
  cbn [fold_left]. f_equal.
  destruct (dict_mem d x) eqn:Em.
  - unfold add_key. apply dict_mem_in_keys in Em.
    destruct (in_dec string_dec x (dict_keys d)); [reflexivity | contradiction].
  - apply dict_keys_set_add_key.
Qed.

Lemma fold_left_flat_map (A B C : Type) (f : C -> B -> C) (g : A -> list B)
  (l : list A) :
  forall c,
    fold_left (fun acc a => fold_left f (g a) acc) l c
    = fold_left f (flat_map g l) c.
Proof.
  induction l as [|a r IH]; intros c; [reflexivity|].
  cbn [fold_left flat_map]. now rewrite fold_left_app, IH.
Qed.

Lemma filter_flat_map (A B : Type) (p : B -> bool) (g : A -> list B) (l : list A) :
  filter p (flat_map g l) = flat_map (fun a => filter p (g a)) l.
Proof.
  induction l as [|a r IH]; [reflexivity|].
  cbn [flat_map]. now rewrite filter_app, IH.
Qed.

(** X1. The keys of the tensor table, in the order of insertion, are the
    declared names, then the names of the initializers, then the non-empty
    names of the node inputs and outputs, each at its first occurrence. *)
Theorem collect_tensors_keys (g : GraphProto) :
  dict_keys (_collect_tensors g)
  = first_occurrences
      (declared_names g ++ initializer_names g
       ++ filter non_empty (node_tensor_names g)).
Proof.
  unfold _collect_tensors.
  rewrite (fold_left_flat_map _ _ _ collect_referenced
             (fun node => node_input node ++ node_output node)).
  rewrite collect_referenced_keys.
  rewrite (fold_keys _ _ init_name collect_initializer).
  2: { intros d a. destruct (collect_initializer_spec d a) as (s & t & ->).
       apply dict_keys_set_add_key. }
  rewrite (fold_keys _ _ vi_name).
  2: { intros d a.
       destruct (collect_declared_spec
                   (initializer_map_of (graph_initializer g)) d a)
         as (s & t & ->).
       apply dict_keys_set_add_key. }
  cbn [dict_keys map]. rewrite <- !fold_left_app.
  apply add_key_first_occurrences.
Qed.

(** A loop that assigns [val a] to [key a] for each item. *)
Section SetLoop.
Variables (A V : Type) (key : A -> string) (val : A -> V).
Variable f : dict V -> A -> dict V.
Hypothesis f_sets : forall d a, f d a = dict_set d (key a) (val a).

Lemma set_loop_other (l : list A) :
  forall d k, ~ In k (map key l) ->
              dict_get (fold_left f l d) k = dict_get d k.
Proof.
  induction l as [|a r IH]; intros d k Hk; [reflexivity|].
  cbn [fold_left]. rewrite IH by (simpl in Hk; tauto).
  rewrite f_sets. apply dict_get_set_other. simpl in Hk. intuition congruence.
Qed.

Lemma set_loop_last (l1 l2 : list A) (a : A) :
  forall d, ~ In (key a) (map key l2) ->
            dict_get (fold_left f (l1 ++ a :: l2) d) (key a) = Some (val a).
Proof.
  intros d Hk. rewrite fold_left_app. cbn [fold_left].
  rewrite set_loop_other by assumption. rewrite f_sets. apply dict_get_set_same.
Qed.
End SetLoop.

Lemma collect_initializer_sets d init :
  collect_initializer d init
  = dict_set d (init_name init) (initializer_record init).
Proof.
  unfold collect_initializer, initializer_record.
  destruct (init_dims init); reflexivity.
Qed.

Lemma initializer_map_none (inits : list InitializerProto) (name : string) :
  ~ In name (map init_name inits) ->
  dict_get (initializer_map_of inits) name = None.
Proof.
  intros H. unfold initializer_map_of.
  now rewrite (set_loop_other _ _ init_name (fun init => init)
                 (fun m init => dict_set m (init_name init) init)
                 (fun _ _ => eq_refl)).
Qed.

Lemma collect_declared_sets m d vi :
  dict_get m (vi_name vi) = None ->
  collect_declared m d vi = dict_set d (vi_name vi) (declared_record vi).
Proof.
  intros Hm. unfold collect_declared, declared_record. rewrite Hm.
  destruct (_shape_from_type_proto (vi_type vi)),
           (_dtype_from_type_proto (vi_type vi)); reflexivity.
Qed.

Lemma collect_referenced_get d x k v :
  dict_get d k = Some v -> dict_get (collect_referenced d x) k = Some v.
Proof.
  intros H. unfold collect_referenced.
  destruct (is_empty x); [assumption|].
  destruct (dict_mem d x) eqn:Em; [assumption|].
  rewrite dict_get_set_other; [assumption|].
  intros ->. unfold dict_mem in Em. now rewrite H in Em.
Qed.

Lemma collect_referenced_loop_get (names : list string) :
  forall d k v,
    dict_get d k = Some v ->
    dict_get (fold_left collect_referenced names d) k = Some v.
Proof.
  induction names as [|x r IH]; intros d k v H; [assumption|].
  cbn [fold_left]. now apply IH, collect_referenced_get.
Qed.

Lemma collect_referenced_loop_new (names : list string) :
  forall d k,
    dict_get d k = None -> In k names -> k <> "" ->
    dict_get (fold_left collect_referenced names d) k = Some placeholder_record.
Proof.
  induction names as [|x r IH]; intros d k Hnone Hin Hne; [destruct Hin|].
  cbn [fold_left]. destruct (string_dec x k) as [->|Hxk].
  - apply collect_referenced_loop_get. unfold collect_referenced.
    apply is_empty_false in Hne. rewrite Hne. unfold dict_mem. rewrite Hnone.
    apply dict_get_set_same.
  - destruct Hin as [Hin|Hin]; [contradiction|].
    apply IH; [|assumption|assumption].
    unfold collect_referenced. destruct (is_empty x); [assumption|].
    destruct (dict_mem d x); [assumption|].
    rewrite dict_get_set_other; [assumption | congruence].
Qed.

Lemma collect_declared_loop_other m (l : list ValueInfoProto) :
  forall d k, ~ In k (map vi_name l) ->
              dict_get (fold_left (collect_declared m) l d) k = dict_get d k.
Proof.
  induction l as [|w r IH]; intros d k Hk; [reflexivity|].
  cbn [fold_left]. rewrite IH by (simpl in Hk; tauto).
  destruct (collect_declared_spec m d w) as (s & t & ->).
  apply dict_get_set_other. simpl in Hk. intuition congruence.
Qed.

(** X2. An initializer decides the record of its name, whatever the
    declared lists say about it: the record holds the dimensions of the
    last initializer of that name (one element when it has none), its
    element type (FLOAT when it has none) and their byte size. *)
Theorem initializer_record_is_final (g : GraphProto)
  (l1 l2 : list InitializerProto) (init : InitializerProto) :
  graph_initializer g = l1 ++ init :: l2 ->
  ~ In (init_name init) (map init_name l2) ->
  dict_get (_collect_tensors g) (init_name init)
  = Some (initializer_record init).
Proof.
  intros Hsplit Hlast. unfold _collect_tensors.
  rewrite (fold_left_flat_map _ _ _ collect_referenced
             (fun node => node_input node ++ node_output node)).
  apply collect_referenced_loop_get. rewrite Hsplit.
  now apply (set_loop_last _ _ init_name initializer_record collect_initializer
               collect_initializer_sets).
Qed.

(** X3. A name that is declared and is not the name of an initializer
    keeps the record of its last declaration: the declared shape (one
    element when the type has none), the declared element type (FLOAT when
    the type has none) and their byte size. *)
Theorem declared_record_is_final (g : GraphProto)
  (l1 l2 : list ValueInfoProto) (vi : ValueInfoProto) :
  graph_value_info g ++ graph_input g ++ graph_output g = l1 ++ vi :: l2 ->
  ~ In (vi_name vi) (map vi_name l2) ->
  ~ In (vi_name vi) (initializer_names g) ->
  dict_get (_collect_tensors g) (vi_name vi) = Some (declared_record vi).
Proof.
  intros Hsplit Hlast Hinit. unfold _collect_tensors.
  rewrite (fold_left_flat_map _ _ _ collect_referenced
             (fun node => node_input node ++ node_output node)).
  apply collect_referenced_loop_get.
  rewrite (set_loop_other _ _ init_name initializer_record collect_initializer
             collect_initializer_sets) by exact Hinit.
  rewrite Hsplit, fold_left_app. cbn [fold_left].
  set (m := initializer_map_of (graph_initializer g)).
  assert (Hm : dict_get m (vi_name vi) = None)
    by now apply initializer_map_none.
  rewrite collect_declared_sets by exact Hm.
  rewrite collect_declared_loop_other by exact Hlast.
  apply dict_get_set_same.
Qed.

(** X4. A non-empty name that only the nodes mention gets the placeholder:
    one fp32 element, four bytes. *)
Theorem node_only_tensor_is_placeholder (g : GraphProto) (name : string) :
  name <> "" ->
  In name (node_tensor_names g) ->
  ~ In name (declared_names g) ->
  ~ In name (initializer_names g) ->
  dict_get (_collect_tensors g) name = Some placeholder_record.
Proof.
  intros Hne Hnode Hdecl Hinit. unfold _collect_tensors.
  rewrite (fold_left_flat_map _ _ _ collect_referenced
             (fun node => node_input node ++ node_output node)).
  apply collect_referenced_loop_new; [|exact Hnode|exact Hne].
  rewrite (set_loop_other _ _ init_name initializer_record collect_initializer
             collect_initializer_sets) by exact Hinit.
  destruct (dict_get _ name) as [rec|] eqn:E; [|reflexivity].
  exfalso. apply Hdecl.
  assert (Hin : In name (dict_keys
                  (fold_left
                     (collect_declared (initializer_map_of (graph_initializer g)))
                     (graph_value_info g ++ graph_input g ++ graph_output g) [])))
    by (apply dict_get_in_keys; congruence).
  rewrite (fold_keys _ _ vi_name) in Hin.
  2: { intros d a.
       destruct (collect_declared_spec
                   (initializer_map_of (graph_initializer g)) d a)
         as (s & t & ->).
       apply dict_keys_set_add_key. }
  cbn [dict_keys map] in Hin. rewrite add_key_first_occurrences in Hin.
  unfold first_occurrences in Hin. apply in_rev in Hin.
  apply nodup_In in Hin. now apply in_rev in Hin.
Qed.

Lemma num_elements_acc (shape : Shape) :
  forall acc,
    fold_left
      (fun num_elements dim =>
         match dim with
         | None => num_elements * 1
         | Some d => if d <=? 0 then num_elements * 1 else num_elements * d
         end)
      shape acc
    = acc * _get_tensor_num_elements shape.
Proof.
  unfold _get_tensor_num_elements.
  induction shape as [|dim r IH]; intros acc; cbn [fold_left]; [lia|].
  rewrite IH. symmetry. rewrite IH. symmetry.
  destruct dim as [d|]; [destruct (d <=? 0)|]; ring.
Qed.

(** X5. The number of elements of a shape is the product of its
    dimensions, a dimension that is unknown, zero or negative counting as
    one: it is at least one, and the count of two shapes put together is
    the product of their counts. *)
Theorem num_elements_product (s1 s2 : Shape) (dim : option Z) :
  _get_tensor_num_elements (s1 ++ s2)
  = _get_tensor_num_elements s1 * _get_tensor_num_elements s2
  /\ _get_tensor_num_elements (dim :: s2)
     = match dim with
       | Some d => if 0 <? d then d else 1
       | None => 1
       end * _get_tensor_num_elements s2
  /\ 1 <= _get_tensor_num_elements s1.
Proof.
  split; [|split].
  - unfold _get_tensor_num_elements at 1. rewrite fold_left_app.
    fold (_get_tensor_num_elements s1). apply num_elements_acc.
  - unfold _get_tensor_num_elements at 1. cbn [fold_left].
    rewrite num_elements_acc.
    destruct dim as [d|]; [|lia].
    destruct (Z.leb_spec d 0), (Z.ltb_spec 0 d); lia.
  - apply num_elements_pos.
Qed.

(** X6. Every record of the tensor table agrees with the count of
    operations read from it: [_calculate_num_ops] succeeds on its name, and
    the byte size is that count times the width of the element type. *)
Theorem size_is_num_ops_times_width (g : GraphProto) (x : string)
  (shape : option Shape) (dtype size : Z) :
  dict_get (_collect_tensors g) x = Some (shape, dtype, size) ->
  exists num_ops,
    _calculate_num_ops (_collect_tensors g) x = Ok num_ops
    /\ 1 <= num_ops
    /\ size = num_ops * _DTYPE_SIZES_get dtype.
Proof.
  intros Hget.
  destruct (collect_tensors_well_resolved g) as [_ Hall].
  pose proof (dict_get_forall _ _ _ _ _ Hall Hget) as (sh & Hres).
  cbn in Hres. injection Hres as -> ->.
  unfold _calculate_num_ops. rewrite Hget.
  pose proof (num_elements_pos sh).
  exists (Z.max 1 (_get_tensor_num_elements sh)).
  split; [reflexivity|]. split; [lia|].
  unfold _get_tensor_size_bytes. rewrite Z.max_r by lia. reflexivity.
Qed.

(** ** Devices and addresses *)

Lemma first_occurrences_nodup (l : list string) :
  NoDup l -> first_occurrences l = l.
Proof.
  intros H. unfold first_occurrences.
  rewrite nodup_fixed_point by now apply NoDup_rev.
  apply rev_involutive.
Qed.

Lemma assign_all_keys (names : list string) :
  forall (addrs : list Z) (t : dict Z),
    List.length addrs = List.length names ->
    dict_keys (assign_all names addrs t)
    = fold_left add_key names (dict_keys t).
Proof.
  unfold assign_all.
  induction names as [|n r IH]; intros [|a addrs] t Hlen;
    simpl in Hlen; try discriminate; [reflexivity|].
  cbn [combine fold_left fst snd]. rewrite IH by lia.
  now rewrite dict_keys_set_add_key.
Qed.

Lemma assign_all_get_in (names : list string) :
  forall (addrs : list Z) (t : dict Z) (k : string) (a : Z),
    dict_get (assign_all names addrs t) k = Some a ->
    In a addrs \/ dict_get t k = Some a.
Proof.
  unfold assign_all.
  induction names as [|n r IH]; intros [|a0 addrs] t k a H;
    cbn [combine fold_left fst snd] in H; auto.
  destruct (IH _ _ _ _ H) as [Hin|Hget]; [left; now right|].
  destruct (string_dec k n) as [->|Hne].
  - rewrite dict_get_set_same in Hget. injection Hget as ->. left. now left.
  - rewrite dict_get_set_other in Hget by congruence. now right.
Qed.

(** Every address the allocation loop hands out is the start of some
    cursor plus a multiple of 64 bytes. *)
Lemma round_robin_offsets (bases : list Z) (sizes : list Z) :
  forall (cursors : list Z) (i : nat),
    Forall (fun s => 0 <= s) sizes ->
    List.length cursors = List.length bases ->
    (i < List.length bases)%nat ->
    (forall j, (j < List.length bases)%nat ->
               exists m, 0 <= m /\ nth j cursors 0 = nth j bases 0 + 64 * m) ->
    Forall (fun a => exists j m, (j < List.length bases)%nat /\ 0 <= m
                                 /\ a = nth j bases 0 + 64 * m)
      (round_robin sizes cursors i).
Proof.
  induction sizes as [|s r IH]; intros cursors i Hs Hlen Hi Hinv;
    cbn [round_robin]; constructor.
  - destruct (Hinv i Hi) as (m & Hm & E). exists i, m. auto.
  - inversion Hs as [|? ? Hs0 Hsr]; subst.
    apply IH; [assumption | now rewrite length_set_nth | |].
    + rewrite Hlen. apply Nat.mod_upper_bound. lia.
    + intros j Hj. destruct (Nat.eq_dec i j) as [<-|Hne].
      * rewrite nth_set_nth_same by lia.
        destruct (Hinv i Hi) as (m & Hm & ->).
        destruct (aligned_size_bounds s) as [Hb [q Hq]].
        exists (m + q). split; [|lia]. lia.
      * rewrite nth_set_nth_other by assumption. auto.
Qed.

Section AllocatorFacts.
Variable py_int : string -> option Z.
Variable py_int_base0 : string -> option Z.

Lemma init_device_keeps (ranges : list RangeInfo) :
  forall (d0 da : dict Z) (d : string) (v : Z),
    foldM (init_device py_int py_int_base0) ranges d0 = Ok da ->
    dict_get d0 d = Some v -> dict_get da d = Some v.
Proof.
  induction ranges as [|r rs IH]; intros d0 da d v Hrun Hget;
    cbn [foldM] in Hrun; [now injection Hrun as <-|].
  unfold init_device at 1 in Hrun. fold (device_name r) in Hrun.
  destruct (parse_base_address py_int py_int_base0 _) as [base|e];
    [|discriminate].
  cbn [bind] in Hrun.
  destruct (dict_mem d0 (device_name r)) eqn:Hmem; cbn [bind] in Hrun.
  - eapply IH; eauto.
  - eapply IH; [exact Hrun|].
    rewrite dict_get_set_other; [assumption|].
    intros E. apply not_true_iff_false in Hmem. apply Hmem.
    apply dict_mem_in_keys, dict_get_in_keys. congruence.
Qed.

Lemma init_device_keys (ranges : list RangeInfo) :
  forall (d0 da : dict Z),
    foldM (init_device py_int py_int_base0) ranges d0 = Ok da ->
    dict_keys da = fold_left add_key (map device_name ranges) (dict_keys d0).
Proof.
  induction ranges as [|r rs IH]; intros d0 da Hrun; cbn [foldM] in Hrun;
    [now injection Hrun as <-|].
  unfold init_device at 1 in Hrun. fold (device_name r) in Hrun.
  destruct (parse_base_address py_int py_int_base0 _) as [base|e];
    [|discriminate].
  cbn [bind] in Hrun. cbn [map fold_left].
  destruct (dict_mem d0 (device_name r)) eqn:Hmem; cbn [bind] in Hrun.
  - rewrite (IH _ _ Hrun). f_equal. unfold add_key.
    apply dict_mem_in_keys in Hmem.
    destruct (in_dec string_dec _ _); [reflexivity | contradiction].
  - rewrite (IH _ _ Hrun). now rewrite dict_keys_set_add_key.
Qed.

(** X7. The devices of the allocator are the distinct device names of the
    ranges in the order of their first appearance, and a device starts at
    the base address of the first range that names it: a later range with
    the same device changes nothing but must still parse. *)
Theorem device_base_from_first_range (ranges l1 l2 : list RangeInfo)
  (r : RangeInfo) (device_addresses : dict Z) :
  foldM (init_device py_int py_int_base0) ranges [] = Ok device_addresses ->
  ranges = l1 ++ r :: l2 ->
  ~ In (device_name r) (map device_name l1) ->
  dict_keys device_addresses = first_occurrences (map device_name ranges)
  /\ exists base,
       parse_base_address py_int py_int_base0 (range_base r) = Ok base
       /\ dict_get device_addresses (device_name r) = Some base.
Proof.
  intros Hrun -> Hfirst. split.
  - rewrite (init_device_keys _ _ _ Hrun). apply add_key_first_occurrences.
  - rewrite foldM_app in Hrun.
    destruct (foldM (init_device py_int py_int_base0) l1 []) as [d1|e] eqn:H1;
      [|discriminate].
    cbn [bind foldM] in Hrun.
    unfold init_device at 1 in Hrun.
    fold (device_name r) in Hrun. unfold range_base.
    destruct (parse_base_address py_int py_int_base0 _)
      as [base|e]; [|discriminate].
    exists base. split; [reflexivity|]. cbn [bind] in Hrun.
    assert (Hnew : dict_mem d1 (device_name r) = false).
    { apply not_true_iff_false. intros Hmem.
      apply dict_mem_in_keys in Hmem.
      apply (init_device_loop _ _ _ _ _ H1) in Hmem; [|constructor].
      destruct Hmem as [[]|(r' & Hin & E)].
      apply Hfirst. rewrite <- E. now apply in_map. }
    rewrite Hnew in Hrun. cbn [bind] in Hrun.
    apply (init_device_keeps _ _ _ _ _ Hrun). apply dict_get_set_same.
Qed.

(** X8. The address map of the allocator has one entry per tensor, in the
    order in which the tensors were placed: descending size, the order of
    insertion between equal sizes. *)
Theorem addresses_in_placement_order (tensors : dict TensorInfo)
  (p : PlatformConfig) (tensor_addresses : dict Z) :
  NoDup (dict_keys tensors) ->
  _layout_tensors py_int py_int_base0 tensors p = Ok tensor_addresses ->
  dict_keys tensor_addresses = map fst (sorted_by_size tensors).
Proof.
  intros Hnd Hlayout.
  destruct (layout_inv _ _ _ _ _ Hlayout) as (mm & rest & da & _ & _ & _ & ->).
  rewrite assign_all_keys by now rewrite length_round_robin, !length_map.
  change (dict_keys (@nil (string * Z))) with (@nil string).
  rewrite add_key_first_occurrences. apply first_occurrences_nodup.
  apply (Permutation_NoDup (l := dict_keys tensors)); [|assumption].
  unfold dict_keys. apply Permutation_map, sorted_by_size_perm.
Qed.

(** X9. Every address of the allocator lies at a whole number of 64-byte
    blocks above the base address of a device; when the bases are multiples
    of 64, so is every tensor address. *)
Theorem addresses_aligned_from_base (tensors : dict TensorInfo)
  (p : PlatformConfig) (tensor_addresses : dict Z) :
  well_resolved tensors ->
  _layout_tensors py_int py_int_base0 tensors p = Ok tensor_addresses ->
  exists mm rest device_addresses,
    memory_maps p = mm :: rest
    /\ foldM (init_device py_int py_int_base0) (mm_ranges mm) []
       = Ok device_addresses
    /\ forall name addr,
         dict_get tensor_addresses name = Some addr ->
         exists device base blocks,
           dict_get device_addresses device = Some base
           /\ 0 <= blocks
           /\ addr = base + 64 * blocks.
Proof.
  intros [Hnd Hres] Hlayout.
  destruct (layout_inv _ _ _ _ _ Hlayout)
    as (mm & rest & da & Hmm & Hinit & Hlen & ->).
  exists mm, rest, da. split; [assumption|]. split; [assumption|].
  intros name addr Hget.
  apply assign_all_get_in in Hget. destruct Hget as [Hin|Hget]; [|discriminate].
  assert (Hda : NoDup (dict_keys da)).
  { apply (init_device_loop _ _ _ _ _ Hinit). constructor. }
  assert (Hsizes : Forall (fun s => 0 <= s)
                     (map size_of (sorted_by_size tensors))).
  { apply Forall_forall. intros s Hs.
    apply in_map_iff in Hs. destruct Hs as (x & <- & Hx).
    apply (Permutation_in _ (Permutation_sym (sorted_by_size_perm tensors)))
      in Hx.
    rewrite Forall_forall in Hres.
    pose proof (resolved_size _ (Hres _ (in_map snd _ _ Hx))).
    unfold size_of. lia. }
  pose proof (round_robin_offsets (map snd da)
                (map size_of (sorted_by_size tensors)) (map snd da) 0%nat
                Hsizes eq_refl) as Hall.
  rewrite length_map in Hall.
  assert (Hstart : forall j, (j < List.length da)%nat ->
            exists m, 0 <= m
                      /\ nth j (map snd da) 0 = nth j (map snd da) 0 + 64 * m)
    by (intros j _; exists 0; lia).
  specialize (Hall Hlen Hstart).
  rewrite Forall_forall in Hall.
  destruct (Hall _ Hin) as (j & m & Hj & Hm & ->).
  destruct (nth_error (dict_keys da) j) as [device|] eqn:Hdev.
  2: { apply nth_error_None in Hdev. unfold dict_keys in Hdev.
       rewrite length_map in Hdev. lia. }
  exists device, (nth j (map snd da) 0), m.
  split; [now apply dict_get_nth | auto].
Qed.

End AllocatorFacts.

(** ** Capacities and chunks *)

Section Capacity.
Variable py_int_base0 : string -> option Z.

Lemma get_pe_sram_bytes_in_skip (l1 l2 : list ProcessingElement)
  (name : string) :
  (forall q, In q l1 -> pe_name q = name -> declared_sram q = None) ->
  _get_pe_sram_bytes_in py_int_base0 (l1 ++ l2) name
  = _get_pe_sram_bytes_in py_int_base0 l2 name.
Proof.
  induction l1 as [|q r IH]; intros H; [reflexivity|].
  cbn [app _get_pe_sram_bytes_in].
  assert (IH' := IH (fun q' Hq' => H q' (or_intror Hq'))).
  destruct (String.eqb_spec (pe_name q) name) as [E|_]; [|assumption].
  pose proof (H q (or_introl eq_refl) E) as Hq. unfold declared_sram in Hq.
  destruct (pe_config q) as [c|]; [|assumption].
  rewrite Hq. assumption.
Qed.

(** X10. The capacity of an element is the one declared by the first
    element of that name that declares any: elements of the same name
    without [sram_bytes] are passed over, and later ones are not looked
    at. *)
Theorem sram_bytes_first_declared (p : PlatformConfig)
  (l1 l2 : list ProcessingElement) (q : ProcessingElement) (name : string)
  (v : YamlScalar) :
  processing_elements p = l1 ++ q :: l2 ->
  (forall q', In q' l1 -> pe_name q' = name -> declared_sram q' = None) ->
  pe_name q = name ->
  declared_sram q = Some v ->
  _get_pe_sram_bytes py_int_base0 p name = read_capacity py_int_base0 v.
Proof.
  intros Hp Hskip Hname Hv. unfold _get_pe_sram_bytes. rewrite Hp.
  rewrite get_pe_sram_bytes_in_skip by assumption.
  cbn [_get_pe_sram_bytes_in]. rewrite Hname, String.eqb_refl.
  unfold declared_sram in Hv. destruct (pe_config q) as [c|]; [|discriminate].
  rewrite Hv. destruct v; reflexivity.
Qed.

(** X11. Without an element of that name that declares [sram_bytes], the
    capacity is the default of one mebibyte, also for a name that no
    element carries. *)
Theorem sram_bytes_default (p : PlatformConfig) (name : string) :
  (forall q, In q (processing_elements p) -> pe_name q = name ->
             declared_sram q = None) ->
  _get_pe_sram_bytes py_int_base0 p name = Ok (1024 * 1024).
Proof.
  intros H. unfold _get_pe_sram_bytes.
  rewrite <- (app_nil_r (processing_elements p)).
  now rewrite get_pe_sram_bytes_in_skip.
Qed.

End Capacity.

Lemma chunks_length (base_id op_type pe_name : string)
  (base_addr total capacity : Z) :
  List.length (chunks base_id op_type pe_name base_addr total capacity)
  = Z.to_nat ((total + capacity - 1) / capacity).
Proof. unfold chunks. now rewrite length_map, length_seq. Qed.

Lemma chunks_nth (base_id op_type pe_name : string)
  (base_addr total capacity : Z) (i : nat) (o : TimetableNode) :
  nth_error (chunks base_id op_type pe_name base_addr total capacity) i
  = Some o ->
  (i < Z.to_nat ((total + capacity - 1) / capacity))%nat
  /\ chunk_addr o = base_addr + Z.of_nat i * capacity
  /\ chunk_bytes o = Z.min capacity (total - Z.of_nat i * capacity).
Proof.
  unfold chunks. intros H. apply nth_error_map_seq in H.
  destruct H as [Hi ->]. auto.
Qed.

(** X12. The chunks of a transfer tile the tensor: the first starts at the
    base address, each next one starts where the one before ends, and the
    last ends at the end of the tensor. *)
Theorem split_memory_op_tiles (base_id op_type pe_name : string)
  (base_addr total capacity : Z) :
  1 <= total -> 1 <= capacity ->
  exists first rest,
    _split_memory_op base_id op_type pe_name base_addr total capacity
    = Ok (first :: rest)
    /\ chunk_addr first = base_addr
    /\ (forall i o o',
          nth_error (first :: rest) i = Some o ->
          nth_error (first :: rest) (S i) = Some o' ->
          chunk_addr o' = chunk_end o)
    /\ chunk_end (last rest first) = base_addr + total.
Proof.
  intros Ht Hc. rewrite split_memory_op_chunks.
  destruct (Z.eqb_spec capacity 0) as [->|_]; [lia|].
  destruct (ceil_div_bounds _ _ Ht Hc) as (Hq1 & Hlo & Hhi).
  pose proof (chunks_length base_id op_type pe_name base_addr total capacity)
    as Hlen.
  pose proof (chunks_nth base_id op_type pe_name base_addr total capacity)
    as Hnth.
  set (q := (total + capacity - 1) / capacity) in *. clearbody q.
  destruct (chunks base_id op_type pe_name base_addr total capacity)
    as [|first rest]; [simpl in Hlen; lia|].
  exists first, rest. split; [reflexivity|].
  split; [|split].
  - destruct (Hnth 0%nat first eq_refl) as (_ & -> & _). lia.
  - intros i o o' Ho Ho'.
    destruct (Hnth _ _ Ho) as (Hi & Ha & Hb).
    destruct (Hnth _ _ Ho') as (Hi' & Ha' & Hb').
    unfold chunk_end. rewrite Ha, Ha', Hb.
    assert (Hle : Z.of_nat (S i) <= q - 1) by lia.
    assert (Z.of_nat (S i) * capacity <= (q - 1) * capacity)
      by (apply Z.mul_le_mono_nonneg_r; lia).
    lia.
  - assert (Hl : nth_error (first :: rest) (List.length rest)
                 = Some (last rest first)).
    { clear. revert first.
      induction rest as [|b r IH]; intros first; [reflexivity|].
      cbn [List.length nth_error]. now rewrite IH, last_cons. }
    destruct (Hnth _ _ Hl) as (_ & Ha & Hb).
    unfold chunk_end. rewrite Ha, Hb. simpl in Hlen.
    assert (Hn : Z.of_nat (List.length rest) = q - 1) by lia.
    rewrite Hn. lia.
Qed.

(** X13. Nothing checks the sign of a capacity.  With a negative one a
    transfer of a single byte becomes one chunk that carries the capacity
    itself, a negative number of bytes, and a transfer of more bytes is
    split in no chunk at all: the tensor is not moved. *)
Theorem split_memory_op_negative_capacity (base_id op_type pe_name : string)
  (base_addr total capacity : Z) :
  1 <= total -> capacity < 0 ->
  _split_memory_op base_id op_type pe_name base_addr total capacity
  = Ok (if total =? 1
        then [ {| id := base_id;
                  kind := "memory";
                  op := op_type;
                  pe := pe_name;
                  config := MemoryConfig base_addr capacity |} ]
        else []).
Proof.
  intros Ht Hc. unfold _split_memory_op.
  destruct (Z.eqb_spec capacity 0) as [->|Hnz]; [lia|].
  f_equal.
  destruct (Z.eqb_spec total 1) as [->|Hne].
  - replace (1 + capacity - 1) with capacity by lia.
    rewrite Z.div_same by assumption.
    change (Z.to_nat 1) with 1%nat.
    cbn [seq map chunk_id_of Z.eqb Pos.eqb Z.of_nat].
    do 2 f_equal. f_equal; lia.
  - pose proof (Z.div_mod (total + capacity - 1) capacity Hnz) as Hdm.
    pose proof (Z.mod_neg_bound (total + capacity - 1) capacity Hc) as Hr.
    set (q := (total + capacity - 1) / capacity) in *. clearbody q.
    assert (Hq : q <= 0) by nia.
    replace (Z.to_nat q) with 0%nat by lia. reflexivity.
Qed.

(** ** The tables of kinds and types, and the size of a timetable *)

(** X14. The operation kind written to a compute record is [add] or [mul],
    whatever the kind of the ONNX operation, and it is [mul] only for a
    kind of the table. *)
Theorem gwr_op_is_add_or_mul (op_type : string) :
  (_map_onnx_op_to_gwr_op op_type = "add"
   \/ _map_onnx_op_to_gwr_op op_type = "mul")
  /\ (_map_onnx_op_to_gwr_op op_type = "mul" -> In op_type (dict_keys op_map)).
Proof.
  unfold _map_onnx_op_to_gwr_op.
  destruct (dict_get op_map op_type) as [v|] eqn:E.
  - split.
    + apply dict_get_some_in in E. unfold op_map in E. cbn [In] in E.
      repeat (destruct E as [E|E]; [injection E as _ <-; auto|]).
      destruct E.
    + intros _. apply dict_get_in_keys. congruence.
  - split; [now left | discriminate].
Qed.

Lemma dtype_cases (a : Z) :
  In a [1; 2; 3; 4; 5; 6; 7; 9; 10; 11; 12; 13; 14; 15; 16]
  \/ (_dtype_to_string a = "fp32" /\ _DTYPE_SIZES_get a = 4).
Proof.
  unfold _dtype_to_string, _DTYPE_SIZES_get, TensorProto.FLOAT,
    TensorProto.UINT8, TensorProto.INT8, TensorProto.UINT16,
    TensorProto.INT16, TensorProto.INT32, TensorProto.INT64,
    TensorProto.BOOL, TensorProto.FLOAT16, TensorProto.DOUBLE,
    TensorProto.UINT32, TensorProto.UINT64, TensorProto.COMPLEX64,
    TensorProto.COMPLEX128, TensorProto.BFLOAT16.
  cbn [In].
  repeat match goal with
         | |- context [?x =? ?c] =>
             destruct (Z.eqb_spec x c); [subst; tauto|]
         end.
  right. split; reflexivity.
Qed.

(** X15. The dtype string of a compute record tells the width the resolver
    counted per element, with one exception: the complex types are written
    [fp32] like every type outside the table, but counted 8 and 16 bytes. *)
Theorem dtype_string_determines_width (a b : Z) :
  _dtype_to_string a = _dtype_to_string b ->
  _DTYPE_SIZES_get a = _DTYPE_SIZES_get b
  \/ In a [TensorProto.COMPLEX64; TensorProto.COMPLEX128]
  \/ In b [TensorProto.COMPLEX64; TensorProto.COMPLEX128].
Proof.
  destruct (dtype_cases a) as [Ha|[Ha Hsa]];
    destruct (dtype_cases b) as [Hb|[Hb Hsb]].
  - cbn [In] in Ha, Hb.
    repeat (destruct Ha as [Ha|Ha]; [subst a|]); try destruct Ha;
      repeat (destruct Hb as [Hb|Hb]; [subst b|]); try destruct Hb;
      cbn; intros H; (discriminate H || tauto).
  - rewrite Hb, Hsb. cbn [In] in Ha.
    repeat (destruct Ha as [Ha|Ha]; [subst a|]); try destruct Ha;
      cbn; intros H; (discriminate H || tauto).
  - rewrite Ha, Hsa. cbn [In] in Hb.
    repeat (destruct Hb as [Hb|Hb]; [subst b|]); try destruct Hb;
      cbn; intros H; (discriminate H || tauto).
  - intros _. left. congruence.
Qed.

Lemma lowered_counts (ws : list Lowered) :
  List.length (flat_map lowered_nodes ws)
  = (List.length (flat_map lowered_edges ws) + List.length ws)%nat.
Proof.
  induction ws as [|w r IH]; [reflexivity|].
  cbn [flat_map List.length]. rewrite !length_app, IH.
  unfold lowered_nodes, lowered_edges.
  rewrite !length_app, !length_map. cbn [List.length]. lia.
Qed.

Section ConversionFacts.
Variable py_int : string -> option Z.
Variable py_int_base0 : string -> option Z.

(** X16. A timetable has one node more than edges for every operation of
    the graph: each load and each store chunk brings one edge, the compute
    record none. *)
Theorem nodes_edges_count (g : GraphProto) (p : PlatformConfig)
  (t : Timetable) :
  onnx_to_gwr_timetable py_int py_int_base0 g p = Ok t ->
  List.length (nodes t)
  = (List.length (edges t) + List.length (graph_node g))%nat.
Proof.
  intros H.
  destruct (convert_inv py_int py_int_base0 g p t H)
    as (addrs & _ & _ & -> & -> & _).
  rewrite lowered_counts. f_equal. apply length_walk.
Qed.

End ConversionFacts.

(** ** A processing element without room *)

Section ZeroCapacity.
Variable py_int_base0 : string -> option Z.
Variable platform_config : PlatformConfig.
Variable tensors : dict TensorInfo.
Variable tensor_addresses : dict Z.
Variable pe_names : list string.

(** The walk when every capacity can be read: it stops at the first
    operation that names a tensor and sits on an element of capacity 0. *)
Lemma walk_zero_capacity (nds : list NodeProto) :
  forall s c nodes edges,
    (c < List.length pe_names)%nat ->
    all_covered tensors tensor_addresses nds ->
    (forall c, (c < List.length pe_names)%nat ->
       exists capacity,
         _get_pe_sram_bytes py_int_base0 platform_config (pe_at pe_names c)
         = Ok capacity) ->
    first_unnamed s nds = None ->
    ((exists k nd,
         nth_error nds k = Some nd
         /\ moves_data nd = true
         /\ capacity_of py_int_base0 platform_config
              (pe_at pe_names ((c + k) mod List.length pe_names)) = 0)
     /\ foldM
          (lower_node py_int_base0 platform_config tensors tensor_addresses
             pe_names)
          (enumerate_from s nds) (c, nodes, edges)
        = Err ZeroDivisionError)
    \/ ((forall k nd,
           nth_error nds k = Some nd ->
           capacity_of py_int_base0 platform_config
             (pe_at pe_names ((c + k) mod List.length pe_names)) = 0 ->
           moves_data nd = false)
        /\ exists st,
             foldM
               (lower_node py_int_base0 platform_config tensors
                  tensor_addresses pe_names)
               (enumerate_from s nds) (c, nodes, edges)
             = Ok st).
Proof.
  induction nds as [|nd r IH]; intros s c nodes edges Hc Hcov Hcap Hnamed.
  - right. split; [intros [|k] nd H; discriminate H|].
    eexists. reflexivity.
  - rewrite enumerate_from_cons. cbn [foldM].
    rewrite lower_node_covered by (try assumption; apply Hcov; now left).
    cbn [first_unnamed] in Hnamed.
    destruct (is_empty (node_name nd)); [discriminate|].
    destruct (Hcap c Hc) as (capacity & Hget). rewrite Hget. cbn [bind].
    assert (Hhere : capacity_of py_int_base0 platform_config
                      (pe_at pe_names ((c + 0) mod List.length pe_names))
                    = capacity).
    { rewrite Nat.add_0_r, Nat.mod_small by assumption.
      unfold capacity_of. now rewrite Hget. }
    fold (moves_data nd).
    destruct ((capacity =? 0) && moves_data nd) eqn:Ez.
    + left. apply andb_true_iff in Ez. destruct Ez as [Ez Hm].
      apply Z.eqb_eq in Ez. split; [|reflexivity].
      exists 0%nat, nd. split; [reflexivity|]. split; [assumption|].
      now rewrite Hhere.
    + cbn [bind].
      destruct (IH (S s) (next_pe pe_names c)
                  (nodes ++ lowered_nodes
                     (lowered tensors tensor_addresses (pe_at pe_names c)
                        capacity nd))
                  (edges ++ lowered_edges
                     (lowered tensors tensor_addresses (pe_at pe_names c)
                        capacity nd))
                  (next_pe_bound pe_names c Hc)
                  (fun nd' Hnd' => Hcov nd' (or_intror Hnd')) Hcap Hnamed)
        as [[(k & nd' & Hk & Hm & Hz) Hrun]|[Hnone Hrun]].
      * left. split; [|exact Hrun].
        exists (S k), nd'. split; [exact Hk|]. split; [exact Hm|].
        unfold next_pe in Hz. now rewrite mod_succ_add in Hz.
      * right. split; [|exact Hrun].
        intros [|k] nd' Hk Hz.
        -- injection Hk as <-. rewrite Hhere in Hz.
           apply andb_false_iff in Ez. destruct Ez as [Ez|Ez]; [|exact Ez].
           apply Z.eqb_neq in Ez. contradiction.
        -- apply (Hnone k nd' Hk). unfold next_pe.
           now rewrite mod_succ_add.
Qed.

End ZeroCapacity.

Section ZeroCapacityClaim.
Variable py_int : string -> option Z.
Variable py_int_base0 : string -> option Z.

(** X17. When the platform is laid out and has at least one processing
    element, every operation has a name and every capacity can be read,
    the only way for the conversion to fail is
    a division by zero in [_split_memory_op]: it fails so exactly when some
    operation that names a tensor falls, in its round-robin turn, on a
    processing element of capacity 0.  An operation without any tensor
    passes such an element unharmed. *)
Theorem zero_capacity_divides_by_zero (g : GraphProto) (p : PlatformConfig)
  (tensor_addresses : dict Z) :
  _layout_tensors py_int py_int_base0 (_collect_tensors g) p
  = Ok tensor_addresses ->
  processing_elements p <> [] ->
  first_unnamed 0 (graph_node g) = None ->
  (forall q, In q (processing_elements p) ->
     exists capacity,
       _get_pe_sram_bytes py_int_base0 p (pe_name q) = Ok capacity) ->
  (onnx_to_gwr_timetable py_int py_int_base0 g p = Err ZeroDivisionError
   <-> exists k nd,
         nth_error (graph_node g) k = Some nd
         /\ moves_data nd = true
         /\ capacity_of py_int_base0 p
              (pe_at (pe_names_of p)
                 (k mod List.length (processing_elements p))) = 0)
  /\ (onnx_to_gwr_timetable py_int py_int_base0 g p = Err ZeroDivisionError
      \/ exists t, onnx_to_gwr_timetable py_int py_int_base0 g p = Ok t).
Proof.
  intros Hlayout Hpes Hnamed Hcap.
  pose proof (pe_names_length p Hpes) as Hlen.
  assert (HK : List.length (pe_names_of p)
               = List.length (processing_elements p))
    by (unfold pe_names_of; apply length_map).
  assert (Hcap' : forall c, (c < List.length (pe_names_of p))%nat ->
            exists capacity,
              _get_pe_sram_bytes py_int_base0 p (pe_at (pe_names_of p) c)
              = Ok capacity).
  { intros c Hc. unfold pe_at, pe_names_of.
    rewrite HK in Hc.
    destruct (nth_error (processing_elements p) c) as [q|] eqn:Hq.
    2: { apply nth_error_None in Hq. lia. }
    change "" with (pe_name {| pe_name := ""; pe_config := None |}).
    rewrite map_nth. rewrite (nth_error_nth _ _ _ Hq).
    apply Hcap. eapply nth_error_In, Hq. }
  pose proof (walk_zero_capacity py_int_base0 p (_collect_tensors g)
                tensor_addresses (pe_names_of p) (graph_node g) 0 0 [] []
                Hlen (graph_covered py_int py_int_base0 g p tensor_addresses
                        Hlayout) Hcap' Hnamed) as Hwalk.
  rewrite HK in Hwalk. cbn [Nat.add] in Hwalk.
  assert (Hconv : onnx_to_gwr_timetable py_int py_int_base0 g p
                  = st <- foldM
                            (lower_node py_int_base0 p (_collect_tensors g)
                               tensor_addresses (pe_names_of p))
                            (enumerate_from 0 (graph_node g)) (0%nat, [], []) ;;
                    let '(_, nodes, edges) := st in
                    Ok {| nodes := nodes; edges := edges |}).
  { unfold onnx_to_gwr_timetable. rewrite Hlayout. cbn [bind].
    unfold pe_names_of. destruct (processing_elements p); [congruence|].
    reflexivity. }
  rewrite Hconv.
  destruct Hwalk as [[Hex Hrun]|[Hnone (st & Hrun)]]; rewrite Hrun; cbn [bind].
  - split; [|now left]. split; [intros _; exact Hex | reflexivity].
  - destruct st as [[c' nodes'] edges'].
    split; [|right; eexists; reflexivity].
    split; [discriminate|].
    intros (k & nd & Hk & Hm & Hz).
    rewrite (Hnone k nd Hk Hz) in Hm. discriminate.
Qed.

End ZeroCapacityClaim.

(** ** The fabric generator *)

Lemma py_range_length (a b : Z) :
  List.length (py_range a b) = Z.to_nat (b - a).
Proof. unfold py_range. now rewrite length_map, length_seq. Qed.

Lemma py_range_in (a b x : Z) : In x (py_range a b) <-> a <= x < b.
Proof.
  unfold py_range. rewrite in_map_iff. split.
  - intros (k & <- & Hk). apply in_seq in Hk. lia.
  - intros H. exists (Z.to_nat (x - a)). split; [lia|]. apply in_seq. lia.
Qed.

Lemma seq_from (start len : nat) :
  seq start len = map (Nat.add start) (seq 0 len).
Proof.
  revert start. induction len as [|n IH]; intros start; [reflexivity|].
  cbn [seq map]. rewrite Nat.add_0_r. f_equal.
  rewrite (IH (S start)), (IH 1%nat), map_map. apply map_ext. intros k. lia.
Qed.

Lemma py_range_app (a b c : Z) :
  a <= b <= c -> py_range a c = py_range a b ++ py_range b c.
Proof.
  intros H. unfold py_range.
  replace (Z.to_nat (c - a)) with (Z.to_nat (b - a) + Z.to_nat (c - b))%nat
    by lia.
  rewrite seq_app, map_app. f_equal. cbn [Nat.add].
  rewrite seq_from, map_map. apply map_ext. intros k. lia.
Qed.

Lemma py_range_nodup (a b : Z) : NoDup (py_range a b).
Proof.
  unfold py_range. apply NoDup_map_NoDup_ForallPairs; [|apply seq_NoDup].
  intros x y _ _ H. lia.
Qed.

Lemma py_range_snoc (a b : Z) :
  a <= b -> py_range a (b + 1) = py_range a b ++ [b].
Proof.
  intros H. rewrite (py_range_app a b (b + 1)) by lia. f_equal.
  unfold py_range. replace (b + 1 - b) with 1 by lia.
  change (Z.to_nat 1) with 1%nat. cbn [seq map Z.of_nat]. f_equal. lia.
Qed.

Lemma mapM_ok (A B : Type) (f : A -> result B) (g : A -> B) (l : list A) :
  (forall a, In a l -> f a = Ok (g a)) -> mapM f l = Ok (map g l).
Proof.
  induction l as [|a r IH]; intros H; [reflexivity|].
  cbn [mapM map]. rewrite (H a (or_introl eq_refl)). cbn [bind].
  rewrite IH by (intros; apply H; now right). reflexivity.
Qed.

Lemma grid_cells (columns rows : Z) :
  0 < rows -> 0 <= columns ->
  map (fun id => (id / rows, id mod rows)) (py_range 0 (columns * rows))
  = grid columns rows.
Proof.
  intros Hr Hc. unfold grid.
  rewrite <- (Z2Nat.id columns Hc). clear Hc.
  induction (Z.to_nat columns) as [|n IH]; [reflexivity|].
  rewrite Nat2Z.inj_succ. unfold Z.succ.
  rewrite (py_range_snoc 0 (Z.of_nat n)) by lia.
  rewrite flat_map_app. cbn [flat_map]. rewrite app_nil_r, <- IH.
  rewrite (py_range_app 0 (Z.of_nat n * rows) ((Z.of_nat n + 1) * rows))
    by nia.
  rewrite map_app. f_equal.
  unfold py_range.
  replace ((Z.of_nat n + 1) * rows - Z.of_nat n * rows) with (rows - 0) by lia.
  rewrite !map_map. apply map_ext_in. intros k Hk. apply in_seq in Hk.
  rewrite Z.add_0_l.
  rewrite (Z.add_comm (Z.of_nat n * rows)), Z.div_add, Z.mod_add by lia.
  rewrite Z.div_small, Z.mod_small by lia. f_equal; lia.
Qed.

(** X18. On a grid with at least one row and room for the memories, the
    two generators share out the cells: the pairs of [PeIdGen] followed by
    those of [HbmIdGen] are the cells of the grid, column by column, each
    once; the memories take the last [num_hbms] of them. *)
Theorem generators_partition_grid (args : Args) :
  0 < num_rows args -> 0 <= num_columns args ->
  0 <= num_hbms args <= num_columns args * num_rows args ->
  exists pe_cells hbm_cells,
    PeIdGen args = Ok pe_cells
    /\ HbmIdGen args = Ok hbm_cells
    /\ pe_cells ++ hbm_cells = grid (num_columns args) (num_rows args)
    /\ List.length hbm_cells = Z.to_nat (num_hbms args)
    /\ NoDup (pe_cells ++ hbm_cells).
Proof.
  intros Hr Hc Hh. unfold PeIdGen, HbmIdGen. cbv zeta.
  set (R := num_rows args) in *. set (N := num_columns args * R) in *.
  assert (Hcell : forall l,
            mapM (grid_cell R) l = Ok (map (fun id => (id / R, id mod R)) l)).
  { intros l. apply mapM_ok. intros a _. unfold grid_cell.
    destruct (Z.eqb_spec R 0); [lia | reflexivity]. }
  rewrite !Hcell. do 2 eexists. split; [reflexivity|]. split; [reflexivity|].
  rewrite <- map_app, <- py_range_app by lia.
  split; [now apply grid_cells|]. split.
  - rewrite length_map, py_range_length. f_equal. lia.
  - apply NoDup_map_NoDup_ForallPairs; [|apply py_range_nodup].
    intros x y _ _ H. injection H as Hq Hm.
    rewrite (Z.div_mod x R), (Z.div_mod y R) by lia. congruence.
Qed.

Section AccumulatingLoop.
Variables (A : Type) (size : Z) (f : Z -> Z -> A).

(** The loop of [build_memories] and of [build_memory_maps]: entry [i] is
    built from the base advanced [i] times. *)
Lemma base_loop (n : nat) :
  forall base acc,
    fold_left
      (fun (st : Z * list A) (i : Z) =>
         let '(b, l) := st in (b + size, l ++ [f b i]))
      (map (fun k : nat => 0 + Z.of_nat k) (seq 0 n)) (base, acc)
    = (base + Z.of_nat n * size,
       acc ++ map (fun k : nat => f (base + Z.of_nat k * size) (Z.of_nat k))
                (seq 0 n)).
Proof.
  induction n as [|n IH]; intros base acc.
  - cbn. rewrite app_nil_r. f_equal. lia.
  - rewrite seq_S, !map_app, fold_left_app, IH. cbn [map fold_left Nat.add].
    rewrite <- app_assoc. cbn [app].
    rewrite Z.add_0_l. f_equal. lia.
Qed.

End AccumulatingLoop.

(** X19. The memories and the memory map are built by the same loop:
    there are [num_hbms] of each (none for a negative number), memory [i]
    and range [i] both name [hbm<i>], start at
    [hbm_base + i * hbm_size] written in hexadecimal, and have the size
    [hbm_size]. *)
Theorem memories_match_memory_map (args : Args) :
  List.length (build_memories args) = Z.to_nat (num_hbms args)
  /\ List.length (build_memory_maps args) = Z.to_nat (num_hbms args)
  /\ forall i : nat,
       (i < Z.to_nat (num_hbms args))%nat ->
       nth_error (build_memories args) i
       = Some {| mem_name := ("hbm" ++ py_str (Z.of_nat i))%string;
                 mem_kind := "hbm";
                 mem_base_address :=
                   ("0x" ++ format_x (hbm_base args
                                      + Z.of_nat i * hbm_size args))%string;
                 mem_capacity_bytes := ("0x" ++ format_x (hbm_size args))%string;
                 mem_delay_ticks := 10 |}
       /\ nth_error (build_memory_maps args) i
          = Some {| mr_base_address :=
                      ("0x" ++ format_x (hbm_base args
                                         + Z.of_nat i * hbm_size args))%string;
                    mr_size_bytes := ("0x" ++ format_x (hbm_size args))%string;
                    mr_device := ("hbm" ++ py_str (Z.of_nat i))%string |}.
Proof.
  unfold build_memories, build_memory_maps, py_range. cbv zeta.
  rewrite Z.sub_0_r.
  rewrite (base_loop _ (hbm_size args)
             (fun b i =>
                {| mem_name := ("hbm" ++ py_str i)%string;
                   mem_kind := "hbm";
                   mem_base_address := ("0x" ++ format_x b)%string;
                   mem_capacity_bytes := ("0x" ++ format_x (hbm_size args))%string;
                   mem_delay_ticks := 10 |})).
  rewrite (base_loop _ (hbm_size args)
             (fun b i =>
                {| mr_base_address := ("0x" ++ format_x b)%string;
                   mr_size_bytes := ("0x" ++ format_x (hbm_size args))%string;
                   mr_device := ("hbm" ++ py_str i)%string |})).
  cbn [snd app]. rewrite !length_map, !length_seq.
  split; [reflexivity|]. split; [reflexivity|].
  intros i Hi. rewrite !nth_error_map.
  rewrite (nth_error_nth' _ 0%nat) by now rewrite length_seq.
  rewrite seq_nth by assumption. split; reflexivity.
Qed.

(** X20. A cache of [kib] kibibytes with [ways >= 1] ways has as many sets
    of 32-byte lines as fit: its capacity does not exceed the one asked
    for, and one more set would. *)
Theorem build_cache_capacity (name : string)
  (kib bytes_per_cycle ways latency : Z) :
  1 <= ways ->
  exists cache,
    build_cache name kib bytes_per_cycle ways latency = Ok cache
    /\ num_sets cache * num_ways cache * line_size_bytes cache <= kib * 1024
    /\ kib * 1024
       < (num_sets cache + 1) * num_ways cache * line_size_bytes cache.
Proof.
  intros Hw. unfold build_cache.
  destruct (Z.eqb_spec ways 0); [lia|].
  eexists. split; [reflexivity|]. cbn [num_sets num_ways line_size_bytes].
  unfold LINE_SIZE_BYTES. rewrite Z.div_div by lia.
  pose proof (Z.div_mod (kib * 1024) (ways * 32) ltac:(lia)) as Hdm.
  pose proof (Z.mod_pos_bound (kib * 1024) (ways * 32) ltac:(lia)) as Hb.
  set (q := kib * 1024 / (ways * 32)) in *. clearbody q. nia.
Qed.

Lemma py_str_inj (a b : Z) : py_str a = py_str b -> a = b.
Proof.
  unfold py_str. intros H. apply DecimalZ.to_int_inj.
  assert (Hnn : forall z, Z.to_int z <> Decimal.Pos Decimal.Nil
                          /\ Z.to_int z <> Decimal.Neg Decimal.Nil).
  { intros [|p|p]; cbn; split; try discriminate; intros E; injection E;
      apply DecimalPos.Unsigned.to_uint_nonnil. }
  assert (Hs : Some (Z.to_int a) = Some (Z.to_int b)).
  { rewrite <- (NilZero.isi (Z.to_int a)) by apply Hnn.
    rewrite <- (NilZero.isi (Z.to_int b)) by apply Hnn.
    now rewrite H. }
  now injection Hs.
Qed.

Lemma py_str_chars (z : Z) :
  Forall (fun c => c <> "_"%char) (chars (py_str z)).
Proof.
  assert (Hd : forall d,
            Forall (fun c => c <> "_"%char) (chars (NilZero.string_of_uint d))).
  { intros d.
    assert (H : Forall (fun c => c <> "_"%char)
                  (chars (NilEmpty.string_of_uint d))).
    { eapply Forall_impl; [|apply uint_digits].
      intros c Hc ->. discriminate Hc. }
    destruct d; try exact H.
    repeat constructor. discriminate. }
  unfold py_str. destruct (Z.to_int z) as [d|d]; cbn [NilZero.string_of_int].
  - apply Hd.
  - constructor; [discriminate | apply Hd].
Qed.

Lemma append_cancel (p x y : string) : (p ++ x = p ++ y)%string -> x = y.
Proof. induction p as [|c p IH]; cbn; intros H; [assumption|]. injection H. auto. Qed.

(** Two strings without [_] followed by [_] and anything: the first [_]
    tells where the first string ends. *)
Lemma split_at_underscore (a a' b b' : string) :
  Forall (fun c => c <> "_"%char) (chars a) ->
  Forall (fun c => c <> "_"%char) (chars a') ->
  (a ++ "_" ++ b = a' ++ "_" ++ b')%string -> a = a' /\ b = b'.
Proof.
  revert a'. induction a as [|c a IH]; intros [|c' a'] Ha Ha' H; cbn in *.
  - injection H as ->. auto.
  - injection H as <- _. inversion Ha'; subst. congruence.
  - injection H as -> _. inversion Ha; subst. congruence.
  - injection H as -> H. inversion Ha; inversion Ha'; subst.
    destruct (IH a' ltac:(assumption) ltac:(assumption) H) as [-> ->]. auto.
Qed.

Lemma create_name_cell (prefix : string) (c r c' r' : Z) :
  create_name prefix c r = create_name prefix c' r' -> (c, r) = (c', r').
Proof.
  unfold create_name. intros H.
  apply append_cancel in H. cbn [append] in H. injection H as H.
  apply split_at_underscore in H; try apply py_str_chars.
  destruct H as [Hc Hr]. apply py_str_inj in Hc, Hr. congruence.
Qed.

Lemma mapM_cells (rows : Z) (ids : list Z) (cells : list (Z * Z)) :
  mapM (grid_cell rows) ids = Ok cells ->
  cells = map (fun id => (id / rows, id mod rows)) ids
  /\ (ids <> [] -> rows <> 0).
Proof.
  revert cells. induction ids as [|a r IH]; intros cells H; cbn [mapM] in H.
  - injection H as <-. split; [reflexivity | congruence].
  - unfold grid_cell at 1 in H.
    destruct (Z.eqb_spec rows 0) as [E|E]; [discriminate|]. cbn [bind] in H.
    destruct (mapM (grid_cell rows) r) as [bs|e]; [|discriminate].
    cbn [bind] in H. injection H as <-.
    destruct (IH bs eq_refl) as [-> _]. split; [reflexivity | auto].
Qed.

Lemma cells_nodup (rows : Z) (ids : list Z) (cells : list (Z * Z)) :
  mapM (grid_cell rows) ids = Ok cells -> NoDup ids -> NoDup cells.
Proof.
  intros H Hnd. destruct (mapM_cells _ _ _ H) as [-> Hr].
  destruct ids as [|i0 ids]; [constructor|].
  assert (Hrows : rows <> 0) by (apply Hr; discriminate).
  apply NoDup_map_NoDup_ForallPairs; [|assumption].
  intros x y _ _ E. injection E as Hq Hm.
  rewrite (Z.div_mod x rows), (Z.div_mod y rows) by assumption. congruence.
Qed.

(** X21. Whenever the list of processing elements is built, their names
    are pairwise distinct: a name [pe_<column>_<row>] tells its cell, and
    the generator yields no cell twice. *)
Theorem processing_element_names_distinct (R C : Type) (args : Args)
  (ranges : R) (pe_config : C) (pes : list (FabricPe R C)) :
  build_processing_elements R C args ranges pe_config = Ok pes ->
  NoDup (map (fpe_name R C) pes)
  /\ forall element, In element pes ->
       fpe_memory_map R C element = ranges
       /\ fpe_config R C element = pe_config.
Proof.
  unfold build_processing_elements. intros H.
  destruct (PeIdGen args) as [cells|e] eqn:Hcells; [|discriminate].
  cbn [bind] in H. injection H as <-. split.
  - rewrite map_map.
    apply NoDup_map_NoDup_ForallPairs.
    + intros [c r] [c' r'] _ _ E. exact (create_name_cell "pe" c r c' r' E).
    + unfold PeIdGen in Hcells. cbv zeta in Hcells.
      apply (cells_nodup _ _ _ Hcells), py_range_nodup.
  - intros element Hin. apply in_map_iff in Hin.
    destruct Hin as ([c r] & <- & _). split; reflexivity.
Qed.

Lemma fold_left_appends (A B : Type) (f : list B -> A -> list B)
  (g : A -> list B) (l : list A) :
  (forall acc x, f acc x = acc ++ g x) ->
  forall acc, fold_left f l acc = acc ++ flat_map g l.
Proof.
  intros Hf. induction l as [|a r IH]; intros acc; cbn [fold_left flat_map].
  - now rewrite app_nil_r.
  - now rewrite IH, Hf, app_assoc.
Qed.

Lemma filter_flat_map_list (A B : Type) (p : B -> bool) (g : A -> list B)
  (l : list A) :
  filter p (flat_map g l) = flat_map (fun a => filter p (g a)) l.
Proof.
  induction l as [|a r IH]; [reflexivity|].
  cbn [flat_map]. now rewrite filter_app, IH.
Qed.

Lemma to_fabric_port (source : string) (column row : Z) :
  to_fabric (source, fabric_port column row) = true.
Proof. reflexivity. Qed.

Lemma chain_to_fabric (args : Args) (column row : Z) :
  map snd (filter to_fabric (chain_links (pe_chain args column row)))
  = [fabric_port column row].
Proof.
  unfold pe_chain.
  destruct (l1_kib args =? 0), (l2_kib args =? 0); reflexivity.
Qed.

(** X22. On a grid with at least one row and room for the memories, every
    port of the fabric is the end of exactly one connection: those of the
    processing elements come first, then those of the memories, and
    together they run through the cells of the grid column by column. *)
Theorem fabric_ports_connected_once (args : Args) :
  0 < num_rows args -> 0 <= num_columns args ->
  0 <= num_hbms args <= num_columns args * num_rows args ->
  exists connections,
    build_connections args = Ok connections
    /\ map snd (filter to_fabric connections)
       = map (fun cell => fabric_port (fst cell) (snd cell))
           (grid (num_columns args) (num_rows args)).
Proof.
  intros Hr Hc Hh.
  assert (Hgrid : exists pe_cells hbm_cells,
            PeIdGen args = Ok pe_cells /\ HbmIdGen args = Ok hbm_cells
            /\ pe_cells ++ hbm_cells
               = grid (num_columns args) (num_rows args)).
  { unfold PeIdGen, HbmIdGen. cbv zeta.
    set (R := num_rows args) in *. set (N := num_columns args * R) in *.
    assert (Hcell : forall l,
              mapM (grid_cell R) l
              = Ok (map (fun id => (id / R, id mod R)) l)).
    { intros l. apply mapM_ok. intros a _. unfold grid_cell.
      destruct (Z.eqb_spec R 0); [lia | reflexivity]. }
    rewrite !Hcell. do 2 eexists. split; [reflexivity|].
    split; [reflexivity|].
    rewrite <- map_app, <- py_range_app by lia. now apply grid_cells. }
  destruct Hgrid as (pe_cells & hbm_cells & Hpe & Hhbm & <-).
  unfold build_connections. rewrite Hpe, Hhbm. cbn [bind].
  eexists. split; [reflexivity|].
  rewrite (fold_left_appends _ _ _
             (fun ic : nat * (Z * Z) =>
                [(("mem.hbm" ++ py_str (Z.of_nat (fst ic)))%string,
                  fabric_port (fst (snd ic)) (snd (snd ic)))]))
    by (intros acc [i [c r]]; reflexivity).
  rewrite (fold_left_appends _ _ _
             (fun cell : Z * Z =>
                chain_links (pe_chain args (fst cell) (snd cell))))
    by (intros acc [c r]; reflexivity).
  cbn [app]. rewrite filter_app, !filter_flat_map_list, !map_app. f_equal.
  - clear. induction pe_cells as [|cell l IH]; [reflexivity|].
    cbn [flat_map map]. rewrite map_app, chain_to_fabric.
    cbn [app]. f_equal. exact IH.
  - clear. unfold enumerate. generalize 0%nat.
    induction hbm_cells as [|cell l IH]; intros s; [reflexivity|].
    cbn [List.length seq combine flat_map map]. rewrite map_app.
    cbn [filter]. rewrite to_fabric_port. cbn [map app fst snd]. f_equal.
    exact (IH (S s)).
Qed.

Lemma add_caches_names (args : Args) (cells : list (Z * Z)) :
  (l1_kib args <> 0 -> l1_num_ways args <> 0) ->
  (l2_kib args <> 0 -> l2_num_ways args <> 0) ->
  forall acc,
  exists caches,
    foldM (add_caches args) cells acc = Ok (acc ++ caches)
    /\ map cache_name caches
       = flat_map (fun cell => cell_caches args (fst cell) (snd cell)) cells.
Proof.
  intros H1 H2. induction cells as [|[c r] l IH]; intros acc.
  - exists []. cbn. now rewrite app_nil_r.
  - cbn [foldM flat_map fst snd]. unfold add_caches at 1, cell_caches at 1.
    unfold build_cache.
    destruct (Z.eqb_spec (l1_kib args) 0) as [E1|E1];
      destruct (Z.eqb_spec (l2_kib args) 0) as [E2|E2];
      try (destruct (Z.eqb_spec (l1_num_ways args) 0) as [W1|W1];
           [now apply H1 in E1|]);
      try (destruct (Z.eqb_spec (l2_num_ways args) 0) as [W2|W2];
           [now apply H2 in E2|]);
      cbn [bind app];
      match goal with
      | |- context [foldM _ l ?a] => destruct (IH a) as (caches & -> & Hn)
      end;
      rewrite <- ?app_assoc; eexists; (split; [reflexivity|]);
      cbn [map app cache_name]; now rewrite Hn.
Qed.

(** X23. The caches are built in the order of the processing elements, L1
    before L2, under the names that the chains of [build_connections]
    refer to; without any cache the result is the [None] of a bare
    [return], not an empty list. *)
Theorem caches_follow_processing_elements (args : Args)
  (cells : list (Z * Z)) :
  PeIdGen args = Ok cells ->
  (l1_kib args <> 0 -> l1_num_ways args <> 0) ->
  (l2_kib args <> 0 -> l2_num_ways args <> 0) ->
  (exists built,
     build_caches args = Ok built
     /\ match built with
        | None => l1_kib args = 0 /\ l2_kib args = 0
        | Some caches =>
            (l1_kib args <> 0 \/ l2_kib args <> 0)
            /\ map cache_name caches
               = flat_map (fun cell => cell_caches args (fst cell) (snd cell))
                   cells
        end)
  /\ forall column row,
       pe_chain args column row
       = [("pe." ++ create_name "pe" column row)%string]
         ++ map (String.append "cache.") (cell_caches args column row)
         ++ [fabric_port column row].
Proof.
  intros Hcells H1 H2. split.
  - unfold build_caches.
    destruct (Z.eqb_spec (l1_kib args) 0) as [E1|E1];
      destruct (Z.eqb_spec (l2_kib args) 0) as [E2|E2]; cbn [andb].
    1: { exists None. auto. }
    all: rewrite Hcells; cbn [bind];
      destruct (add_caches_names args cells H1 H2 []) as (caches & -> & Hn);
      cbn [bind app]; exists (Some caches); split; [reflexivity|];
      split; [tauto | exact Hn].
  - intros column row. unfold pe_chain, cell_caches.
    destruct (l1_kib args =? 0), (l2_kib args =? 0); reflexivity.
Qed.

(** ** The theorems at the examples *)

Lemma transfer_chunks_witness :
  exists loads stores,
    chunking loads "add0_load_1" "load" "pe0" 4096 48 16
    /\ chunking stores "add0_store_1" "store" "pe0" 4096 48 16.
Proof.
  destruct (transfer_chunks (_collect_tensors graph_add0) [("x", 4096)]
              "add0" "pe0" "add0_compute" "x" 16 1
              (Some [Some 12], TensorProto.FLOAT, 48) 4096)
    as (loads & stores & _ & Hl & _ & Hs);
    [discriminate | reflexivity | reflexivity | simpl; lia | lia |].
  exists loads, stores. split; [exact Hl | exact Hs].
Defined.

Lemma layout_round_robin_witness :
  exists placed : list Z,
    List.length placed = 2%nat
    /\ dict_get [("x", 4096); ("y", 4160)] "y" = Some (nth 1 placed 0).
Proof.
  destruct (layout_round_robin no_literal no_literal
              (_collect_tensors graph_add0) platform_one_pe
              (collect_tensors_well_resolved graph_add0)) as [_ Hok].
  destruct (Hok [("x", 4096); ("y", 4160)] eq_refl)
    as (ranges & device_addresses & placed & H).
  cbv zeta in H.
  destruct H as (_ & _ & _ & _ & _ & _ & _ & _ & Hlen & Hget & _).
  exists placed. split; [exact Hlen|].
  exact (Hget 1%nat "y" (Some [Some 12], TensorProto.FLOAT, 48) eq_refl).
Defined.

Lemma compute_record_witness :
  exists pe_name dtype_str num_ops,
    nth_error (filter is_compute (nodes timetable_add0)) 0
    = Some {| id := "add0_compute"; kind := "compute"; op := "add";
              pe := pe_name; config := ComputeConfig dtype_str num_ops |}
    /\ 1 <= num_ops.
Proof.
  destruct (compute_record_of_operation no_literal no_literal graph_add0
              platform_one_pe timetable_add0 0
              {| node_name := "add0"; node_op_type := "Add";
                 node_input := [""; "x"]; node_output := ["y"] |}
              eq_refl eq_refl)
    as (pe_name & dtype_str & num_ops & Hrec & Hpos & _).
  exists pe_name, dtype_str, num_ops. split; [exact Hrec | exact Hpos].
Defined.

Lemma round_robin_assignment_witness :
  exists ws : list Lowered,
    nodes timetable_add0 = flat_map lowered_nodes ws
    /\ List.length ws = 1%nat.
Proof.
  destruct (round_robin_assignment no_literal no_literal graph_add0
              platform_one_pe timetable_add0 eq_refl)
    as (_ & (ws & Hnodes & Hlen & _) & _).
  exists ws. split; [exact Hnodes | exact Hlen].
Defined.

Lemma edges_within_operation_witness :
  exists (addrs : dict Z) (ws : list Lowered),
    nodes timetable_overlapping_names = flat_map lowered_nodes ws
    /\ edges timetable_overlapping_names = flat_map lowered_edges ws
    /\ List.length ws = 2%nat
    /\ forall e k1 w1 n1 k2 w2 n2,
         In e (edges timetable_overlapping_names) ->
         nth_error ws k1 = Some w1 -> In n1 (lowered_nodes w1) ->
         id n1 = edge_from e ->
         nth_error ws k2 = Some w2 -> In n2 (lowered_nodes w2) ->
         id n2 = edge_to e ->
         k1 = k2.
Proof.
  destruct (edges_within_operation no_literal no_literal
              graph_overlapping_names platform_one_pe
              timetable_overlapping_names eq_refl)
    as (addrs & ws & _ & _ & Hnodes & Hedges & Hlen & _ & _ & Hone).
  exists addrs, ws. split; [exact Hnodes|]. split; [exact Hedges|].
  split; [exact Hlen|]. apply Hone.
  repeat constructor; simpl; intuition discriminate.
Defined.

Lemma transfer_index_witness :
  map id (nodes timetable_add0)
  = ["add0_load_1"; "add0_compute"; "add0_store_0"]
  /\ exists addrs pe_name capacity w,
       _get_pe_sram_bytes no_literal platform_one_pe pe_name = Ok capacity
       /\ nth_error (lowering no_literal graph_add0 platform_one_pe addrs) 0
          = Some w
       /\ map id (lowered_nodes w)
          = map (render "add0")
              (slot_roles RLoad (_collect_tensors graph_add0) capacity
                 (enumerate [""; "x"])
               ++ [RCompute]
               ++ slot_roles RStore (_collect_tensors graph_add0) capacity
                    (enumerate ["y"]))
       /\ positional "_load_" "load" (_collect_tensors graph_add0) addrs
            "add0" pe_name capacity [""; "x"] (loads w).
Proof.
  split; [reflexivity|].
  destruct (transfer_index_is_position no_literal no_literal graph_add0
              platform_one_pe timetable_add0 0
              {| node_name := "add0"; node_op_type := "Add";
                 node_input := [""; "x"]; node_output := ["y"] |}
              eq_refl eq_refl)
    as (addrs & pe_name & capacity & w & _ & _ & Hget & _ & _ & _ & Hnth
        & Hids & Hloads & _).
  exists addrs, pe_name, capacity, w.
  split; [exact Hget|]. split; [exact Hnth|]. split; [exact Hids|].
  exact Hloads.
Defined.

Lemma resolver_total_witness :
  exists shape dtype size,
    dict_get (_collect_tensors graph_add0) "x" = Some (Some shape, dtype, size)
    /\ 1 <= size.
Proof.
  destruct (resolver_total no_literal no_literal graph_add0 "x")
    as (_ & _ & (shape & dtype & size & Hget & _ & Hsize) & _);
    [discriminate | left; simpl; tauto |].
  exists shape, dtype, size. split; [exact Hget | exact Hsize].
Defined.

Lemma unnamed_operation_witness :
  onnx_to_gwr_timetable no_literal no_literal graph_unnamed platform_one_pe
  = Err (ValueError "Node at index 1 is missing a name").
Proof.
  destruct (unnamed_operation_aborts no_literal no_literal graph_unnamed
              platform_one_pe) as (_ & H & _).
  destruct (H [("x", 4096); ("y", 4160); ("z", 4224)] eq_refl)
    as [Hfirst _].
  - discriminate.
  - intros [|c] Hc; [|simpl in Hc; lia].
    exists 64. split; [reflexivity | discriminate].
  - apply (Hfirst 1%nat
             {| node_name := ""; node_op_type := "Relu";
                node_input := ["y"]; node_output := ["z"] |});
      [reflexivity | reflexivity |].
    intros [|j] nd' Hj Hnd'; [|lia]. injection Hnd' as <-. discriminate.
Defined.

Lemma unique_ids_witness :
  map id (nodes timetable_overlapping_names)
  = ["a_load_0"; "a_compute"; "a_store_0";
     "a_load_0_load_0"; "a_load_0_compute"; "a_load_0_store_0"]
  /\ NoDup (map id (nodes timetable_overlapping_names))
  /\ count_occ string_dec (map id (nodes timetable_overlapping_names))
       "a_compute" = 1%nat.
Proof.
  split; [reflexivity|].
  destruct (unique_ids_for_distinct_names no_literal no_literal
              graph_overlapping_names platform_one_pe
              timetable_overlapping_names eq_refl) as (Hids & _ & Hcount).
  split.
  - apply Hids. repeat constructor; simpl; intuition discriminate.
  - exact (Hcount "a").
Defined.

Lemma initializer_record_witness :
  dict_get (_collect_tensors graph_declared_initializer) "W"
  = Some (Some [Some 2; Some 4], TensorProto.FLOAT, 32).
Proof.
  exact (initializer_record_is_final graph_declared_initializer [] []
           {| init_name := "W"; init_dims := Some [2; 4];
              init_data_type := Some TensorProto.FLOAT |}
           eq_refl (fun H => H)).
Defined.

Lemma declared_record_witness :
  dict_get (_collect_tensors graph_add0) "x"
  = Some (Some [Some 12], TensorProto.FLOAT, 48).
Proof.
  apply (declared_record_is_final graph_add0 []
           [ {| vi_name := "y";
                vi_type := tensor_of [dim_value 12] TensorProto.FLOAT |} ]
           {| vi_name := "x";
              vi_type := tensor_of [dim_value 12] TensorProto.FLOAT |}).
  - reflexivity.
  - simpl. intros [H|[]]. discriminate H.
  - simpl. intros [].
Defined.

Lemma placeholder_witness :
  dict_get (_collect_tensors graph_unnamed) "z"
  = Some (Some [Some 1], TensorProto.FLOAT, 4).
Proof.
  apply (node_only_tensor_is_placeholder graph_unnamed "z").
  - discriminate.
  - simpl. tauto.
  - simpl. intros [].
  - simpl. intros [].
Defined.

Lemma size_is_num_ops_witness :
  exists num_ops,
    _calculate_num_ops (_collect_tensors graph_add0) "x" = Ok num_ops
    /\ 48 = num_ops * 4.
Proof.
  destruct (size_is_num_ops_times_width graph_add0 "x" (Some [Some 12])
              TensorProto.FLOAT 48 eq_refl) as (num_ops & Hops & _ & Hsize).
  exists num_ops. split; [exact Hops | exact Hsize].
Defined.

Lemma device_base_witness :
  dict_keys [("hbm0", 4096)] = ["hbm0"]
  /\ exists base, dict_get [("hbm0", 4096)] "hbm0" = Some base.
Proof.
  destruct (device_base_from_first_range no_literal no_literal
              [ {| range_device := Some "hbm0";
                   range_base_address := Some (yaml_int 4096) |} ] [] []
              {| range_device := Some "hbm0";
                 range_base_address := Some (yaml_int 4096) |}
              [("hbm0", 4096)] eq_refl eq_refl (fun H => H))
    as (Hkeys & base & _ & Hget).
  split; [exact Hkeys|]. exists base. exact Hget.
Defined.

Lemma placement_order_witness :
  dict_keys [("x", 4096); ("y", 4160)]
  = map fst (sorted_by_size (_collect_tensors graph_add0)).
Proof.
  exact (addresses_in_placement_order no_literal no_literal
           (_collect_tensors graph_add0) platform_one_pe
           [("x", 4096); ("y", 4160)]
           (proj1 (collect_tensors_well_resolved graph_add0)) eq_refl).
Defined.

Lemma aligned_from_base_witness :
  exists device base blocks,
    dict_get [("hbm0", 4096)] device = Some base
    /\ 0 <= blocks
    /\ 4160 = base + 64 * blocks.
Proof.
  destruct (addresses_aligned_from_base no_literal no_literal
              (_collect_tensors graph_add0) platform_one_pe
              [("x", 4096); ("y", 4160)]
              (collect_tensors_well_resolved graph_add0) eq_refl)
    as (mm & rest & da & Hmm & Hinit & Hall).
  injection Hmm as <- <-. injection Hinit as <-.
  exact (Hall "y" 4160 eq_refl).
Defined.

Lemma sram_bytes_first_declared_witness :
  _get_pe_sram_bytes no_literal platform_one_pe "pe0" = Ok 64.
Proof.
  apply (sram_bytes_first_declared no_literal platform_one_pe [] []
           {| pe_name := "pe0";
              pe_config := Some {| sram_bytes := Some (yaml_int 64) |} |}
           "pe0" (yaml_int 64)).
  - reflexivity.
  - intros q' [].
  - reflexivity.
  - reflexivity.
Defined.

Lemma sram_bytes_default_witness :
  _get_pe_sram_bytes no_literal platform_one_pe "pe1" = Ok (1024 * 1024).
Proof.
  apply (sram_bytes_default no_literal platform_one_pe "pe1").
  simpl. intros q [<-|[]] H. discriminate H.
Defined.

Lemma split_memory_op_tiles_witness :
  exists first rest,
    _split_memory_op "add0_load_1" "load" "pe0" 4096 48 16
    = Ok (first :: rest)
    /\ chunk_addr first = 4096
    /\ chunk_end (last rest first) = 4096 + 48.
Proof.
  destruct (split_memory_op_tiles "add0_load_1" "load" "pe0" 4096 48 16)
    as (first & rest & Hsplit & Hfirst & _ & Hlast); [lia | lia |].
  exists first, rest. split; [exact Hsplit|]. split; [exact Hfirst|].
  exact Hlast.
Defined.

Lemma negative_capacity_witness :
  _split_memory_op "add0_load_1" "load" "pe0" 4096 1 (-4)
  = Ok [ {| id := "add0_load_1"; kind := "memory"; op := "load"; pe := "pe0";
            config := MemoryConfig 4096 (-4) |} ]
  /\ _split_memory_op "add0_load_1" "load" "pe0" 4096 48 (-4) = Ok [].
Proof.
  split.
  - apply (split_memory_op_negative_capacity "add0_load_1" "load" "pe0"
             4096 1 (-4)); lia.
  - apply (split_memory_op_negative_capacity "add0_load_1" "load" "pe0"
             4096 48 (-4)); lia.
Defined.

Lemma dtype_string_witness :
  _DTYPE_SIZES_get TensorProto.FLOAT = _DTYPE_SIZES_get 99
  \/ In TensorProto.FLOAT [TensorProto.COMPLEX64; TensorProto.COMPLEX128]
  \/ In 99 [TensorProto.COMPLEX64; TensorProto.COMPLEX128].
Proof.
  exact (dtype_string_determines_width TensorProto.FLOAT 99 eq_refl).
Defined.

Lemma nodes_edges_count_witness :
  List.length (nodes timetable_add0)
  = (List.length (edges timetable_add0) + 1)%nat.
Proof.
  exact (nodes_edges_count no_literal no_literal graph_add0 platform_one_pe
           timetable_add0 eq_refl).
Defined.

Lemma zero_capacity_witness :
  onnx_to_gwr_timetable no_literal no_literal graph_add0
    platform_zero_capacity
  = Err ZeroDivisionError.
Proof.
  destruct (zero_capacity_divides_by_zero no_literal no_literal graph_add0
              platform_zero_capacity [("x", 4096); ("y", 4160)])
    as [[_ H] _].
  - reflexivity.
  - discriminate.
  - reflexivity.
  - simpl. intros q [<-|[]]. exists 0. reflexivity.
  - apply H.
    exists 0%nat,
      {| node_name := "add0"; node_op_type := "Add";
         node_input := [""; "x"]; node_output := ["y"] |}.
    split; [reflexivity|]. split; reflexivity.
Defined.

Lemma generators_partition_witness :
  exists pe_cells hbm_cells,
    PeIdGen args_default = Ok pe_cells
    /\ HbmIdGen args_default = Ok hbm_cells
    /\ pe_cells ++ hbm_cells = [(0, 0); (0, 1); (1, 0); (1, 1)]
    /\ List.length hbm_cells = 2%nat.
Proof.
  destruct (generators_partition_grid args_default)
    as (pe_cells & hbm_cells & Hpe & Hhbm & Hgrid & Hlen & _);
    [simpl; lia | simpl; lia | simpl; lia |].
  exists pe_cells, hbm_cells.
  split; [exact Hpe|]. split; [exact Hhbm|]. split; [exact Hgrid|].
  exact Hlen.
Defined.

Lemma build_cache_capacity_witness :
  exists cache,
    build_cache "l1_0_0" 32 32 4 5 = Ok cache
    /\ num_sets cache * num_ways cache * line_size_bytes cache <= 32 * 1024.
Proof.
  destruct (build_cache_capacity "l1_0_0" 32 32 4 5)
    as (cache & Hbuild & Hfits & _); [lia|].
  exists cache. split; [exact Hbuild | exact Hfits].
Defined.

Lemma processing_element_names_witness :
  exists pes,
    build_processing_elements unit unit args_default tt tt = Ok pes
    /\ map (fpe_name unit unit) pes = ["pe_0_0"; "pe_0_1"]
    /\ NoDup (map (fpe_name unit unit) pes).
Proof.
  exists [ {| fpe_name := "pe_0_0"; fpe_memory_map := tt; fpe_config := tt |};
           {| fpe_name := "pe_0_1"; fpe_memory_map := tt; fpe_config := tt |} ].
  split; [reflexivity|]. split; [reflexivity|].
  exact (proj1 (processing_element_names_distinct unit unit args_default
                  tt tt _ eq_refl)).
Defined.

Lemma fabric_ports_witness :
  exists connections,
    build_connections args_default = Ok connections
    /\ map snd (filter to_fabric connections)
       = [ "fabric.fabric0@(0,0)"; "fabric.fabric0@(0,1)";
           "fabric.fabric0@(1,0)"; "fabric.fabric0@(1,1)" ].
Proof.
  destruct (fabric_ports_connected_once args_default)
    as (connections & Hbuild & Hports);
    [simpl; lia | simpl; lia | simpl; lia |].
  exists connections. split; [exact Hbuild | exact Hports].
Defined.

Lemma caches_witness :
  exists caches,
    build_caches args_l1 = Ok (Some caches)
    /\ map cache_name caches = ["l1_0_0"; "l1_0_1"].
Proof.
  destruct (caches_follow_processing_elements args_l1 [(0, 0); (0, 1)])
    as [(built & Hbuild & Hbuilt) _].
  - reflexivity.
  - simpl. intros _. discriminate.
  - simpl. intros H. exfalso. apply H. reflexivity.
  - destruct built as [caches|].
    + exists caches. split; [exact Hbuild | exact (proj2 Hbuilt)].
    + destruct Hbuilt as [H _]. discriminate H.
Defined.
